(** * freemarker.go, package parse: scanner, parser and node model

    A shallow embedding of [lex.go], [node.go] and [parse.go].  Go strings
    are byte strings and are modelled by [string] (one [ascii] per byte);
    [int], [Pos] and [rune] are modelled by [Z]; pointers that may be nil
    are modelled by [option]. *)

From Stdlib Require Import ZArith String Ascii List Bool Lia DecimalString.
From stdpp Require Import base option list gmap strings.

Local Open Scope string_scope.
Local Open Scope Z_scope.

(** ** The parts of the Go standard library the package calls *)

Definition byte_val (c : ascii) : Z := Z.of_N (N_of_ascii c).
Definition byte_chr (n : Z) : ascii := ascii_of_N (Z.to_N n).
Definition len (s : string) : Z := Z.of_nat (String.length s).

Fixpoint str_drop (n : nat) (s : string) : string :=
  match n, s with
  | O, _ => s
  | S n', String _ s' => str_drop n' s'
  | S _, EmptyString => EmptyString
  end.

Fixpoint str_take (n : nat) (s : string) : string :=
  match n, s with
  | O, _ => EmptyString
  | S n', String c s' => String c (str_take n' s')
  | S _, EmptyString => EmptyString
  end.

(** [s[lo:]], [s[:hi]], [s[lo:hi]] and [s[i]].  Go panics when an index is
    out of range; the callers below that can be out of range test it
    themselves. *)
Definition slice_from (s : string) (lo : Z) : string := str_drop (Z.to_nat lo) s.
Definition slice_to (s : string) (hi : Z) : string := str_take (Z.to_nat hi) s.
Definition slice (s : string) (lo hi : Z) : string :=
  str_take (Z.to_nat (hi - lo)) (str_drop (Z.to_nat lo) s).
Definition byte_at (s : string) (i : Z) : Z :=
  match String.get (Z.to_nat i) s with
  | Some c => byte_val c
  | None => 0
  end.

Definition strings_HasPrefix (s prefix : string) : bool := String.prefix prefix s.

(** [strings.Index]: offset of the first occurrence, or -1. *)
Fixpoint strings_Index (s substr : string) : Z :=
  if strings_HasPrefix s substr then 0
  else match s with
       | EmptyString => -1
       | String _ s' =>
           let i := strings_Index s' substr in
           if i <? 0 then -1 else i + 1
       end.

(** [strings.LastIndex] for a one-byte separator, which is the only use. *)
Fixpoint strings_LastIndexByte (s : string) (c : ascii) : Z :=
  match s with
  | EmptyString => -1
  | String c' s' =>
      let i := strings_LastIndexByte s' c in
      if 0 <=? i then i + 1
      else if Ascii.eqb c' c then 0 else -1
  end.

(** [strings.Count] for a one-byte separator. *)
Fixpoint strings_CountByte (s : string) (c : ascii) : Z :=
  match s with
  | EmptyString => 0
  | String c' s' =>
      (if Ascii.eqb c' c then 1 else 0) + strings_CountByte s' c
  end.

(** [strings.ContainsRune valid r] for an ASCII [valid]; [eof] and every
    rune above 0x7f are not contained. *)
Fixpoint strings_ContainsRune (valid : string) (r : Z) : bool :=
  match valid with
  | EmptyString => false
  | String c v' => (byte_val c =? r) || strings_ContainsRune v' r
  end.

(** [strings.ContainsAny s chars] for ASCII [chars]. *)
Fixpoint strings_ContainsAny (s chars : string) : bool :=
  match s with
  | EmptyString => false
  | String c s' => strings_ContainsRune chars (byte_val c) || strings_ContainsAny s' chars
  end.

(** *** unicode/utf8 *)

Definition RuneError : Z := 0xFFFD.
Definition RuneSelf : Z := 0x80.

(** The [first] table of package utf8: for a leading byte, the length of
    the sequence and the accepted range of the second byte. *)
Definition utf8_first (b0 : Z) : option (Z * Z * Z) :=
  if b0 <? 0xC2 then None
  else if b0 <=? 0xDF then Some (2, 0x80, 0xBF)
  else if b0 =? 0xE0 then Some (3, 0xA0, 0xBF)
  else if b0 <=? 0xEC then Some (3, 0x80, 0xBF)
  else if b0 =? 0xED then Some (3, 0x80, 0x9F)
  else if b0 <=? 0xEF then Some (3, 0x80, 0xBF)
  else if b0 =? 0xF0 then Some (4, 0x90, 0xBF)
  else if b0 <=? 0xF3 then Some (4, 0x80, 0xBF)
  else if b0 =? 0xF4 then Some (4, 0x80, 0x8F)
  else None.

Definition is_cont (b : Z) : bool := (0x80 <=? b) && (b <=? 0xBF).

Definition utf8_DecodeRuneInString (s : string) : Z * Z :=
  let n := len s in
  if n <? 1 then (RuneError, 0)
  else
    let s0 := byte_at s 0 in
    if s0 <? RuneSelf then (s0, 1)
    else match utf8_first s0 with
         | None => (RuneError, 1)
         | Some (sz, lo, hi) =>
             if n <? sz then (RuneError, 1)
             else
               let s1 := byte_at s 1 in
               if (s1 <? lo) || (hi <? s1) then (RuneError, 1)
               else if sz <=? 2 then
                 (Z.lor (Z.shiftl (Z.land s0 0x1F) 6) (Z.land s1 0x3F), 2)
               else
                 let s2 := byte_at s 2 in
                 if negb (is_cont s2) then (RuneError, 1)
                 else if sz <=? 3 then
                   (Z.lor (Z.lor (Z.shiftl (Z.land s0 0x0F) 12)
                                 (Z.shiftl (Z.land s1 0x3F) 6))
                          (Z.land s2 0x3F), 3)
                 else
                   let s3 := byte_at s 3 in
                   if negb (is_cont s3) then (RuneError, 1)
                   else
                     (Z.lor (Z.lor (Z.lor (Z.shiftl (Z.land s0 0x07) 18)
                                          (Z.shiftl (Z.land s1 0x3F) 12))
                                   (Z.shiftl (Z.land s2 0x3F) 6))
                            (Z.land s3 0x3F), 4)
         end.

(** [utf8.RuneStart] and [utf8.DecodeLastRuneInString]. *)
Definition utf8_RuneStart (b : Z) : bool := negb (Z.land b 0xC0 =? 0x80).

Fixpoint last_rune_start (fuel : nat) (s : string) (start lim : Z) : Z :=
  match fuel with
  | O => start
  | S fuel' =>
      if start <? lim then start
      else if utf8_RuneStart (byte_at s start) then start
      else last_rune_start fuel' s (start - 1) lim
  end.

Definition utf8_DecodeLastRuneInString (s : string) : Z * Z :=
  let e := len s in
  if e =? 0 then (RuneError, 0)
  else
    let start := e - 1 in
    let r := byte_at s start in
    if r <? RuneSelf then (r, 1)
    else
      let lim := Z.max 0 (e - 4) in
      let start := last_rune_start 4 s (start - 1) lim in
      let start := Z.max 0 start in
      let '(r, size) := utf8_DecodeRuneInString (slice s start e) in
      if negb (start + size =? e) then (RuneError, 1) else (r, size).

(** *** unicode *)

(** [unicode.IsSpace]: the Latin-1 spaces and the White_Space property. *)
Definition unicode_IsSpace (r : Z) : bool :=
  if r <=? 0xFF then
    (r =? 9) || (r =? 10) || (r =? 11) || (r =? 12) || (r =? 13) || (r =? 32)
    || (r =? 0x85) || (r =? 0xA0)
  else
    (r =? 0x1680) || ((0x2000 <=? r) && (r <=? 0x200a)) || (r =? 0x2028)
    || (r =? 0x2029) || (r =? 0x202f) || (r =? 0x205f) || (r =? 0x3000).

Definition ascii_letter (r : Z) : bool :=
  ((65 <=? r) && (r <=? 90)) || ((97 <=? r) && (r <=? 122)).
Definition ascii_digit (r : Z) : bool := (48 <=? r) && (r <=? 57).

(** *** bytes.TrimSpace *)

Fixpoint trim_left_space (fuel : nat) (s : string) : string :=
  match fuel with
  | O => s
  | S fuel' =>
      let '(r, w) := utf8_DecodeRuneInString s in
      if (0 <? w) && unicode_IsSpace r then trim_left_space fuel' (slice_from s w)
      else s
  end.

Fixpoint trim_right_space (fuel : nat) (s : string) : string :=
  match fuel with
  | O => s
  | S fuel' =>
      let '(r, w) := utf8_DecodeLastRuneInString s in
      if (0 <? w) && unicode_IsSpace r then trim_right_space fuel' (slice_to s (len s - w))
      else s
  end.

Definition bytes_TrimSpace (s : string) : string :=
  let s1 := trim_left_space (String.length s) s in
  trim_right_space (String.length s1) s1.

(** *** strconv.Itoa, as used by the verb %d *)
Definition itoa (n : Z) : string := NilZero.string_of_int (Z.to_int n).

(** *** What is taken as given

    The Unicode tables above U+007F, the numeric conversions of strconv and
    the float64 type are not part of this repository; the package is
    modelled over any implementation of them. *)
Record GoLib : Type := {
  (** [unicode.IsLetter], [unicode.IsDigit], [strconv.IsPrint]; consulted
      for runes from U+0080 on only *)
  unicode_IsLetter_hi : Z -> bool;
  unicode_IsDigit_hi : Z -> bool;
  strconv_IsPrint_hi : Z -> bool;
  (** how [strconv.Quote] writes a rune that is not printable ASCII and not
      one of the escapes it names; given the bytes of the rune *)
  strconv_quote_other : string -> string;
  (** [strconv.UnquoteChar] on input that starts with a backslash *)
  strconv_UnquoteChar_escape : string -> ascii -> option (Z * string);
  (** [strconv.ParseUint s 0 64], [strconv.ParseInt s 0 64] *)
  strconv_ParseUint : string -> option Z;
  strconv_ParseInt : string -> option Z;
  float64 : Type;
  strconv_ParseFloat : string -> option float64;
  (** conversions [float64(i)], [int64(f)], [uint64(f)] and [f == g] *)
  float64_of_int : Z -> float64;
  int64_of_float : float64 -> Z;
  uint64_of_float : float64 -> Z;
  float64_eqb : float64 -> float64 -> bool
}.

(** *** strconv.Quote and the verbs %q and %#U of package fmt *)

Definition dq : string := String (ascii_of_N 34) EmptyString.
Definition bslash : string := String (ascii_of_N 92) EmptyString.

Definition hex_digit (upper : bool) (d : Z) : string :=
  String (byte_chr (if d <? 10 then 48 + d
                    else if upper then 55 + d else 87 + d)) EmptyString.

Definition hex2 (b : Z) : string :=
  hex_digit false (Z.shiftr b 4) +:+ hex_digit false (Z.land b 0xF).

Fixpoint hex_upper (fuel : nat) (u : Z) : string :=
  match fuel with
  | O => EmptyString
  | S fuel' =>
      if u <? 16 then hex_digit true u
      else hex_upper fuel' (Z.shiftr u 4) +:+ hex_digit true (Z.land u 0xF)
  end.

Fixpoint pad_zeros (n : nat) (s : string) : string :=
  match n with
  | O => s
  | S n' => if len s <? 4 then pad_zeros n' ("0" +:+ s) else s
  end.

Definition utf8_EncodeRune (r : Z) : string :=
  let b (n : Z) := String (byte_chr n) EmptyString in
  let three (r : Z) :=
    b (Z.lor 0xE0 (Z.shiftr r 12)) +:+ b (Z.lor 0x80 (Z.land (Z.shiftr r 6) 0x3F))
      +:+ b (Z.lor 0x80 (Z.land r 0x3F)) in
  if (0 <=? r) && (r <=? 0x7F) then b r
  else if (0 <=? r) && (r <=? 0x7FF) then
    b (Z.lor 0xC0 (Z.shiftr r 6)) +:+ b (Z.lor 0x80 (Z.land r 0x3F))
  else if (r <? 0) || (0x10FFFF <? r) || ((0xD800 <=? r) && (r <=? 0xDFFF)) then
    three RuneError
  else if r <=? 0xFFFF then three r
  else
    b (Z.lor 0xF0 (Z.shiftr r 18)) +:+ b (Z.lor 0x80 (Z.land (Z.shiftr r 12) 0x3F))
      +:+ b (Z.lor 0x80 (Z.land (Z.shiftr r 6) 0x3F)) +:+ b (Z.lor 0x80 (Z.land r 0x3F)).

(** The first [n] runes of [s], as the precision of %s and %q cuts it. *)
Fixpoint truncate_runes (fuel : nat) (n : Z) (s : string) : string :=
  match fuel with
  | O => EmptyString
  | S fuel' =>
      if (n <=? 0) || (len s =? 0) then EmptyString
      else
        let '(_, w) := utf8_DecodeRuneInString s in
        slice_to s w +:+ truncate_runes fuel' (n - 1) (slice_from s w)
  end.

Definition fmt_prec_s (n : Z) (s : string) : string :=
  truncate_runes (String.length s) n s.

(** The package variable [textFormat] holds the verb %s, which the tests
    change to %q. *)
Inductive TextFormat : Set := FmtS | FmtQ.

(** A [*Tree]: nil or the address of a tree. *)
Abbreviation treePtr := (option nat).

Section Package.

Variable L : GoLib.
Variable textFormat : TextFormat.

Definition unicode_IsLetter (r : Z) : bool :=
  if r <? RuneSelf then ascii_letter r else unicode_IsLetter_hi L r.
Definition unicode_IsDigit (r : Z) : bool :=
  if r <? RuneSelf then ascii_digit r else unicode_IsDigit_hi L r.
Definition strconv_IsPrint (r : Z) : bool :=
  if r <? RuneSelf then (0x20 <=? r) && (r <? 0x7F) else strconv_IsPrint_hi L r.

Definition appendEscapedRune (r : Z) (bytes : string) : string :=
  if (r =? 34) || (r =? 92) then bslash +:+ bytes
  else if strconv_IsPrint r then bytes
  else if r =? 7 then bslash +:+ "a"
  else if r =? 8 then bslash +:+ "b"
  else if r =? 12 then bslash +:+ "f"
  else if r =? 10 then bslash +:+ "n"
  else if r =? 13 then bslash +:+ "r"
  else if r =? 9 then bslash +:+ "t"
  else if r =? 11 then bslash +:+ "v"
  else strconv_quote_other L bytes.

Fixpoint quote_body (fuel : nat) (s : string) : string :=
  match fuel with
  | O => EmptyString
  | S fuel' =>
      if len s =? 0 then EmptyString
      else
        let r0 := byte_at s 0 in
        let '(r, width) :=
          if RuneSelf <=? r0 then utf8_DecodeRuneInString s else (r0, 1) in
        (if (width =? 1) && (r =? RuneError) then bslash +:+ "x" +:+ hex2 r0
         else appendEscapedRune r (slice_to s width))
        +:+ quote_body fuel' (slice_from s width)
  end.

Definition strconv_Quote (s : string) : string :=
  dq +:+ quote_body (String.length s) s +:+ dq.

(** The verb %#U on a rune. *)
Definition fmt_U_sharp (r : Z) : string :=
  let u := if r <? 0 then r + 2 ^ 64 else r in
  "U+" +:+ pad_zeros 4 (hex_upper 16 u)
  +:+ (if (u <=? 0x10FFFF) && strconv_IsPrint u
       then " '" +:+ utf8_EncodeRune u +:+ "'" else EmptyString).

(** ** lex.go: items *)

Inductive itemType : Set :=
  | itemError | itemBool | itemEOF | itemIdentifier | itemText | itemNumber
  | itemCharConstant | itemStringConstant | itemSpace
  | _itemOperatorBeg
  | itemAdd | itemMinus | itemMultiply | itemDivide | itemLess | itemLessEq
  | itemGreater | itemGreaterEq | itemEq | itemNeq | itemDot | itemLowestPrecOpt
  | _itemOperatorEnd
  | itemLeftInterpolation | itemRightInterpolation | itemStartDirective
  | itemCloseDirective | itemEndDirective | itemLeftParen | itemRightParen
  | _itemDirectiveBeg
  | itemDirectiveInclude | itemDirectiveMacro | itemDirectiveIf
  | itemDirectiveElseif | itemDirectiveElse | itemDirectiveList | itemAs
  | _itemDirectiveEnd.

(** The value iota gives each constant. *)
Definition itemType_int (t : itemType) : Z :=
  match t with
  | itemError => 0 | itemBool => 1 | itemEOF => 2 | itemIdentifier => 3
  | itemText => 4 | itemNumber => 5 | itemCharConstant => 6
  | itemStringConstant => 7 | itemSpace => 8
  | _itemOperatorBeg => 9
  | itemAdd => 10 | itemMinus => 11 | itemMultiply => 12 | itemDivide => 13
  | itemLess => 14 | itemLessEq => 15 | itemGreater => 16 | itemGreaterEq => 17
  | itemEq => 18 | itemNeq => 19 | itemDot => 20 | itemLowestPrecOpt => 21
  | _itemOperatorEnd => 22
  | itemLeftInterpolation => 23 | itemRightInterpolation => 24
  | itemStartDirective => 25 | itemCloseDirective => 26 | itemEndDirective => 27
  | itemLeftParen => 28 | itemRightParen => 29
  | _itemDirectiveBeg => 30
  | itemDirectiveInclude => 31 | itemDirectiveMacro => 32 | itemDirectiveIf => 33
  | itemDirectiveElseif => 34 | itemDirectiveElse => 35 | itemDirectiveList => 36
  | itemAs => 37
  | _itemDirectiveEnd => 38
  end.

Definition itemType_eqb (a b : itemType) : bool := itemType_int a =? itemType_int b.
Definition itemType_gt (a b : itemType) : bool := itemType_int b <? itemType_int a.
Definition itemType_lt (a b : itemType) : bool := itemType_int a <? itemType_int b.

Record item : Set := mk_item {
  typ : itemType;  (* the type of this item *)
  pos : Z;         (* the starting position, in bytes, of this item *)
  val : string;    (* the value of this item, aka lexeme *)
  line : Z         (* the line number at the start of this item *)
}.

(** The zero value of [item], which a receive on the closed channel gives. *)
Definition item_zero : item := mk_item itemError 0 EmptyString 0.

Definition item_String (i : item) : string :=
  if itemType_eqb (typ i) itemEOF then "EOF"
  else if itemType_eqb (typ i) itemError then val i
  else if itemType_gt (typ i) _itemDirectiveBeg && itemType_lt (typ i) _itemDirectiveEnd
  then "<" +:+ val i +:+ ">"
  else if itemType_gt (typ i) _itemOperatorBeg && itemType_lt (typ i) _itemOperatorEnd
  then "[" +:+ val i +:+ "]"
  else if 10 <? len (val i) then strconv_Quote (fmt_prec_s 10 (val i)) +:+ "..."
  else strconv_Quote (val i).

Definition LowestPrec : Z := 0.
Definition UnaryPrec : Z := 6.
Definition HighestPrec : Z := 7.

Definition precedence (i : item) : Z :=
  match typ i with
  | itemLowestPrecOpt => LowestPrec
  | itemEq | itemNeq | itemLess | itemLessEq => 3
  | itemAdd | itemMinus => 4
  | itemMultiply | itemDivide => 5
  | itemDot => 6
  | _ => LowestPrec
  end.

(** The map [itemName]; a missing key gives the empty string. *)
Definition itemName (t : itemType) : string :=
  match t with
  | itemError => "error" | itemBool => "bool" | itemEOF => "EOF"
  | itemIdentifier => "identifier" | itemEq => "==" | itemNeq => "!="
  | itemAdd => "+" | itemMinus => "-" | itemMultiply => "*" | itemDivide => "/"
  | itemLess => "<" | itemLessEq => "<=" | itemDot => "."
  | itemCharConstant => "char" | itemStringConstant => "string"
  | itemNumber => "number" | itemLeftParen => "(" | itemRightParen => ")"
  | itemSpace => "space" | itemText => "text"
  | itemDirectiveIf => "if" | itemDirectiveElseif => "elseif"
  | itemDirectiveElse => "else" | itemDirectiveList => "list"
  | _ => EmptyString
  end.

Definition itemType_String (t : itemType) : string :=
  let s := itemName t in
  if String.eqb s EmptyString then "item" +:+ itoa (itemType_int t) else s.

(** The maps [directives] and [comparators]; a missing key gives the zero
    value [itemError]. *)
Definition directives (word : string) : itemType :=
  if String.eqb word "include" then itemDirectiveInclude
  else if String.eqb word "macro" then itemDirectiveMacro
  else if String.eqb word "if" then itemDirectiveIf
  else if String.eqb word "elseif" then itemDirectiveElseif
  else if String.eqb word "else" then itemDirectiveElse
  else if String.eqb word "list" then itemDirectiveList
  else if String.eqb word "as" then itemAs
  else itemError.

Definition comparators (word : string) : itemType :=
  if String.eqb word "gt" then itemGreater
  else if String.eqb word "gte" then itemGreaterEq
  else itemError.

Definition eof : Z := -1.

(** ** lex.go: the scanner *)

(** [stateFn]: the state functions of the scanner, by name. *)
Inductive stateFn : Set :=
  | lexText_ | lexInterpolation_ | lexComment_ | lexExpression_ | lexDirective_
  | lexSpace_ | lexIdentifier_ | lexComparator_ | lexChar_ | lexString_
  | lexNumber_.

(** [items] is the channel: what was sent and not yet received.  The
    scanner runs in a goroutine of its own and blocks on each send; no
    state is shared with the receiver, so the sequence received is the
    sequence sent. *)
Record lexer : Set := mk_lexer {
  lx_name : string;       (* the name of the input; used only for error reports *)
  lx_input : string;      (* the string being scanned *)
  lx_pos : Z;             (* current position in the input *)
  lx_start : Z;           (* start position of this item *)
  lx_width : Z;           (* width of last rune read from input *)
  lx_lastPos : Z;         (* position of most recent item returned by nextItem *)
  lx_items : list item;   (* channel of scanned items *)
  lx_parenDepth : Z;      (* nesting depth of ( ) exprs *)
  lx_line : Z             (* 1+number of newlines seen *)
}.

Definition set_pos (v : Z) (l : lexer) : lexer :=
  mk_lexer (lx_name l) (lx_input l) v (lx_start l) (lx_width l) (lx_lastPos l)
           (lx_items l) (lx_parenDepth l) (lx_line l).
Definition set_start (v : Z) (l : lexer) : lexer :=
  mk_lexer (lx_name l) (lx_input l) (lx_pos l) v (lx_width l) (lx_lastPos l)
           (lx_items l) (lx_parenDepth l) (lx_line l).
Definition set_width (v : Z) (l : lexer) : lexer :=
  mk_lexer (lx_name l) (lx_input l) (lx_pos l) (lx_start l) v (lx_lastPos l)
           (lx_items l) (lx_parenDepth l) (lx_line l).
Definition set_lastPos (v : Z) (l : lexer) : lexer :=
  mk_lexer (lx_name l) (lx_input l) (lx_pos l) (lx_start l) (lx_width l) v
           (lx_items l) (lx_parenDepth l) (lx_line l).
Definition set_items (v : list item) (l : lexer) : lexer :=
  mk_lexer (lx_name l) (lx_input l) (lx_pos l) (lx_start l) (lx_width l)
           (lx_lastPos l) v (lx_parenDepth l) (lx_line l).
Definition set_parenDepth (v : Z) (l : lexer) : lexer :=
  mk_lexer (lx_name l) (lx_input l) (lx_pos l) (lx_start l) (lx_width l)
           (lx_lastPos l) (lx_items l) v (lx_line l).
Definition set_line (v : Z) (l : lexer) : lexer :=
  mk_lexer (lx_name l) (lx_input l) (lx_pos l) (lx_start l) (lx_width l)
           (lx_lastPos l) (lx_items l) (lx_parenDepth l) v.

(** next returns the next rune in the input. *)
Definition next (l : lexer) : Z * lexer :=
  if len (lx_input l) <=? lx_pos l then (eof, set_width 0 l)
  else
    let '(r, w) := utf8_DecodeRuneInString (slice_from (lx_input l) (lx_pos l)) in
    let l := set_width w l in
    let l := set_pos (lx_pos l + lx_width l) l in
    let l := if r =? 10 then set_line (lx_line l + 1) l else l in
    (r, l).

(** backup steps back one rune. *)
Definition backup (l : lexer) : lexer :=
  let l := set_pos (lx_pos l - lx_width l) l in
  if (lx_width l =? 1) && (byte_at (lx_input l) (lx_pos l) =? 10)
  then set_line (lx_line l - 1) l else l.

(** peek returns but does not consume the next rune in the input. *)
Definition peek (l : lexer) : Z * lexer :=
  let '(r, l) := next l in (r, backup l).

(** emit passes an item back to the client. *)
Definition emit (t : itemType) (l : lexer) : lexer :=
  let l := set_items
             (lx_items l ++
              [mk_item t (lx_start l) (slice (lx_input l) (lx_start l) (lx_pos l))
                       (lx_line l)]) l in
  set_start (lx_pos l) l.

(** ignore skips over the pending input before this point. *)
Definition ignore (l : lexer) : lexer := set_start (lx_pos l) l.

(** accept consumes the next rune if it is from the valid set. *)
Definition accept (valid : string) (l : lexer) : bool * lexer :=
  let '(r, l) := next l in
  if strings_ContainsRune valid r then (true, l) else (false, backup l).

(** The loops of the scanner read at least one byte in every round, so
    they end within [S (length input)] rounds; a loop that is given fewer
    rounds than it needs yields [None]. *)
Fixpoint acceptRun_loop (fuel : nat) (valid : string) (l : lexer) : option lexer :=
  match fuel with
  | O => None
  | S fuel' =>
      let '(r, l) := next l in
      if strings_ContainsRune valid r then acceptRun_loop fuel' valid l
      else Some (backup l)
  end.

Definition loop_fuel (l : lexer) : nat := S (String.length (lx_input l)).

(** acceptRun consumes a run of runes from the valid set. *)
Definition acceptRun (valid : string) (l : lexer) : option lexer :=
  acceptRun_loop (loop_fuel l) valid l.

(** errorf sends an error token and ends the scan: the next state is nil. *)
Definition errorf (msg : string) (l : lexer) : lexer * option stateFn :=
  (set_items (lx_items l ++ [mk_item itemError (lx_start l) msg (lx_line l)]) l,
   None).

Definition leftInterpolation : string := "${".
Definition rightInterpolation : string := "}".
Definition leftComment : string := "<#--".
Definition rightComment : string := "-->".
Definition startDirective : string := "<#".
Definition endDirective : string := "</#".
Definition closeDirective : string := ">".

Definition isSpace (r : Z) : bool := (r =? 32) || (r =? 9).
Definition isEndOfLine (r : Z) : bool := (r =? 13) || (r =? 10).
Definition isAlphaNumeric (r : Z) : bool :=
  (r =? 95) || unicode_IsLetter r || unicode_IsDigit r.

(** lexText scans until an opening interpolation, comment or directive. *)
Definition lexText (l : lexer) : lexer * option stateFn :=
  let l := set_width 0 l in
  let x := strings_Index (slice_from (lx_input l) (lx_pos l)) leftInterpolation in
  if 0 <=? x then
    let l := set_pos (lx_pos l + x) l in
    let l := if lx_start l <? lx_pos l then emit itemText l else l in
    (l, Some lexInterpolation_)
  else
  let x := strings_Index (slice_from (lx_input l) (lx_pos l)) leftComment in
  if 0 <=? x then
    let l := set_pos (lx_pos l + x) l in
    let l := if lx_start l <? lx_pos l then emit itemText l else l in
    (l, Some lexComment_)
  else
  let x := strings_Index (slice_from (lx_input l) (lx_pos l)) startDirective in
  if 0 <=? x then
    let l := set_pos (lx_pos l + x) l in
    let l := if lx_start l <? lx_pos l then emit itemText l else l in
    (l, Some lexDirective_)
  else
  let x := strings_Index (slice_from (lx_input l) (lx_pos l)) endDirective in
  if 0 <=? x then
    let l := set_pos (lx_pos l + x) l in
    let l := if lx_start l <? lx_pos l then emit itemText l else l in
    (l, Some lexDirective_)
  else
  let l := set_pos (len (lx_input l)) l in
  (* Correctly reached EOF. *)
  let l := if lx_start l <? lx_pos l then emit itemText l else l in
  let l := emit itemEOF l in
  (l, None).

(** lexInterpolation scans the opening of an interpolation. *)
Definition lexInterpolation (l : lexer) : lexer * option stateFn :=
  let l := set_pos (lx_pos l + len leftInterpolation) l in
  let l := emit itemLeftInterpolation l in
  (l, Some lexExpression_).

(** lexComment scans a comment; the whole of it is skipped. *)
Definition lexComment (l : lexer) : lexer * option stateFn :=
  let l := set_pos (lx_pos l + len leftComment) l in
  let i := strings_Index (slice_from (lx_input l) (lx_pos l)) rightComment in
  if i <? 0 then errorf "unclosed comment" l
  else
    let l := set_pos (lx_pos l + (i + len rightComment)) l in
    let l := ignore l in
    (l, Some lexText_).

(** lexExpression scans the expression inside an interpolation or a
    directive. *)
Definition lexExpression (l : lexer) : lexer * option stateFn :=
  let '(r, l) := next l in
  let number (l : lexer) := (backup l, Some lexNumber_) in
  if (r =? eof) || isEndOfLine r then errorf "unclosed directive" l
  else if isSpace r then (l, Some lexSpace_)
  else if r =? 46 then
    (* special look-ahead for ".field" *)
    if (lx_pos l <? len (lx_input l))
       && (let r := byte_at (lx_input l) (lx_pos l) in (r <? 48) || (57 <? r))
    then (emit itemDot l, Some lexDirective_)
    else number l (* fallthrough: '.' can start a number *)
  else if (48 <=? r) && (r <=? 57) then number l
  else if r =? 34 then (l, Some lexString_)
  else if r =? 39 then (l, Some lexChar_)
  else if (r =? 33) || (r =? 61) || (r =? 60) then (backup l, Some lexComparator_)
  else if isAlphaNumeric r then (backup l, Some lexIdentifier_)
  else if r =? 40 then
    let l := emit itemLeftParen l in
    (set_parenDepth (lx_parenDepth l + 1) l, Some lexExpression_)
  else if r =? 41 then
    let l := emit itemRightParen l in
    let l := set_parenDepth (lx_parenDepth l - 1) l in
    if lx_parenDepth l <? 0
    then errorf ("unexpected right paren " +:+ fmt_U_sharp r) l
    else (l, Some lexExpression_)
  else if r =? 62 then (emit itemCloseDirective l, Some lexText_)
  else if r =? 125 then (emit itemRightInterpolation l, Some lexText_)
  else errorf ("unrecognized character in action: " +:+ fmt_U_sharp r) l.

(** lexDirective scans the directive inside FTL tags. *)
Definition lexDirective (l : lexer) : lexer * option stateFn :=
  let l :=
    if strings_HasPrefix (slice_from (lx_input l) (lx_pos l)) startDirective
    then emit itemStartDirective (set_pos (lx_pos l + len startDirective) l)
    else l in
  let l :=
    if strings_HasPrefix (slice_from (lx_input l) (lx_pos l)) endDirective
    then emit itemEndDirective (set_pos (lx_pos l + len endDirective) l)
    else l in
  (l, Some lexExpression_).

Fixpoint lexSpace_loop (fuel : nat) (l : lexer) : option lexer :=
  match fuel with
  | O => None
  | S fuel' =>
      let '(r, l) := peek l in
      if isSpace r then lexSpace_loop fuel' (snd (next l)) else Some l
  end.

(** lexSpace scans a run of space characters. *)
Definition lexSpace (l : lexer) : option (lexer * option stateFn) :=
  l ← lexSpace_loop (loop_fuel l) l;
  Some (emit itemSpace l, Some lexDirective_).

(** atTerminator reports whether the input is at a valid termination
    character to appear after an identifier. *)
Definition atTerminator (l : lexer) : bool * lexer :=
  let '(r, l) := peek l in
  if isSpace r || isEndOfLine r then (true, l)
  else if (r =? eof) || (r =? 46) || (r =? 44) || (r =? 124) || (r =? 58)
          || (r =? 41) || (r =? 40) || (r =? 62) || (r =? 125)
  then (true, l)
  else (false, l).

Fixpoint lexIdentifier_loop (fuel : nat) (l : lexer) : option (lexer * option stateFn) :=
  match fuel with
  | O => None
  | S fuel' =>
      let '(r, l) := next l in
      if isAlphaNumeric r then lexIdentifier_loop fuel' l (* absorb. *)
      else
        let l := backup l in
        let word := slice (lx_input l) (lx_start l) (lx_pos l) in
        let '(ok, l) := atTerminator l in
        if negb ok then Some (errorf ("bad character " +:+ fmt_U_sharp r) l)
        else
          let l :=
            if itemType_gt (directives word) _itemDirectiveBeg
               && itemType_lt (directives word) _itemDirectiveEnd
            then emit (directives word) l
            else if itemType_gt (comparators word) _itemOperatorBeg
                    && itemType_lt (comparators word) _itemOperatorEnd
            then emit (comparators word) l
            else if String.eqb word "true" || String.eqb word "false"
            then emit itemBool l
            else emit itemIdentifier l in
          Some (l, Some lexDirective_)
  end.

(** lexIdentifier scans an alphanumeric. *)
Definition lexIdentifier (l : lexer) : option (lexer * option stateFn) :=
  lexIdentifier_loop (loop_fuel l) l.

(** lexComparator scans a comparator. *)
Definition lexComparator (l : lexer) : lexer * option stateFn :=
  let '(comparatorStart, l) := next l in
  let '(r, l) := peek l in
  if negb (r =? 61) && negb (r =? 32)
  then errorf ("unexpected comparator " +:+ fmt_U_sharp r) l
  else
    let '(second, l) := if r =? 61 then (true, snd (next l)) else (false, l) in
    let l :=
      if second then
        if comparatorStart =? 61 then emit itemEq l
        else if comparatorStart =? 33 then emit itemNeq l
        else if comparatorStart =? 60 then emit itemLessEq l
        else l
      else
        if comparatorStart =? 60 then emit itemLess l else l in
    (l, Some lexDirective_).

(** The loop shared by lexChar and lexString; [q] is the closing quote.
    The result is [false] when the constant is not terminated. *)
Fixpoint lexQuoted_loop (fuel : nat) (q : Z) (l : lexer) : option (bool * lexer) :=
  match fuel with
  | O => None
  | S fuel' =>
      let '(r, l) := next l in
      if r =? 92 then
        let '(r2, l) := next l in
        if negb (r2 =? eof) && negb (r2 =? 10) then lexQuoted_loop fuel' q l
        else Some (false, l)
      else if (r =? eof) || (r =? 10) then Some (false, l)
      else if r =? q then Some (true, l)
      else lexQuoted_loop fuel' q l
  end.

(** lexChar scans a character constant. *)
Definition lexChar (l : lexer) : option (lexer * option stateFn) :=
  match lexQuoted_loop (loop_fuel l) 39 l with
  | None => None
  | Some (true, l) => Some (emit itemCharConstant l, Some lexDirective_)
  | Some (false, l) => Some (errorf "unterminated character constant" l)
  end.

(** lexString scans a string constant. *)
Definition lexString (l : lexer) : option (lexer * option stateFn) :=
  match lexQuoted_loop (loop_fuel l) 34 l with
  | None => None
  | Some (true, l) => Some (emit itemStringConstant l, Some lexDirective_)
  | Some (false, l) => Some (errorf "unterminated character constant" l)
  end.

Definition scanNumber (l : lexer) : option (bool * lexer) :=
  (* Optional leading sign. *)
  let '(_, l) := accept "+-" l in
  (* Is it hex? *)
  let '(z, l) := accept "0" l in
  let '(hex, l) := if z then accept "xX" l else (false, l) in
  let digits := if hex then "0123456789abcdefABCDEF" else "0123456789" in
  l ← acceptRun digits l;
  let '(dot, l) := accept "." l in
  l ← (if dot then acceptRun digits l else Some l);
  let '(e, l) := accept "eE" l in
  l ← (if e then acceptRun "0123456789" (snd (accept "+-" l)) else Some l);
  (* Is it imaginary? *)
  let '(_, l) := accept "i" l in
  (* Next thing must not be alphanumeric. *)
  let '(r, l) := peek l in
  if isAlphaNumeric r then Some (false, snd (next l)) else Some (true, l).

(** lexNumber scans a number: decimal, octal, hex, float, or imaginary. *)
Definition lexNumber (l : lexer) : option (lexer * option stateFn) :=
  let bad (l : lexer) :=
    errorf ("bad number syntax: "
            +:+ strconv_Quote (slice (lx_input l) (lx_start l) (lx_pos l))) l in
  match scanNumber l with
  | None => None
  | Some (false, l) => Some (bad l)
  | Some (true, l) =>
      let '(sign, l) := peek l in
      if (sign =? 43) || (sign =? 45) then
        (* Complex: 1+2i. No spaces, must end in i. *)
        match scanNumber l with
        | None => None
        | Some (ok, l) =>
            if negb ok || negb (byte_at (lx_input l) (lx_pos l - 1) =? 105)
            then Some (bad l)
            else Some (l, Some lexDirective_)
        end
      else Some (emit itemNumber l, Some lexDirective_)
  end.

(** One call of the state function [f]. *)
Definition state_call (f : stateFn) (l : lexer) : option (lexer * option stateFn) :=
  match f with
  | lexText_ => Some (lexText l)
  | lexInterpolation_ => Some (lexInterpolation l)
  | lexComment_ => Some (lexComment l)
  | lexExpression_ => Some (lexExpression l)
  | lexDirective_ => Some (lexDirective l)
  | lexSpace_ => lexSpace l
  | lexIdentifier_ => lexIdentifier l
  | lexComparator_ => Some (lexComparator l)
  | lexChar_ => lexChar l
  | lexString_ => lexString l
  | lexNumber_ => lexNumber l
  end.

(** run runs the state machine for the lexer, from [state] on, until the
    state is nil; [None] when [fuel] calls were not enough. *)
Fixpoint run_from (fuel : nat) (state : stateFn) (l : lexer) : option lexer :=
  match fuel with
  | O => None
  | S fuel' =>
      match state_call state l with
      | None => None
      | Some (l, Some state') => run_from fuel' state' l
      | Some (l, None) => Some l
      end
  end.

(** Every call other than those of lexText, lexDirective and
    lexExpression reads input, and these three do not follow one another
    more than three times without reading. *)
Definition run_fuel (input : string) : nat := (8 + 4 * String.length input)%nat.

Definition run (l : lexer) : option lexer := run_from (run_fuel (lx_input l)) lexText_ l.

(** lex creates a new scanner for the input string; the scanner has run
    and its items wait in the channel. *)
Definition lex (name input : string) : option lexer :=
  run (mk_lexer name input 0 0 0 0 [] 0 1).

(** nextItem returns the next item from the input; the channel is closed
    after the last item, and a closed channel gives the zero item. *)
Definition nextItem (l : lexer) : item * lexer :=
  match lx_items l with
  | i :: rest => (i, set_lastPos (pos i) (set_items rest l))
  | [] => (item_zero, set_lastPos (pos item_zero) l)
  end.

(** drain drains the output so the lexing goroutine will exit. *)
Definition drain (l : lexer) : lexer := set_items [] l.

(** ** node.go: the nodes of the parse tree *)

Inductive NodeType : Set :=
  | NodeText        (* plain text *)
  | NodeIf          (* if directive *)
  | NodeBool        (* boolean constant *)
  | NodeChain       (* sequence of field accesses *)
  | NodeExpression  (* expression *)
  | nodeElse        (* else action. Not added to tree *)
  | nodeEnd         (* end action. Not added to tree *)
  | NodeIdentifier  (* identifier *)
  | NodeContent     (* list of Nodes *)
  | NodeNil         (* untyped nil constant *)
  | NodeNumber      (* numerical constant *)
  | NodeList        (* list directive *)
  | NodeString      (* string constant *)
  | NodeTemplate    (* template invocation action *)
  | NodeVariable.   (* $ variable *)

Definition NodeType_eqb (a b : NodeType) : bool :=
  match a, b with
  | NodeText, NodeText | NodeIf, NodeIf | NodeBool, NodeBool
  | NodeChain, NodeChain | NodeExpression, NodeExpression
  | nodeElse, nodeElse | nodeEnd, nodeEnd | NodeIdentifier, NodeIdentifier
  | NodeContent, NodeContent | NodeNil, NodeNil | NodeNumber, NodeNumber
  | NodeList, NodeList | NodeString, NodeString | NodeTemplate, NodeTemplate
  | NodeVariable, NodeVariable => true
  | _, _ => false
  end.

(** The struct [ContentNode], over the type of its elements. *)
Record ContentOf (N : Type) : Type := mk_content {
  c_NodeType : NodeType;
  c_Pos : Z;
  c_tr : treePtr;
  c_Nodes : list N  (* element nodes in lexical order *)
}.
Arguments mk_content {N}.
Arguments c_NodeType {N}.
Arguments c_Pos {N}.
Arguments c_tr {N}.
Arguments c_Nodes {N}.

(** The struct [ExpressionNode], over the type of its elements. *)
Record ExpressionOf (N : Type) : Type := mk_expression {
  e_NodeType : NodeType;
  e_Pos : Z;
  e_tr : treePtr;
  e_operator : itemType;
  e_Nodes : list N  (* almost two nodes in case of binary expression *)
}.
Arguments mk_expression {N}.
Arguments e_NodeType {N}.
Arguments e_Pos {N}.
Arguments e_tr {N}.
Arguments e_operator {N}.
Arguments e_Nodes {N}.

(** The struct [NumberNode]. *)
Record NumberNode : Type := mk_number {
  n_NodeType : NodeType;
  n_Pos : Z;
  n_tr : treePtr;
  IsInt : bool;      (* Number has an integral value. *)
  IsUint : bool;     (* Number has an unsigned integral value. *)
  IsFloat : bool;    (* Number has a floating-point value. *)
  IsComplex : bool;  (* Number is complex. *)
  Int64 : Z;         (* The signed integer value. *)
  Uint64 : Z;        (* The unsigned integer value. *)
  Float64 : float64 L;                 (* The floating-point value. *)
  Complex128 : float64 L * float64 L;  (* The complex value. *)
  n_Text : string    (* The original textual representation from the input. *)
}.

#[local] Set Warnings "-register-all".

(** A non-nil value of the interface [Node]: a pointer to one of the node
    structs.  The fields of type [*ExpressionNode] and [*ContentNode] may
    be nil.  A ChainNode is not built anywhere in the package; its term is
    taken to be there. *)
Inductive Node : Type :=
  | NContent (c : ContentOf Node)
  | NText (nt : NodeType) (p : Z) (tr : treePtr) (Text : string)
  | NExpression (e : ExpressionOf Node)
  | NIdentifier (nt : NodeType) (p : Z) (tr : treePtr) (Ident : string)
  | NVariable (nt : NodeType) (p : Z) (tr : treePtr) (Ident : list string)
  | NNil (nt : NodeType) (p : Z) (tr : treePtr)
  | NChain (nt : NodeType) (p : Z) (tr : treePtr) (node : Node) (Field : list string)
  | NBool (nt : NodeType) (p : Z) (tr : treePtr) (True : bool)
  | NNumber (n : NumberNode)
  | NString (nt : NodeType) (p : Z) (tr : treePtr) (Text : string)
  | NEnd (nt : NodeType) (p : Z) (tr : treePtr) (identifier : string)
  | NElse (nt : NodeType) (p : Z) (tr : treePtr)
  | NIf (nt : NodeType) (p : Z) (tr : treePtr)
        (Expr : option (ExpressionOf Node))
        (Content ElseContent : option (ContentOf Node))
  | NList (nt : NodeType) (p : Z) (tr : treePtr)
          (Expr : option (ExpressionOf Node))
          (Content ElseContent : option (ContentOf Node)).

Definition ContentNode : Type := ContentOf Node.
Definition ExpressionNode : Type := ExpressionOf Node.

(** The constructors of the package; [t] is the tree that makes the node. *)
Definition newContent (t : treePtr) (p : Z) : ContentNode :=
  mk_content NodeContent p t [].
Definition newText (t : treePtr) (p : Z) (text : string) : Node :=
  NText NodeText p t text.
Definition newExpression (t : treePtr) (p : Z) (optr : itemType) : ExpressionNode :=
  mk_expression NodeExpression p t optr [].
Definition newIdentifier (t : treePtr) (p : Z) (ident : string) : Node :=
  NIdentifier NodeIdentifier p t ident.
Definition newNil (t : treePtr) (p : Z) : Node := NNil NodeNil p t.
Definition newBool (t : treePtr) (p : Z) (b : bool) : Node := NBool NodeBool p t b.
Definition newString (t : treePtr) (p : Z) (text : string) : Node :=
  NString NodeString p t text.
Definition newEnd (t : treePtr) (p : Z) (iden : string) : Node := NEnd nodeEnd p t iden.
Definition newElse (t : treePtr) (p : Z) : Node := NElse nodeElse p t.
Definition newIf (t : treePtr) (p : Z) (expr : option ExpressionNode)
    (content elseContent : option ContentNode) : Node :=
  NIf NodeIf p t expr content elseContent.
Definition newList (t : treePtr) (p : Z) (expr : option ExpressionNode)
    (content elseContent : option ContentNode) : Node :=
  NList NodeList p t expr content elseContent.

Definition content_append (c : ContentNode) (n : Node) : ContentNode :=
  mk_content (c_NodeType c) (c_Pos c) (c_tr c) (c_Nodes c ++ [n]).
Definition expression_append (e : ExpressionNode) (n : Node) : ExpressionNode :=
  mk_expression (e_NodeType e) (e_Pos e) (e_tr e) (e_operator e) (e_Nodes e ++ [n]).

(** [Type()]: the embedded NodeType, which NilNode and elseNode override. *)
Definition Node_Type (n : Node) : NodeType :=
  match n with
  | NContent c => c_NodeType c
  | NText nt _ _ _ => nt
  | NExpression e => e_NodeType e
  | NIdentifier nt _ _ _ => nt
  | NVariable nt _ _ _ => nt
  | NNil _ _ _ => NodeNil
  | NChain nt _ _ _ _ => nt
  | NBool nt _ _ _ => nt
  | NNumber n => n_NodeType n
  | NString nt _ _ _ => nt
  | NEnd nt _ _ _ => nt
  | NElse _ _ _ => nodeElse
  | NIf nt _ _ _ _ _ => nt
  | NList nt _ _ _ _ _ => nt
  end.

(** [Position()] and [tree()]. *)
Definition Node_Position (n : Node) : Z :=
  match n with
  | NContent c => c_Pos c
  | NExpression e => e_Pos e
  | NNumber n => n_Pos n
  | NText _ p _ _ | NIdentifier _ p _ _ | NVariable _ p _ _ | NNil _ p _
  | NChain _ p _ _ _ | NBool _ p _ _ | NString _ p _ _ | NEnd _ p _ _
  | NElse _ p _ | NIf _ p _ _ _ _ | NList _ p _ _ _ _ => p
  end.

Definition Node_tree (n : Node) : treePtr :=
  match n with
  | NContent c => c_tr c
  | NExpression e => e_tr e
  | NNumber n => n_tr n
  | NText _ _ tr _ | NIdentifier _ _ tr _ | NVariable _ _ tr _ | NNil _ _ tr
  | NChain _ _ tr _ _ | NBool _ _ tr _ | NString _ _ tr _ | NEnd _ _ tr _
  | NElse _ _ tr | NIf _ _ tr _ _ _ | NList _ _ tr _ _ _ => tr
  end.

Definition is_expression (n : Node) : bool :=
  match n with NExpression _ => true | _ => false end.

(** What the verb %s prints for a nil pointer whose String method cannot
    run. *)
Definition nilAngleString : string := "<nil>".

(** [String()] of every node. *)
Fixpoint Node_String (n : Node) : string :=
  let content (c : ContentOf Node) : string :=
    String.concat EmptyString (map Node_String (c_Nodes c)) in
  let expression (e : ExpressionOf Node) : string :=
    String.concat (itemType_String (e_operator e))
      (map (fun node =>
              if is_expression node then "(" +:+ Node_String node +:+ ")"
              else Node_String node) (e_Nodes e)) in
  let opt_expression (e : option (ExpressionOf Node)) : string :=
    match e with Some e => expression e | None => nilAngleString end in
  let opt_content (c : option (ContentOf Node)) : string :=
    match c with Some c => content c | None => nilAngleString end in
  match n with
  | NContent c => content c
  | NText _ _ _ text =>
      match textFormat with FmtS => text | FmtQ => strconv_Quote text end
  | NExpression e => expression e
  | NIdentifier _ _ _ ident => ident
  | NVariable _ _ _ idents => String.concat "." idents
  | NNil _ _ _ => "nil"
  | NChain _ _ _ node fields =>
      let s := Node_String node in
      let s := if is_expression node then "(" +:+ s +:+ ")" else s in
      s +:+ String.concat EmptyString (map (fun field => "." +:+ field) fields)
  | NBool _ _ _ b => if b then "true" else "false"
  | NNumber n => n_Text n
  | NString _ _ _ text => text
  | NEnd _ _ _ identifier => "</#" +:+ identifier +:+ ">"
  | NElse _ _ _ => "{{else}}"
  | NIf _ _ _ expr content _ =>
      "<#if " +:+ opt_expression expr +:+ ">" +:+ opt_content content +:+ "</#if>"
  | NList _ _ _ expr content _ =>
      "<#list " +:+ opt_expression expr +:+ ">" +:+ opt_content content +:+ "</#list>"
  end.

Definition ContentNode_String (c : ContentNode) : string := Node_String (NContent c).
Definition ExpressionNode_String (e : ExpressionNode) : string :=
  Node_String (NExpression e).

(** [Copy()] of every node, with CopyContent and CopyExpr. *)
Fixpoint Node_Copy (n : Node) : Node :=
  let CopyContent (c : ContentOf Node) : ContentOf Node :=
    mk_content NodeContent (c_Pos c) (c_tr c) (map Node_Copy (c_Nodes c)) in
  let CopyExpr (e : ExpressionOf Node) : ExpressionOf Node :=
    mk_expression NodeExpression (e_Pos e) (e_tr e) (e_operator e)
                  (map Node_Copy (e_Nodes e)) in
  match n with
  | NContent c => NContent (CopyContent c)
  | NText _ p tr text => NText NodeText p tr text
  | NExpression e => NExpression (CopyExpr e)
  | NIdentifier nt p tr ident => NIdentifier nt p tr ident
  | NVariable _ p tr idents => NVariable NodeVariable p tr idents
  | NNil _ p tr => newNil tr p
  | NChain _ p tr node fields => NChain NodeChain p tr node fields
  | NBool _ p tr b => newBool tr p b
  | NNumber n => NNumber n
  | NString _ p tr text => newString tr p text
  | NEnd _ p tr identifier => newEnd tr p identifier
  | NElse _ p tr => newElse tr p
  | NIf _ p tr expr content elseContent =>
      newIf tr p (option_map CopyExpr expr) (option_map CopyContent content)
            (option_map CopyContent elseContent)
  | NList _ p tr expr content elseContent =>
      newList tr p (option_map CopyExpr expr) (option_map CopyContent content)
              (option_map CopyContent elseContent)
  end.

Definition CopyContent (c : option ContentNode) : option ContentNode :=
  option_map (fun c => mk_content NodeContent (c_Pos c) (c_tr c)
                                  (map Node_Copy (c_Nodes c))) c.
Definition CopyExpr (e : option ExpressionNode) : option ExpressionNode :=
  option_map (fun e => mk_expression NodeExpression (e_Pos e) (e_tr e) (e_operator e)
                                     (map Node_Copy (e_Nodes e))) e.

(** ** parse.go: the tree and its parser *)

(** What a call can end in besides a result: the error that errorf
    raises, which recover turns into the error that Parse returns, and a
    panic that is not an error of the parser, which leaves Parse as a
    panic. *)
Record parse_error : Set := mk_error {
  err_ParseName : string;  (* the template the message names *)
  err_line : Z;            (* the line the message names *)
  err_text : string        (* the message after the line *)
}.

(** The text of the error, for a template name without a verb in it
    (errorf formats the name into the format it then formats). *)
Definition Error (e : parse_error) : string :=
  "template: " +:+ err_ParseName e +:+ ":" +:+ itoa (err_line e) +:+ ": " +:+ err_text e.

Inductive panic_value : Set :=
  | runtime_Error (what : string)  (* nil dereference, failed type assertion, index out of range *)
  | panic_string (s : string).     (* panic called on a string *)

(** Tree is the representation of a single parsed template.  The map
    [treeSet] is shared with the caller of Parse; while the tree holds it,
    the field has its content. *)
Record Tree : Type := mk_Tree {
  Name : string;       (* name of the template represented by the tree *)
  ParseName : string;  (* name of the top-level template during parsing *)
  Root : option ContentNode;  (* top-level root of the tree *)
  text : string;       (* text parsed to create the template (or its parent) *)
  t_lex : option lexer;
  token : item * item * item;  (* three-token lookahead for parser *)
  peekCount : Z;
  treeSet : option (gmap string treePtr)
}.

Definition set_ParseName (v : string) (t : Tree) : Tree :=
  mk_Tree (Name t) v (Root t) (text t) (t_lex t) (token t) (peekCount t) (treeSet t).
Definition set_Root (v : option ContentNode) (t : Tree) : Tree :=
  mk_Tree (Name t) (ParseName t) v (text t) (t_lex t) (token t) (peekCount t) (treeSet t).
Definition set_text (v : string) (t : Tree) : Tree :=
  mk_Tree (Name t) (ParseName t) (Root t) v (t_lex t) (token t) (peekCount t) (treeSet t).
Definition set_lex (v : option lexer) (t : Tree) : Tree :=
  mk_Tree (Name t) (ParseName t) (Root t) (text t) v (token t) (peekCount t) (treeSet t).
Definition set_token (v : item * item * item) (t : Tree) : Tree :=
  mk_Tree (Name t) (ParseName t) (Root t) (text t) (t_lex t) v (peekCount t) (treeSet t).
Definition set_peekCount (v : Z) (t : Tree) : Tree :=
  mk_Tree (Name t) (ParseName t) (Root t) (text t) (t_lex t) (token t) v (treeSet t).
Definition set_treeSet (v : option (gmap string treePtr)) (t : Tree) : Tree :=
  mk_Tree (Name t) (ParseName t) (Root t) (text t) (t_lex t) (token t) (peekCount t) v.

(** [t.token[i]] and [t.token[i] = v]; nothing when [i] is out of range. *)
Definition token_get (t : Tree) (i : Z) : option item :=
  let '(t0, t1, t2) := token t in
  if i =? 0 then Some t0 else if i =? 1 then Some t1 else if i =? 2 then Some t2
  else None.
Definition token_set (i : Z) (v : item) (t : Tree) : Tree :=
  let '(t0, t1, t2) := token t in
  if i =? 0 then set_token (v, t1, t2) t
  else if i =? 1 then set_token (t0, v, t2) t
  else if i =? 2 then set_token (t0, t1, v) t
  else t.

(** New allocates a new parse tree with the given name. *)
Definition New (name : string) : Tree :=
  mk_Tree name EmptyString None EmptyString None (item_zero, item_zero, item_zero) 0 None.

(** Copy returns a copy of the Tree. Any parsing state is discarded. *)
Definition Tree_Copy (t : Tree) : Tree :=
  mk_Tree (Name t) (ParseName t) (CopyContent (Root t)) (text t) None
          (item_zero, item_zero, item_zero) 0 None.

(** The result of a call: how it ended and the tree as the call left it. *)
Inductive res (A : Type) : Type :=
  | Ok (a : A) (t : Tree)
  | Raised (e : parse_error) (t : Tree)  (* panic with the error of errorf *)
  | Panicked (p : panic_value)           (* any other panic *)
  | NoFuel.                              (* the bound on the calls was too small *)
Arguments Ok {A}.
Arguments Raised {A}.
Arguments Panicked {A}.
Arguments NoFuel {A}.

Definition bind {A B : Type} (m : res A) (k : A -> Tree -> res B) : res B :=
  match m with
  | Ok a t => k a t
  | Raised e t => Raised e t
  | Panicked p => Panicked p
  | NoFuel => NoFuel
  end.

Notation "'do' ( x , t ) <- m ; k" := (bind m (fun x t => k))
  (at level 10, x name, t name, m at level 100, k at level 200).

Definition nil_deref {A : Type} : res A :=
  Panicked (runtime_Error "invalid memory address or nil pointer dereference").
Definition index_out_of_range {A : Type} : res A :=
  Panicked (runtime_Error "index out of range").
Definition nil_not_Node {A : Type} : res A :=
  Panicked (runtime_Error "interface conversion: interface is nil, not parse.Node").
Definition nil_not_item {A : Type} : res A :=
  Panicked (runtime_Error "interface conversion: interface is nil, not *parse.item").

(** errorf formats the error and terminates processing. *)
Definition Tree_errorf {A : Type} (msg : string) (t : Tree) : res A :=
  let t := set_Root None t in
  match token_get t 0 with
  | Some t0 => Raised (mk_error (ParseName t) (line t0) msg) t
  | None => index_out_of_range
  end.

(** next returns the next token. *)
Definition Tree_next (t : Tree) : res item :=
  if 0 <? peekCount t then
    let t := set_peekCount (peekCount t - 1) t in
    match token_get t (peekCount t) with
    | Some i => Ok i t
    | None => index_out_of_range
    end
  else
    match t_lex t with
    | None => nil_deref
    | Some l =>
        let '(i, l) := nextItem l in
        let t := token_set 0 i (set_lex (Some l) t) in
        match token_get t (peekCount t) with
        | Some i => Ok i t
        | None => index_out_of_range
        end
    end.

(** backup backs the input stream up one token. *)
Definition Tree_backup (t : Tree) : Tree := set_peekCount (peekCount t + 1) t.

(** peek returns but does not consume the next token. *)
Definition Tree_peek (t : Tree) : res item :=
  if 0 <? peekCount t then
    match token_get t (peekCount t - 1) with
    | Some i => Ok i t
    | None => index_out_of_range
    end
  else
    let t := set_peekCount 1 t in
    match t_lex t with
    | None => nil_deref
    | Some l =>
        let '(i, l) := nextItem l in
        Ok i (token_set 0 i (set_lex (Some l) t))
    end.

(** The loop of nextNonSpace reads a token in every round; after the
    pending tokens the channel is closed and gives the zero item, which
    is no space. *)
Fixpoint nextNonSpace_loop (fuel : nat) (t : Tree) : res item :=
  match fuel with
  | O => NoFuel
  | S fuel' =>
      do (tok, t) <- Tree_next t;
      if negb (itemType_eqb (typ tok) itemSpace) then Ok tok t
      else nextNonSpace_loop fuel' t
  end.

Definition pending (t : Tree) : nat :=
  (Z.to_nat (peekCount t) + match t_lex t with Some l => length (lx_items l) | None => 0 end)%nat.

(** nextNonSpace returns the next non-space token. *)
Definition nextNonSpace (t : Tree) : res item := nextNonSpace_loop (S (pending t)) t.

(** peekNonSpace returns but does not consume the next non-space token. *)
Definition peekNonSpace (t : Tree) : res item :=
  do (tok, t) <- nextNonSpace t;
  Ok tok (Tree_backup t).

(** unexpected complains about the token and terminates processing. *)
Definition unexpected {A : Type} (tok : item) (context : string) (t : Tree) : res A :=
  Tree_errorf ("unexpected " +:+ item_String tok +:+ " in " +:+ context) t.

(** expect consumes the next token and guarantees it has the required type. *)
Definition expect (expected : itemType) (context : string) (t : Tree) : res item :=
  do (tok, t) <- nextNonSpace t;
  if negb (itemType_eqb (typ tok) expected) then unexpected tok context t
  else Ok tok t.

(** startParse initializes the parser, using the lexer. *)
Definition startParse (lex : option lexer) (ts : gmap string treePtr) (t : Tree) : Tree :=
  set_treeSet (Some ts) (set_lex lex (set_Root None t)).

(** stopParse terminates parsing. *)
Definition stopParse (t : Tree) : Tree := set_treeSet None (set_lex None t).

(** [strconv.UnquoteChar]; nothing stands for ErrSyntax. *)
Definition strconv_UnquoteChar (s : string) (quote : ascii) : option (Z * string) :=
  match s with
  | EmptyString => None
  | String c _ =>
      if Ascii.eqb c quote && (Ascii.eqb quote "'"%char || (byte_val quote =? 34))
      then None
      else if RuneSelf <=? byte_val c then
        let '(r, size) := utf8_DecodeRuneInString s in Some (r, slice_from s size)
      else if negb (byte_val c =? 92) then Some (byte_val c, slice_from s 1)
      else strconv_UnquoteChar_escape L s quote
  end.

(** The zero value of float64. *)
Definition float64_zero : float64 L := float64_of_int L 0.

(** simplifyComplex pulls out any other types that are represented by the
    complex number. *)
Definition simplifyComplex (n : NumberNode) : NumberNode :=
  let isFloat := float64_eqb L (snd (Complex128 n)) float64_zero in
  if isFloat then
    let f := fst (Complex128 n) in
    let isInt := float64_eqb L (float64_of_int L (int64_of_float L f)) f in
    let isUint := float64_eqb L (float64_of_int L (uint64_of_float L f)) f in
    mk_number (n_NodeType n) (n_Pos n) (n_tr n) isInt isUint true (IsComplex n)
              (if isInt then int64_of_float L f else Int64 n)
              (if isUint then uint64_of_float L f else Uint64 n)
              f (Complex128 n) (n_Text n)
  else
    mk_number (n_NodeType n) (n_Pos n) (n_tr n) (IsInt n) (IsUint n) false (IsComplex n)
              (Int64 n) (Uint64 n) (Float64 n) (Complex128 n) (n_Text n).

Inductive number_result : Type :=
  | number_ok (n : NumberNode)
  | number_err (err : string)
  | number_panic.  (* the slice of an empty character constant *)

(** newNumber classifies the literal [text]. *)
Definition newNumber (t : treePtr) (p : Z) (text : string) (typ : itemType)
  : number_result :=
  let n0 := mk_number NodeNumber p t false false false false 0 0
                      float64_zero (float64_zero, float64_zero) text in
  if itemType_eqb typ itemCharConstant then
    if len text <? 1 then number_panic
    else
      match strconv_UnquoteChar (slice_from text 1) (byte_chr (byte_at text 0)) with
      | None => number_err "invalid syntax"
      | Some (rune, tail) =>
          if negb (String.eqb tail "'") then
            number_err ("malformed character constant: " +:+ text)
          else
            number_ok (mk_number NodeNumber p t true true true false
                                 rune (rune mod 2 ^ 64) (float64_of_int L rune)
                                 (float64_zero, float64_zero) text)
      end
  else
    (* Imaginary constants can only be complex unless they are zero. *)
    let imaginary :=
      if (0 <? len text) && (byte_at text (len text - 1) =? 105)
      then strconv_ParseFloat L (slice_to text (len text - 1)) else None in
    match imaginary with
    | Some f =>
        number_ok (simplifyComplex
                     (mk_number NodeNumber p t false false false true 0 0
                                float64_zero (float64_zero, f) text))
    | None =>
        (* Do integer test first so we get 0x123 etc. *)
        let u := strconv_ParseUint L text in
        let i := strconv_ParseInt L text in
        let uval := match u with Some v => v | None => 0 end in
        let isUint := match u, i with
                      | Some _, _ => true
                      | None, Some iv => iv =? 0  (* in case of -0. *)
                      | None, None => false
                      end in
        match i with
        | Some iv =>
            (* If an integer extraction succeeded, promote the float. *)
            number_ok (mk_number NodeNumber p t true isUint true false iv uval
                                 (float64_of_int L iv) (float64_zero, float64_zero) text)
        | None =>
            if isUint then
              number_ok (mk_number NodeNumber p t false true true false 0 uval
                                   (float64_of_int L uval)
                                   (float64_zero, float64_zero) text)
            else
              match strconv_ParseFloat L text with
              | Some f =>
                  (* A float that looks like an integer is a huge number. *)
                  if negb (strings_ContainsAny text ".eE") then
                    number_err ("integer overflow: " +:+ strconv_Quote text)
                  else
                    let isInt := float64_eqb L (float64_of_int L (int64_of_float L f)) f in
                    let isU := float64_eqb L (float64_of_int L (uint64_of_float L f)) f in
                    number_ok (mk_number NodeNumber p t isInt isU true false
                                         (if isInt then int64_of_float L f else 0)
                                         (if isU then uint64_of_float L f else 0)
                                         f (float64_zero, float64_zero) text)
              | None => number_err ("illegal number syntax: " +:+ strconv_Quote text)
              end
        end
    end.

(** The type [stack]; [pop] and [peek] give nothing for nil. *)
Record stack (A : Type) : Type := mk_stack {
  items : list A;
  count : Z
}.
Arguments mk_stack {A}.
Arguments items {A}.
Arguments count {A}.

Definition stack_empty {A : Type} : stack A := mk_stack [] 0.

Definition push {A : Type} (e : A) (s : stack A) : stack A :=
  mk_stack (take (Z.to_nat (count s)) (items s) ++ [e]) (count s + 1).

Definition pop {A : Type} (s : stack A) : option A * stack A :=
  if count s =? 0 then (None, s)
  else
    let s := mk_stack (items s) (count s - 1) in
    (items s !! Z.to_nat (count s), s).

Definition stack_peek {A : Type} (s : stack A) : option A :=
  if count s =? 0 then None else items s !! Z.to_nat (count s - 1).

(** What the operator stack holds: the address of the local variable
    lowestPrecOperator or the address of a token read by the loop. *)
Inductive item_ptr : Set :=
  | ptr_lowestPrecOperator
  | ptr_token (tok : item).

Definition lowestPrecOperator : item := mk_item itemLowestPrecOpt 0 "#" 0.

Definition item_deref (p : item_ptr) : item :=
  match p with
  | ptr_lowestPrecOperator => lowestPrecOperator
  | ptr_token tok => tok
  end.

Definition is_lowestPrecOperator (p : item_ptr) : bool :=
  match p with ptr_lowestPrecOperator => true | ptr_token _ => false end.

(** [lowestPrecOperator == topOperator] compares the struct with the
    interface value, which holds a pointer or nil: the dynamic types are
    not the same and the comparison is false. *)
Definition item_eq_interface (i : item) (x : option item_ptr) : bool := false.

Definition is_binary_operator (ty : itemType) : bool :=
  match ty with
  | itemAdd | itemMinus | itemMultiply | itemDivide | itemLess | itemLessEq
  | itemEq | itemNeq | itemDot => true
  | _ => false
  end.

(** How a call that returns no error can end. *)
Inductive outcome (A : Type) : Type :=
  | Done (a : A)
  | Panic (p : panic_value).
Arguments Done {A}.
Arguments Panic {A}.

(** IsEmptyTree reports whether this tree (node) is empty of everything
    but space; on a node that is not nil. *)
Fixpoint IsEmptyTree_node (n : Node) : outcome bool :=
  match n with
  | NIf _ _ _ _ _ _ => Done false
  | NContent c =>
      (fix range (nodes : list Node) : outcome bool :=
         match nodes with
         | [] => Done true
         | node :: rest =>
             match IsEmptyTree_node node with
             | Done true => range rest
             | Done false => Done false
             | Panic p => Panic p
             end
         end) (c_Nodes c)
  | NList _ _ _ _ _ _ => Done false
  | NText _ _ _ text => Done (len (bytes_TrimSpace text) =? 0)
  | _ => Panic (panic_string ("unknown node: " +:+ Node_String n))
  end.

(** IsEmptyTree on a value of the interface, which is nil or a node. *)
Definition IsEmptyTree (n : option Node) : outcome bool :=
  match n with
  | None => Done true
  | Some n => IsEmptyTree_node n
  end.

(** [IsEmptyTree(tree.Root)]: the interface holds the pointer [Root], and a
    nil pointer in it is not the nil interface: the case of ContentNode
    reads its Nodes. *)
Definition IsEmptyTree_Root (root : option ContentNode) : outcome bool :=
  match root with
  | None => Panic (runtime_Error "invalid memory address or nil pointer dereference")
  | Some c => IsEmptyTree (Some (NContent c))
  end.

Section Parser.

(** The address of the tree that parses: the receiver [t]. *)
Variable self : nat.

(** The loop of expression.  The calls of fmt.Println are left out. *)
Fixpoint expression_loop (fuel : nat) (context : string)
    (operatorStack : stack item_ptr) (operandStack : stack Node) (t : Tree)
  : res ExpressionNode :=
  match fuel with
  | O => NoFuel
  | S fuel' =>
      do (token, t) <- nextNonSpace t;
      match typ token with
      | itemCloseDirective | itemRightInterpolation =>
          let '(topOperator, operatorStack) := pop operatorStack in
          match topOperator with
          | None => nil_not_item
          | Some topOperator =>
              if is_lowestPrecOperator topOperator then
                let expr := newExpression (Some self) (pos token) itemLowestPrecOpt in
                match pop operandStack with
                | (None, _) => nil_not_Node
                | (Some a, _) => Ok (expression_append expr a) t
                end
              else
                let '(bottomOperator, operatorStack) := pop operatorStack in
                match bottomOperator with
                | None => unexpected token context t
                | Some bottomOperator =>
                    if negb (is_lowestPrecOperator bottomOperator)
                    then unexpected token context t
                    else
                      let expr := newExpression (Some self) (pos token)
                                                (typ (item_deref topOperator)) in
                      match pop operandStack with
                      | (None, _) => nil_not_Node
                      | (Some a, operandStack) =>
                          let expr := expression_append expr a in
                          match pop operandStack with
                          | (None, _) => nil_not_Node
                          | (Some b, _) => Ok (expression_append expr b) t
                          end
                      end
                end
          end
      | itemBool =>
          let boolean := newBool (Some self) (pos token) (String.eqb (val token) "true") in
          expression_loop fuel' context operatorStack (push boolean operandStack) t
      | itemCharConstant | itemNumber =>
          match newNumber (Some self) (pos token) (val token) (typ token) with
          | number_panic => Panicked (runtime_Error "slice bounds out of range")
          | number_err err => Tree_errorf err t
          | number_ok number =>
              expression_loop fuel' context operatorStack
                              (push (NNumber number) operandStack) t
          end
      | itemIdentifier =>
          let iden := newIdentifier (Some self) (pos token) (val token) in
          expression_loop fuel' context operatorStack (push iden operandStack) t
      | itemStringConstant =>
          let str := newString (Some self) (pos token) (val token) in
          expression_loop fuel' context operatorStack (push str operandStack) t
      | itemAdd | itemMinus | itemMultiply | itemDivide | itemLess | itemLessEq
      | itemEq | itemNeq | itemDot =>
          let topOperator := stack_peek operatorStack in
          if item_eq_interface lowestPrecOperator topOperator then
            expression_loop fuel' context (push (ptr_token token) operatorStack)
                            operandStack t
          else
            match topOperator with
            | None => nil_not_item
            | Some topOperator =>
                if precedence (item_deref topOperator) <=? precedence token then
                  expression_loop fuel' context (push (ptr_token token) operatorStack)
                                  operandStack t
                else
                  let operExpr := newExpression (Some self) (pos token)
                                                (typ (item_deref topOperator)) in
                  match pop operandStack with
                  | (None, _) => nil_not_Node
                  | (Some a, operandStack) =>
                      let operExpr := expression_append operExpr a in
                      match pop operandStack with
                      | (None, _) => nil_not_Node
                      | (Some b, operandStack) =>
                          let operExpr := expression_append operExpr b in
                          expression_loop fuel' context operatorStack
                                          (push (NExpression operExpr) operandStack)
                                          (Tree_backup t)
                      end
                  end
            end
      | _ => unexpected token context t
      end
  end.

Definition expression (fuel : nat) (context : string) (t : Tree) : res ExpressionNode :=
  expression_loop fuel context (push ptr_lowestPrecOperator stack_empty) stack_empty t.

Definition interpolation (fuel : nat) (t : Tree) : res (option Node) :=
  do (expr, t) <- expression fuel "interpolation" t;
  Ok (Some (NExpression expr)) t.

(** Else: the else keyword is past. *)
Definition elseControl (t : Tree) : res (option Node) :=
  (* Special case for "else if". *)
  do (peek, t) <- peekNonSpace t;
  if itemType_eqb (typ peek) itemDirectiveIf then
    Ok (Some (newElse (Some self) (pos peek))) t
  else
    do (token, t) <- expect itemCloseDirective "else" t;
    Ok (Some (newElse (Some self) (pos token))) t.

(** List: the list keyword is past.  No function of the package calls it. *)
Definition listControl_of
    (parseControl : bool -> string -> Tree ->
                    res (Z * ExpressionNode * ContentNode * option ContentNode))
    (t : Tree) : res Node :=
  do (r, t) <- parseControl false "list" t;
  let '(p, expr, list, elseList) := r in
  Ok (newList (Some self) p (Some expr) (Some list) elseList) t.

Definition is_end_or_else (ty : NodeType) : bool :=
  NodeType_eqb ty nodeEnd || NodeType_eqb ty nodeElse.

(** The functions of the parser that call one another; every call takes
    one from [fuel].  A result of type [option Node] is a value of the
    interface, which directive returns as nil for a keyword it has no
    case for. *)
Fixpoint textOrInterpolationOrDirective (fuel : nat) (t : Tree) {struct fuel}
  : res (option Node) :=
  match fuel with
  | O => NoFuel
  | S fuel' =>
      do (token, t) <- nextNonSpace t;
      match typ token with
      | itemText => Ok (Some (newText (Some self) (pos token) (val token))) t
      | itemLeftInterpolation => interpolation fuel' t
      | itemStartDirective => directive fuel' t
      | itemEndDirective =>
          do (token, t) <- Tree_next t;  (* consumes an identifier, such as "if" *)
          do (token, t) <- Tree_next t;  (* consumes a close directive token ">" *)
          Ok (Some (newEnd (Some self) (pos token) (val token))) t
      | _ => unexpected token "input" t
      end
  end

with directive (fuel : nat) (t : Tree) {struct fuel} : res (option Node) :=
  match fuel with
  | O => NoFuel
  | S fuel' =>
      do (token, t) <- nextNonSpace t;
      match typ token with
      | itemDirectiveIf => do (n, t) <- ifControl fuel' t; Ok (Some n) t
      | itemDirectiveElse => elseControl t
      | _ =>
          let t := Tree_backup t in
          do (token, t) <- Tree_peek t;
          Ok None t
      end
  end

(** If: the if keyword is past. *)
with ifControl (fuel : nat) (t : Tree) {struct fuel} : res Node :=
  match fuel with
  | O => NoFuel
  | S fuel' =>
      do (r, t) <- parseControl fuel' true "if" t;
      let '(p, expr, list, elseList) := r in
      Ok (newIf (Some self) p (Some expr) (Some list) elseList) t
  end

with parseControl (fuel : nat) (allowElseIf : bool) (context : string) (t : Tree)
    {struct fuel}
  : res (Z * ExpressionNode * ContentNode * option ContentNode) :=
  match fuel with
  | O => NoFuel
  | S fuel' =>
      do (expr, t) <- expression fuel' context t;
      do (r, t) <- itemContent fuel' t;
      let '(list, next) := r in
      if NodeType_eqb (Node_Type next) nodeEnd then (* done *)
        Ok (e_Pos expr, expr, list, None) t
      else if NodeType_eqb (Node_Type next) nodeElse then
        let plain (t : Tree) :=
          do (r, t) <- itemContent fuel' t;
          let '(elseList, next) := r in
          if negb (NodeType_eqb (Node_Type next) nodeEnd) then
            Tree_errorf ("expected end; found " +:+ Node_String next) t
          else Ok (e_Pos expr, expr, list, Some elseList) t in
        if allowElseIf then
          do (pk, t) <- Tree_peek t;
          if itemType_eqb (typ pk) itemDirectiveIf then
            do (_x, t) <- Tree_next t;  (* Consume the "if" token. *)
            let elseList := newContent (Some self) (Node_Position next) in
            do (n, t) <- ifControl fuel' t;
            (* Do not consume the next item - only one end required. *)
            Ok (e_Pos expr, expr, list, Some (content_append elseList n)) t
          else plain t
        else plain t
      else Ok (e_Pos expr, expr, list, None) t
  end

with itemContent (fuel : nat) (t : Tree) {struct fuel} : res (ContentNode * Node) :=
  match fuel with
  | O => NoFuel
  | S fuel' =>
      do (pk, t) <- peekNonSpace t;
      itemContent_loop fuel' (newContent (Some self) (pos pk)) t
  end

with itemContent_loop (fuel : nat) (content : ContentNode) (t : Tree) {struct fuel}
  : res (ContentNode * Node) :=
  match fuel with
  | O => NoFuel
  | S fuel' =>
      do (pk, t) <- peekNonSpace t;
      if negb (itemType_eqb (typ pk) itemEOF) then
        do (n, t) <- textOrInterpolationOrDirective fuel' t;
        match n with
        | None => nil_deref
        | Some n =>
            if is_end_or_else (Node_Type n) then Ok (content, n) t
            else itemContent_loop fuel' (content_append content n) t
        end
      else Tree_errorf "unexpected EOF" t
  end.

Definition listControl (fuel : nat) (t : Tree) : res Node :=
  listControl_of (parseControl fuel) t.

Fixpoint parse_loop (fuel : nat) (t : Tree) : res unit :=
  match fuel with
  | O => NoFuel
  | S fuel' =>
      do (pk, t) <- Tree_peek t;
      if negb (itemType_eqb (typ pk) itemEOF) then
        do (n, t) <- textOrInterpolationOrDirective fuel' t;
        match n with
        | None => nil_deref  (* n.Type() on the nil interface *)
        | Some n =>
            if is_end_or_else (Node_Type n) then
              Tree_errorf ("unexpected " +:+ Node_String n) t
            else
              match Root t with
              | None => nil_deref
              | Some root => parse_loop fuel' (set_Root (Some (content_append root n)) t)
              end
        end
      else Ok tt t
  end.

(** parse is the top-level parser for a template. It runs to EOF. *)
Definition parse (fuel : nat) (t : Tree) : res unit :=
  do (pk, t) <- Tree_peek t;
  parse_loop fuel (set_Root (Some (newContent (Some self) (pos pk))) t).

(** The trees other than the receiver, by address. *)
Variable heap : gmap nat Tree.

Definition deref_tree (p : nat) (t : Tree) : option Tree :=
  if decide (p = self) then Some t else heap !! p.

Definition multiple_definition (name : string) : string :=
  "template: multiple definition of template " +:+ strconv_Quote name.

(** add adds tree to t.treeSet. *)
Definition add (t : Tree) : res unit :=
  let ts := match treeSet t with Some ts => ts | None => ∅ end in
  let install (t : Tree) : res unit :=
    match treeSet t with
    | None => Panicked (runtime_Error "assignment to entry in nil map")
    | Some ts => Ok tt (set_treeSet (Some (<[Name t := Some self]> ts)) t)
    end in
  match ts !! Name t with
  | None | Some None => install t
  | Some (Some p) =>
      match deref_tree p t with
      | None => nil_deref
      | Some tree =>
          match IsEmptyTree_Root (Root tree) with
          | Panic p => Panicked p
          | Done true => install t
          | Done false =>
              match IsEmptyTree_Root (Root t) with
              | Panic p => Panicked p
              | Done false => Tree_errorf (multiple_definition (Name t)) t
              | Done true => Ok tt t
              end
          end
      end
  end.

(** What Parse gives its caller: the two results, and the receiver and
    the map as the call leaves them; or the panic that leaves the call. *)
Inductive Parse_result : Type :=
  | Returns (tree : option nat) (err : option parse_error)
            (t : Tree) (ts : gmap string treePtr)
  | Panics (p : panic_value)
  | Unknown.

Definition treeSet_of (t : Tree) (ts : gmap string treePtr) : gmap string treePtr :=
  match treeSet t with Some ts' => ts' | None => ts end.

(** The calls of the parser are bounded by the number of items. *)
Definition parse_fuel (input : string) : nat := (32 + 8 * String.length input)%nat.

(** Parse parses the template definition string to construct a
    representation of the template for execution; with the deferred call
    of recover. *)
Definition Tree_Parse (t : Tree) (input : string) (ts : gmap string treePtr)
  : Parse_result :=
  let t := set_ParseName (Name t) t in
  match lex (Name t) input with
  | None => Unknown
  | Some l =>
      let t := startParse (Some l) ts t in
      let t := set_text input t in
      match (do (_x, t) <- parse (parse_fuel input) t; add t) with
      | Ok _ t => Returns (Some self) None (stopParse t) (treeSet_of t ts)
      | Raised e t =>
          (* recover: drain the lexer, stop the parse, set the error *)
          Returns None (Some e) (stopParse t) (treeSet_of t ts)
      | Panicked (runtime_Error what) => Panics (runtime_Error what)
      | Panicked (panic_string _) =>
          Panics (runtime_Error "interface conversion: interface {} is string, not error")
      | NoFuel => Unknown
      end
  end.

End Parser.

(** Parse returns a map from template name to parse.Tree, created by
    parsing the templates described in the argument string.  The new tree
    and the new map are the only ones the call reaches; the tree is given
    the address 0. *)
Definition Parse (name input : string) : Parse_result :=
  let t := New name in
  let t := set_text input t in
  Tree_Parse 0%nat ∅ t input ∅.

(** ErrorContext returns a textual representation of the location of the
    node in the input text.  [heap] resolves the tree a node points to. *)
Definition ErrorContext (heap : gmap nat Tree) (t : Tree) (n : Node)
  : outcome (string * string) :=
  let p := Node_Position n in
  let tree := match Node_tree n with
              | None => Some t
              | Some a => heap !! a
              end in
  match tree with
  | None => Panic (runtime_Error "invalid memory address or nil pointer dereference")
  | Some tree =>
      if (p <? 0) || (len (text tree) <? p)
      then Panic (runtime_Error "slice bounds out of range")
      else
        let text := slice_to (text tree) p in
        let byteNum := strings_LastIndexByte text (ascii_of_N 10) in
        let byteNum := if byteNum =? -1 then p (* On first line. *)
                       else p - (byteNum + 1) (* After the newline. *) in
        let lineNum := 1 + strings_CountByte text (ascii_of_N 10) in
        let context := Node_String n in
        let context := if 20 <? len context then fmt_prec_s 20 context +:+ "..."
                       else context in
        Done (ParseName tree +:+ ":" +:+ itoa lineNum +:+ ":" +:+ itoa byteNum, context)
  end.

End Package.

Arguments Ok {L A}.
Arguments Raised {L A}.
Arguments Panicked {L A}.
Arguments NoFuel {L A}.
Arguments Done {A}.
Arguments Panic {A}.
Arguments Returns {L}.
Arguments Panics {L}.
Arguments Unknown {L}.
Arguments NContent {L}.
Arguments NText {L}.
Arguments NExpression {L}.
Arguments NIdentifier {L}.
Arguments NVariable {L}.
Arguments NNil {L}.
Arguments NChain {L}.
Arguments NBool {L}.
Arguments NNumber {L}.
Arguments NString {L}.
Arguments NEnd {L}.
Arguments NElse {L}.
Arguments NIf {L}.
Arguments NList {L}.
Arguments Root {L}.
Arguments Name {L}.
Arguments ParseName {L}.
Arguments text {L}.
Arguments t_lex {L}.
Arguments token {L}.
Arguments peekCount {L}.
Arguments treeSet {L}.

(** The implementation of the library with nothing in its tables: no
    rune from U+0080 on is a letter, a digit or printable, and no escape
    and no numeral is read.  The examples below, which have none of
    these, are evaluated with it; the theorems hold for every
    implementation. *)
Definition go_ascii : GoLib := {|
  unicode_IsLetter_hi := fun _ => false;
  unicode_IsDigit_hi := fun _ => false;
  strconv_IsPrint_hi := fun _ => false;
  strconv_quote_other := fun bytes => bytes;
  strconv_UnquoteChar_escape := fun _ _ => None;
  strconv_ParseUint := fun _ => None;
  strconv_ParseInt := fun _ => None;
  float64 := unit;
  strconv_ParseFloat := fun _ => None;
  float64_of_int := fun _ => tt;
  int64_of_float := fun _ => 0;
  uint64_of_float := fun _ => 0;
  float64_eqb := fun _ _ => true
|}.

Arguments mk_content {N}.
Arguments c_NodeType {N}.
Arguments c_Pos {N}.
Arguments c_tr {N}.
Arguments c_Nodes {N}.
Arguments mk_expression {N}.
Arguments e_NodeType {N}.
Arguments e_Pos {N}.
Arguments e_tr {N}.
Arguments e_operator {N}.
Arguments e_Nodes {N}.
Arguments mk_stack {A}.
Arguments items {A}.
Arguments count {A}.
Arguments push {A}.
Arguments pop {A}.
Arguments stack_peek {A}.
Arguments stack_empty {A}.
Arguments mk_Tree {L}.
Arguments set_ParseName {L}.
Arguments set_Root {L}.
Arguments set_text {L}.
Arguments set_lex {L}.
Arguments set_token {L}.
Arguments set_peekCount {L}.
Arguments set_treeSet {L}.
Arguments bind {L A B}.
Arguments Node_String {L}.
Arguments Node_Copy {L}.
Arguments Node_Type {L}.
Arguments Node_Position {L}.
Arguments Node_tree {L}.
Arguments ContentNode_String {L}.
Arguments IsEmptyTree {L}.
Arguments IsEmptyTree_node {L}.
Arguments IsEmptyTree_Root {L}.
Arguments ErrorContext {L}.
Arguments Tree_Copy {L}.
Arguments CopyContent {L}.
Arguments CopyExpr {L}.
Arguments add {L}.
Arguments Tree_Parse {L}.
Arguments expression {L}.
Arguments textOrInterpolationOrDirective {L}.
Arguments startParse {L}.

(** * The vocabulary of the properties *)

(** The scanner as [lex] starts it. *)
Definition lexer_init (name input : string) : lexer := mk_lexer name input 0 0 0 0 [] 0 1.

(** The call of the tests: [New(name).Parse(input, make(map[string]*Tree))],
    the new tree at address 0. *)
Definition test_Parse (L : GoLib) (textFormat : TextFormat) (name input : string)
  : Parse_result L :=
  Tree_Parse textFormat 0%nat ∅ (New L name) input ∅.

(** The root of the tree a call of Parse returned without error, printed. *)
Definition returned_Root_String {L : GoLib} (textFormat : TextFormat)
    (r : Parse_result L) : option string :=
  match r with
  | Returns (Some _) None t _ => ContentNode_String textFormat <$> Root t
  | _ => None
  end.

(** The four searches of lexText fail on [input]. *)
Definition no_marker (input : string) : Prop :=
  strings_Index input leftInterpolation = -1
  /\ strings_Index input leftComment = -1
  /\ strings_Index input startDirective = -1
  /\ strings_Index input endDirective = -1.

(** The items of a text without markers: the text, if there is any, and
    the end of the input. *)
Definition plain_items (input : string) : list item :=
  (if 0 <? len input then [mk_item itemText 0 input 1] else [])
  ++ [mk_item itemEOF (len input) EmptyString 1].

(** The root that parse builds from the items of a text without markers. *)
Definition plain_Root (L : GoLib) (self : nat) (input : string) : ContentNode L :=
  mk_content NodeContent 0 (Some self)
             (if 0 <? len input then [NText NodeText 0 (Some self) input] else []).

(** The tree as Parse leaves it after a text without markers. *)
Definition plain_Tree (L : GoLib) (self : nat) (name input : string) : Tree L :=
  mk_Tree name name (Some (plain_Root L self input)) input None
          (mk_item itemEOF (len input) EmptyString 1, item_zero, item_zero) 1 None.

(** The nodes a node holds, in the order of its fields; a field that is
    nil holds none. *)
Definition opt_expr_child {L : GoLib} (e : option (ExpressionNode L)) : list (Node L) :=
  match e with Some e => [NExpression e] | None => [] end.
Definition opt_content_child {L : GoLib} (c : option (ContentNode L)) : list (Node L) :=
  match c with Some c => [NContent c] | None => [] end.

Definition Node_children {L : GoLib} (n : Node L) : list (Node L) :=
  match n with
  | NContent c => c_Nodes c
  | NExpression e => e_Nodes e
  | NChain _ _ _ node _ => [node]
  | NIf _ _ _ e c el | NList _ _ _ e c el =>
      opt_expr_child e ++ opt_content_child c ++ opt_content_child el
  | _ => []
  end.

(** The node reached from [n] by taking, at every step, the child with
    the given index. *)
Fixpoint Node_at {L : GoLib} (path : list nat) (n : Node L) : option (Node L) :=
  match path with
  | [] => Some n
  | i :: path' =>
      match Node_children n !! i with
      | Some child => Node_at path' child
      | None => None
      end
  end.

(** The node of the tree [t] at [path], from its root. *)
Definition Tree_node_at {L : GoLib} (path : list nat) (t : Tree L) : option (Node L) :=
  match Root t with
  | Some root => Node_at path (NContent root)
  | None => None
  end.

Definition is_chain {L : GoLib} (n : Node L) : bool :=
  match n with NChain _ _ _ _ _ => true | _ => false end.

(** The tree with [t] bound to its name in the map. *)
Definition installed {L : GoLib} (self : nat) (ts : gmap string treePtr) (t : Tree L)
  : Tree L :=
  set_treeSet (Some (<[Name t := Some self]> ts)) t.

(** The error of add. *)
Definition multiple_definition_error {L : GoLib} (t : Tree L) : parse_error :=
  mk_error (ParseName t) (line (fst (fst (token t))))
           ("template: multiple definition of template " +:+ strconv_Quote L (Name t)).

(** A tree named [x] with one text node, holding the map [ts]. *)
Definition text_Tree (L : GoLib) (txt : string) (ts : option (gmap string treePtr))
  : Tree L :=
  mk_Tree "x" "x" (Some (mk_content NodeContent 0 (Some 0%nat)
                                    [NText NodeText 0 (Some 0%nat) txt]))
          txt None (item_zero, item_zero, item_zero) 0 ts.

(** The If node that Parse builds from [<#if a> </#if>]. *)
Definition if_with_space (L : GoLib) : Node L :=
  NIf NodeIf 6 (Some 0%nat)
      (Some (mk_expression NodeExpression 6 (Some 0%nat) itemLowestPrecOpt
                           [NIdentifier NodeIdentifier 5 (Some 0%nat) "a"]))
      (Some (mk_content NodeContent 7 (Some 0%nat) [NText NodeText 7 (Some 0%nat) " "]))
      None.

Definition nonspace (i : item) : bool := negb (itemType_eqb (typ i) itemSpace).

(** The parser has no token pending, and the items it has yet to receive
    are, the spaces left out, [toks]. *)
Definition feeds {L : GoLib} (t : Tree L) (toks : list item) : Prop :=
  peekCount t = 0
  /\ exists l, t_lex t = Some l /\ filter (fun i => nonspace i = true) (lx_items l) = toks.

(** The operand the expression engine pushes for a token, if the token is
    one it makes an operand from. *)
Definition operand_of (L : GoLib) (self : nat) (tok : item) : option (Node L) :=
  match typ tok with
  | itemBool => Some (newBool L (Some self) (pos tok) (String.eqb (val tok) "true"))
  | itemCharConstant | itemNumber =>
      match newNumber L (Some self) (pos tok) (val tok) (typ tok) with
      | number_ok _ n => Some (NNumber n)
      | _ => None
      end
  | itemIdentifier => Some (newIdentifier L (Some self) (pos tok) (val tok))
  | itemStringConstant => Some (newString L (Some self) (pos tok) (val tok))
  | _ => None
  end.

Definition is_closer (ty : itemType) : bool :=
  match ty with
  | itemCloseDirective | itemRightInterpolation => true
  | _ => false
  end.

(** The error of [unexpected]. *)
Definition unexpected_error {L : GoLib} (t : Tree L) (tok : item) (context : string)
  : parse_error :=
  mk_error (ParseName t) (line tok)
           ("unexpected " +:+ item_String L tok +:+ " in " +:+ context).

(** The parser of the tree named [t], at address 0, after it has received
    the first [n] items of [input]. *)
Definition parser_after (L : GoLib) (n : nat) (input : string) : Tree L :=
  let t := startParse (lex L "t" input) ∅ (New L "t") in
  Nat.iter n (fun t => match Tree_next L t with Ok _ t' => t' | _ => t end) t.

(** What Parse returns as its error, printed; nothing when it returns no
    error or does not return. *)
Definition returned_error {L : GoLib} (r : Parse_result L) : option string :=
  match r with
  | Returns None (Some e) _ _ => Some (Error e)
  | _ => None
  end.

(** What the stack holds, bottom first: the first [count] of its items.
    pop leaves the item it returns in the slice, and push cuts the slice
    at [count] before it appends. *)
Definition stack_list {A : Type} (s : stack A) : list A :=
  take (Z.to_nat (count s)) (items s).

(** [count] is a length within the slice, as push and pop keep it. *)
Definition stack_wf {A : Type} (s : stack A) : Prop :=
  0 <= count s <= Z.of_nat (length (items s)).

(** [n] calls of pop, with what each returned. *)
Fixpoint pop_n {A : Type} (n : nat) (s : stack A) : list (option A) * stack A :=
  match n with
  | O => ([], s)
  | S n' =>
      let '(x, s) := pop s in
      let '(xs, s) := pop_n n' s in
      (x :: xs, s)
  end.

(** The calls of push for the elements of [l], in their order. *)
Definition push_all {A : Type} (l : list A) (s : stack A) : stack A :=
  fold_left (fun s e => push e s) l s.

(** The scanner that the parser [t] holds. *)
Definition lexer_of {L : GoLib} (t : Tree L) : lexer :=
  match t_lex t with
  | Some l => l
  | None => lexer_init EmptyString EmptyString
  end.

(** The tokens the loop of expression has a case for. *)
Definition is_expression_token (ty : itemType) : bool :=
  match ty with
  | itemBool | itemCharConstant | itemNumber | itemIdentifier | itemStringConstant => true
  | _ => is_closer ty || is_binary_operator ty
  end.

(** The expression node of a single operand, and of two operands and an
    operator, as the engine builds them at the closing token. *)
Definition single_expression {L : GoLib} (self : nat) (closer : item) (a : Node L)
  : ExpressionNode L :=
  mk_expression NodeExpression (pos closer) (Some self) itemLowestPrecOpt [a].

Definition binary_expression {L : GoLib} (self : nat) (closer op : item) (a b : Node L)
  : ExpressionNode L :=
  mk_expression NodeExpression (pos closer) (Some self) (typ op) [a; b].

(** What the functions of the parser leave alone in the tree: its names,
    its text and the map it holds. *)
Definition same_frame {L : GoLib} (t t' : Tree L) : Prop :=
  Name t' = Name t /\ ParseName t' = ParseName t /\ text t' = text t
  /\ treeSet t' = treeSet t.

(** A call on [t] that returns leaves the frame and the root of [t]; a
    call that raises an error leaves the frame, drops the root and names
    the template in the error. *)
Definition keeps {L : GoLib} {A : Type} (t : Tree L) (r : res L A) : Prop :=
  match r with
  | Ok _ t' => same_frame t t' /\ Root t' = Root t
  | Raised e t' => same_frame t t' /\ Root t' = None /\ err_ParseName e = ParseName t
  | _ => True
  end.

(** How parse ends on a tree: when it returns, the tree has a root; when
    it raises an error, the root is dropped and the error names the
    template; either way the frame of the tree is left. *)
Definition ends {L : GoLib} {A : Type} (t : Tree L) (r : res L A) : Prop :=
  match r with
  | Ok _ t' => same_frame t t' /\ is_Some (Root t')
  | Raised e t' => same_frame t t' /\ Root t' = None /\ err_ParseName e = ParseName t
  | _ => True
  end.

(** The four results of a call of Parse that returned; what stands for
    them when it did not is of no use. *)
Definition result_tree {L : GoLib} (r : Parse_result L) : option nat :=
  match r with Returns tree _ _ _ => tree | _ => None end.
Definition result_err {L : GoLib} (r : Parse_result L) : option parse_error :=
  match r with Returns _ err _ _ => err | _ => None end.
Definition result_Tree {L : GoLib} (r : Parse_result L) : Tree L :=
  match r with Returns _ _ t _ => t | _ => New L EmptyString end.
Definition result_map {L : GoLib} (r : Parse_result L) : gmap string treePtr :=
  match r with Returns _ _ _ ts => ts | _ => ∅ end.

(** What Tree.Parse leaves behind when it returns [tree] and [err], the
    tree [t'] and the map [ts'], called on [t] with the map [ts]. *)
Definition Parse_leaves {L : GoLib} (self : nat) (t : Tree L) (input : string)
    (ts : gmap string treePtr) (tree : option nat) (err : option parse_error)
    (t' : Tree L) (ts' : gmap string treePtr) : Prop :=
  Name t' = Name t /\ ParseName t' = Name t /\ text t' = input
  /\ t_lex t' = None /\ treeSet t' = None
  /\ match err with
     | Some e => tree = None /\ Root t' = None /\ ts' = ts /\ err_ParseName e = Name t
     | None => tree = Some self /\ is_Some (Root t')
               /\ (ts' = ts \/ ts' = <[Name t := Some self]> ts)
               /\ (ts !! Name t = None -> ts' = <[Name t := Some self]> ts)
     end.

(** An item after which the scanner sends no other: the end of the input
    or an error. *)
Definition is_last (i : item) : bool :=
  match typ i with
  | itemEOF | itemError => true
  | _ => false
  end.

(** From [l] to [l'] the scanner has sent items of which none is a last
    one; and items of which the last, and no other, is a last one. *)
Definition sends_on (l l' : lexer) : Prop :=
  exists new : list item,
    lx_items l' = (lx_items l ++ new)%list /\ Forall (fun i => is_last i = false) new.

Definition sends_last (l l' : lexer) : Prop :=
  exists (body : list item) (x : item),
    lx_items l' = (lx_items l ++ body ++ [x])%list
    /\ Forall (fun i => is_last i = false) body /\ is_last x = true.

(** What a call of a state function has sent, by the state it returns:
    the scan goes on, or has ended with the nil state. *)
Definition call_sends (l : lexer) (r : lexer * option stateFn) : Prop :=
  match snd r with
  | Some _ => sends_on l (fst r)
  | None => sends_last l (fst r)
  end.
(** The rune that next reads at offset [p] of [input], and its width. *)
Definition rune_at (input : string) (p : Z) : Z * Z :=
  if len input <=? p then (eof, 0) else utf8_DecodeRuneInString (slice_from input p).

(** The offsets of the scanner are offsets of its input, and the pending
    item does not start after the current position. *)
Definition in_range (l : lexer) : Prop :=
  0 <= lx_start l /\ lx_start l <= lx_pos l /\ lx_pos l <= len (lx_input l).

(** [l'] is [l] at the same place of the same input. *)
Definition at_same (l l' : lexer) : Prop :=
  lx_input l' = lx_input l /\ lx_start l' = lx_start l /\ lx_pos l' = lx_pos l.

(** [l'] is [l] after it has read on in the same input. *)
Definition reads (l l' : lexer) : Prop :=
  lx_input l' = lx_input l /\ lx_start l' = lx_start l
  /\ lx_pos l <= lx_pos l' /\ lx_pos l' <= len (lx_input l).
(** A bound on the calls that can follow the call of a state function
    without reading: the text can be followed by a directive, that by an
    expression and that by one of the three states it backs up for. *)
Definition rank (s : stateFn) : Z :=
  match s with
  | lexText_ | lexSpace_ | lexChar_ | lexString_ => 3
  | lexDirective_ => 2
  | lexExpression_ => 1
  | _ => 0
  end.

(** What holds when the state function [s] is called on [l]: the offsets
    are in range, and the function finds what the state before it has
    seen. *)
Definition entered (L : GoLib) (s : stateFn) (l : lexer) : Prop :=
  in_range l
  /\ match s with
     | lexInterpolation_ => lx_pos l + len leftInterpolation <= len (lx_input l)
     | lexComment_ => lx_pos l + len leftComment <= len (lx_input l)
     | lexNumber_ =>
         let r := fst (rune_at (lx_input l) (lx_pos l)) in r = 46 \/ 48 <= r <= 57
     | lexIdentifier_ => isAlphaNumeric L (fst (rune_at (lx_input l) (lx_pos l))) = true
     | lexComparator_ => lx_pos l < len (lx_input l)
     | _ => True
     end.

(** The call of [s] on [l] has returned [r]: if the scan goes on, it
    does on the same input, the next state is entered as it expects, and
    the call has read on or the next state has a smaller rank. *)
Definition goes_on (L : GoLib) (s : stateFn) (l : lexer) (r : lexer * option stateFn)
  : Prop :=
  match snd r with
  | None => True
  | Some s' =>
      lx_input (fst r) = lx_input l /\ entered L s' (fst r)
      /\ rank s' + 4 * lx_pos l < rank s + 4 * lx_pos (fst r)
  end.

(** scanNumber after the sign and the prefix of a hexadecimal number. *)
Definition scanNumber_digits (L : GoLib) (digits : string) (l : lexer)
  : option (bool * lexer) :=
  l ← acceptRun digits l;
  let '(dot, l) := accept "." l in
  l ← (if dot then acceptRun digits l else Some l);
  let '(e, l) := accept "eE" l in
  l ← (if e then acceptRun "0123456789" (snd (accept "+-" l)) else Some l);
  let '(_, l) := accept "i" l in
  let '(r, l) := peek l in
  if isAlphaNumeric L r then Some (false, snd (next l)) else Some (true, l).

(** The calls of the state functions in a scan of [input]: the first is
    that of lexText on the new scanner, and each of the others is that
    of the state the call before it has returned. *)
Inductive calls (L : GoLib) (name input : string) : stateFn -> lexer -> Prop :=
  | calls_first : calls L name input lexText_ (lexer_init name input)
  | calls_next (s : stateFn) (l l' : lexer) (s' : stateFn) :
      calls L name input s l ->
      state_call L s l = Some (l', Some s') ->
      calls L name input s' l'.

(** A text that bytes.TrimSpace leaves nothing of. *)
Definition blank (s : string) : bool := len (bytes_TrimSpace s) =? 0.

(** The second of two calls of Parse for the same name with the same
    map: the tree of the first call, of the text [first], is at address 0
    and bound to the name, and the new tree is at address 1. *)
Definition Parse_again (L : GoLib) (textFormat : TextFormat) (name first second : string)
  : Parse_result L :=
  Tree_Parse textFormat 1%nat {[ 0%nat := plain_Tree L 0 name first ]}
             (New L name) second {[ name := Some 0%nat ]}.

(** * Properties *)

(** ** The text state of the scanner *)

(** C1, on the input [<#if x>${y}</#if>]: the directive opens at offset 0
    and the interpolation at offset 7, yet lexText looks for the
    interpolation first, sends the directive as the Text item [<#if x>]
    and goes on with lexInterpolation; the scan never sends the items of
    the opening directive. *)
Theorem lexText_takes_later_interpolation :
  let l := lexer_init "t" "<#if x>${y}</#if>" in
  strings_Index (lx_input l) startDirective = 0
  /\ strings_Index (lx_input l) leftInterpolation = 7
  /\ lx_items (fst (lexText l)) = [mk_item itemText 0 "<#if x>" 1]
  /\ snd (lexText l) = Some lexInterpolation_
  /\ forall L : GoLib,
       lx_items <$> lex L "t" "<#if x>${y}</#if>"
       = Some [mk_item itemText 0 "<#if x>" 1;
               mk_item itemLeftInterpolation 7 "${" 1;
               mk_item itemIdentifier 9 "y" 1;
               mk_item itemRightInterpolation 10 "}" 1;
               mk_item itemEndDirective 11 "</#" 1;
               mk_item itemDirectiveIf 14 "if" 1;
               mk_item itemCloseDirective 16 ">" 1;
               mk_item itemEOF 17 EmptyString 1].
Proof. repeat split. Qed.

(** ** Parse on the inputs of the tests *)

(** C2: on [<#if></#if>] the expression engine meets the closing token
    with no operand on the stack; the type assertion on the nil that pop
    gives is a run-time error, which recover raises again: Parse does
    not return. *)
Theorem Parse_emptyDirective_panics :
  forall (L : GoLib) (textFormat : TextFormat),
    test_Parse L textFormat "emptyDirective" "<#if></#if>"
    = Panics (runtime_Error "interface conversion: interface is nil, not parse.Node")
    /\ Parse L textFormat "emptyDirective" "<#if></#if>"
       = Panics (runtime_Error "interface conversion: interface is nil, not parse.Node").
Proof. intros; split; vm_compute; reflexivity. Qed.

(** C3: directive has no case for the keyword list; it returns the nil
    interface, and parse calls Type on it: Parse leaves in a run-time
    panic and no List node is built. *)
Theorem Parse_list_directive_panics :
  forall (L : GoLib) (textFormat : TextFormat),
    Parse L textFormat "t" "<#list xs as x>a</#list>"
    = Panics (runtime_Error "invalid memory address or nil pointer dereference").
Proof. intros; vm_compute; reflexivity. Qed.

(** C4: the test [simple if] parses, and with the text format %q its root
    prints as [<#if b==a>"true content"</#if>"following content"]: the
    operands in the order the stack gives them back. *)
Theorem Parse_simple_if :
  forall L : GoLib,
    returned_Root_String FmtQ
      (test_Parse L FmtQ "simple if" "<#if a == b>true content</#if>following content")
    = Some ("<#if b==a>" +:+ dq +:+ "true content" +:+ dq +:+ "</#if>"
            +:+ dq +:+ "following content" +:+ dq).
Proof. intros; vm_compute; reflexivity. Qed.

(** C5, on [</#if>]: after the token of [</#] the parser reads two
    tokens into the same variable and builds the End node from the second
    one, the close delimiter: the node carries the name [>], not [if]. *)
Theorem End_node_carries_close_delimiter :
  forall (L : GoLib) (textFormat : TextFormat),
    match textOrInterpolationOrDirective textFormat 0%nat 1
            (startParse (lex L "t" "</#if>") ∅ (New L "t")) with
    | Ok n t => n = Some (NEnd nodeEnd 5 (Some 0%nat) ">")
                /\ Node_String textFormat (@NEnd L nodeEnd 5 (Some 0%nat) ">") = "</#>>"
                /\ (lx_items <$> t_lex t) = Some [mk_item itemEOF 6 EmptyString 1]
    | _ => False
    end.
Proof. intros; vm_compute; repeat split. Qed.

(** ** Text without markers *)

Lemma str_take_length (s : string) : str_take (String.length s) s = s.
Proof. induction s as [|c s IH]; simpl; [reflexivity | now rewrite IH]. Qed.

Lemma slice_whole (s : string) : slice s 0 (len s) = s.
Proof.
  unfold slice, len. rewrite Z.sub_0_r, Nat2Z.id. simpl. apply str_take_length.
Qed.

Lemma slice_empty (s : string) (p : Z) : slice s p p = EmptyString.
Proof. unfold slice. rewrite Z.sub_diag. reflexivity. Qed.

Lemma lexText_no_marker (name input : string) :
  no_marker input ->
  lexText (lexer_init name input)
  = (mk_lexer name input (len input) (len input) 0 0 (plain_items input) 0 1, None).
Proof.
  intros (H1 & H2 & H3 & H4).
  unfold lexText, lexer_init, plain_items.
  cbv [set_width set_pos lx_input lx_pos lx_start].
  change (slice_from input 0) with input.
  rewrite H1, H2, H3, H4.
  change (0 <=? -1) with false. cbv iota.
  destruct input as [|a s]; [reflexivity|].
  replace (0 <? len (String a s)) with true by reflexivity.
  cbv [emit set_items set_start lx_items lx_input lx_pos lx_start lx_line
       lx_name lx_width lx_lastPos lx_parenDepth app].
  rewrite slice_whole, slice_empty; reflexivity.
Qed.

Lemma lex_no_marker (L : GoLib) (name input : string) :
  no_marker input ->
  lex L name input
  = Some (mk_lexer name input (len input) (len input) 0 0 (plain_items input) 0 1).
Proof.
  intros H. unfold lex, run, run_fuel.
  change (mk_lexer name input 0 0 0 0 [] 0 1) with (lexer_init name input).
  cbn [lx_input lexer_init Nat.add run_from state_call].
  rewrite (lexText_no_marker name input H). reflexivity.
Qed.

Lemma parse_no_marker (L : GoLib) (textFormat : TextFormat) (self : nat)
    (name txt input : string) (l : lexer) (ts : gmap string treePtr) :
  lx_items l = plain_items input ->
  exists l',
    parse L textFormat self (parse_fuel input)
          (set_text input
             (startParse (Some l) ts
                (set_ParseName name (set_text txt (New L name)))))
    = Ok tt (mk_Tree name name (Some (plain_Root L self input)) input (Some l')
                     (mk_item itemEOF (len input) EmptyString 1, item_zero, item_zero)
                     1 (Some ts)).
Proof.
  destruct l as [n i p s w lp its pd ln]. simpl. intros ->.
  destruct input as [|a s']; eexists; vm_compute; reflexivity.
Qed.

Lemma plain_Root_String (L : GoLib) (self : nat) (input : string) :
  ContentNode_String FmtS (plain_Root L self input) = input.
Proof.
  destruct input as [|a s]; [reflexivity|].
  unfold plain_Root. replace (0 <? len (String a s)) with true by reflexivity.
  reflexivity.
Qed.

Lemma Tree_Parse_no_marker (L : GoLib) (textFormat : TextFormat) (self : nat)
    (heap : gmap nat (Tree L)) (name txt input : string) (ts : gmap string treePtr) :
  no_marker input ->
  ts !! name = None ->
  Tree_Parse textFormat self heap (set_text txt (New L name)) input ts
  = Returns (Some self) None (plain_Tree L self name input) (<[name := Some self]> ts).
Proof.
  intros Hm Hts. unfold Tree_Parse.
  change (Name (set_ParseName (Name (set_text txt (New L name)))
                              (set_text txt (New L name)))) with name.
  rewrite (lex_no_marker L name input Hm).
  destruct (parse_no_marker L textFormat self name txt input
              (mk_lexer name input (len input) (len input) 0 0 (plain_items input) 0 1)
              ts eq_refl) as [l' Hp].
  change (Name (set_text txt (New L name))) with name.
  rewrite Hp. unfold bind, add.
  cbn [treeSet Name]. rewrite Hts. reflexivity.
Qed.

(** C6: a text in which none of the four markers occurs parses, with the
    package function Parse and with the call of the tests, to a tree whose
    root prints, with the default text format, as the text itself; the
    tree is bound to its name in the map. *)
Theorem Parse_text_without_markers :
  forall (L : GoLib) (name input : string),
    strings_Index input leftInterpolation = -1 ->
    strings_Index input leftComment = -1 ->
    strings_Index input startDirective = -1 ->
    strings_Index input endDirective = -1 ->
    exists (t : Tree L) (root : ContentNode L),
      Parse L FmtS name input = Returns (Some 0%nat) None t {[ name := Some 0%nat ]}
      /\ test_Parse L FmtS name input = Returns (Some 0%nat) None t {[ name := Some 0%nat ]}
      /\ Root t = Some root
      /\ ContentNode_String FmtS root = input.
Proof.
  intros L name input H1 H2 H3 H4.
  assert (Hm : no_marker input) by (repeat split; assumption).
  exists (plain_Tree L 0 name input), (plain_Root L 0 input).
  split; [|split; [|split]].
  - unfold Parse.
    rewrite (Tree_Parse_no_marker L FmtS 0 ∅ name input input ∅ Hm (lookup_empty name)).
    reflexivity.
  - unfold test_Parse.
    change (New L name) with (set_text EmptyString (New L name)).
    rewrite (Tree_Parse_no_marker L FmtS 0 ∅ name EmptyString input ∅ Hm
               (lookup_empty name)).
    reflexivity.
  - reflexivity.
  - apply plain_Root_String.
Qed.

Lemma Parse_text_without_markers_witness :
  exists (t : Tree go_ascii) (root : ContentNode go_ascii),
    Parse go_ascii FmtS "spaces" " 	
" = Returns (Some 0%nat) None t {[ "spaces" := Some 0%nat ]}
    /\ test_Parse go_ascii FmtS "spaces" " 	
" = Returns (Some 0%nat) None t {[ "spaces" := Some 0%nat ]}
    /\ Root t = Some root
    /\ ContentNode_String FmtS root = " 	
".
Proof.
  apply (Parse_text_without_markers go_ascii "spaces"); reflexivity.
Defined.

(** The empty text and the text of the test [text] are such texts. *)
Example Parse_empty_and_text :
  returned_Root_String FmtS (Parse go_ascii FmtS "empty" EmptyString) = Some EmptyString
  /\ returned_Root_String FmtS (Parse go_ascii FmtS "text" "some text") = Some "some text".
Proof. split; vm_compute; reflexivity. Qed.

(** ** Copies *)

Section Node_induction.

Context {L : GoLib}.
Variable P : Node L -> Prop.
Hypothesis step : forall n : Node L, Forall P (Node_children n) -> P n.

Fixpoint Node_children_ind (n : Node L) : P n :=
  let all := fix all (l : list (Node L)) : Forall P l :=
    match l with
    | [] => @List.Forall_nil _ P
    | x :: r => @List.Forall_cons _ P x r (Node_children_ind x) (all r)
    end in
  let expr (e : option (ExpressionNode L)) : Forall P (opt_expr_child e) :=
    match e with
    | Some e => @List.Forall_cons _ P _ _ (step (NExpression e) (all (e_Nodes e))) (@List.Forall_nil _ P)
    | None => @List.Forall_nil _ P
    end in
  let content (c : option (ContentNode L)) : Forall P (opt_content_child c) :=
    match c with
    | Some c => @List.Forall_cons _ P _ _ (step (NContent c) (all (c_Nodes c))) (@List.Forall_nil _ P)
    | None => @List.Forall_nil _ P
    end in
  step n
    match n return Forall P (Node_children n) with
    | NContent c => all (c_Nodes c)
    | NExpression e => all (e_Nodes e)
    | NChain _ _ _ node _ => @List.Forall_cons _ P _ _ (Node_children_ind node) (@List.Forall_nil _ P)
    | NIf _ _ _ e c el | NList _ _ _ e c el =>
        proj2 (@List.Forall_app _ P _ _)
              (conj (expr e) (proj2 (@List.Forall_app _ P _ _) (conj (content c) (content el))))
    | _ => @List.Forall_nil _ P
    end.

End Node_induction.

Section Copy_properties.

Context {L : GoLib}.
Variable textFormat : TextFormat.

Lemma is_expression_Copy (n : Node L) :
  is_expression L (Node_Copy n) = is_expression L n.
Proof. destruct n; reflexivity. Qed.

Lemma Node_Position_Copy (n : Node L) : Node_Position (Node_Copy n) = Node_Position n.
Proof. destruct n; reflexivity. Qed.

Lemma Node_tree_Copy (n : Node L) : Node_tree (Node_Copy n) = Node_tree n.
Proof. destruct n; reflexivity. Qed.

Lemma map_Copy_String (f : Node L -> string) (l : list (Node L)) :
  Forall (fun n => f (Node_Copy n) = f n) l ->
  map f (map Node_Copy l) = map f l.
Proof.
  induction 1 as [|x r Hx _ IH]; simpl; [reflexivity|]. now rewrite Hx, IH.
Qed.

(** The copy of a node prints as the node. *)
Lemma Node_String_Copy (n : Node L) :
  Node_String textFormat (Node_Copy n) = Node_String textFormat n.
Proof.
  induction n as [n IH] using Node_children_ind.
  assert (Hcontent : forall c : ContentNode L,
             Forall (fun n => Node_String textFormat (Node_Copy n)
                              = Node_String textFormat n) (c_Nodes c) ->
             Node_String textFormat (Node_Copy (NContent c))
             = Node_String textFormat (NContent c)).
  { intros c Hc. simpl. now rewrite map_Copy_String. }
  assert (Hexpr : forall e : ExpressionNode L,
             Forall (fun n => Node_String textFormat (Node_Copy n)
                              = Node_String textFormat n) (e_Nodes e) ->
             Node_String textFormat (Node_Copy (NExpression e))
             = Node_String textFormat (NExpression e)).
  { intros e He. simpl. f_equal.
    apply (map_Copy_String
             (fun node => if is_expression L node
                          then "(" +:+ Node_String textFormat node +:+ ")"
                          else Node_String textFormat node)).
    eapply Forall_impl; [exact He|].
    intros x Hx. cbv beta. now rewrite is_expression_Copy, Hx. }
  destruct n as [c| | e| | | | nt p tr node fields | | | | | |
                 nt p tr e c el | nt p tr e c el];
    try reflexivity.
  - apply Hcontent, IH.
  - apply Hexpr, IH.
  - simpl in IH.
    apply Forall_app in IH as [He IH]. apply Forall_app in IH as [Hc _].
    destruct e as [e|], c as [c|]; simpl in He, Hc;
      repeat match goal with
             | H : Forall _ (_ :: _) |- _ => apply Forall_cons in H as [? _]
             end;
      change (Node_String textFormat (Node_Copy (NIf nt p tr ?a ?b ?d)))
        with ("<#if " +:+ match a with
                          | Some e => Node_String textFormat (Node_Copy (NExpression e))
                          | None => nilAngleString end
              +:+ ">" +:+ match b with
                          | Some c => Node_String textFormat (Node_Copy (NContent c))
                          | None => nilAngleString end +:+ "</#if>");
      change (Node_String textFormat (NIf nt p tr ?a ?b ?d))
        with ("<#if " +:+ match a with
                          | Some e => Node_String textFormat (NExpression e)
                          | None => nilAngleString end
              +:+ ">" +:+ match b with
                          | Some c => Node_String textFormat (NContent c)
                          | None => nilAngleString end +:+ "</#if>");
      congruence.
  - simpl in IH.
    apply Forall_app in IH as [He IH]. apply Forall_app in IH as [Hc _].
    destruct e as [e|], c as [c|]; simpl in He, Hc;
      repeat match goal with
             | H : Forall _ (_ :: _) |- _ => apply Forall_cons in H as [? _]
             end;
      change (Node_String textFormat (Node_Copy (NList nt p tr ?a ?b ?d)))
        with ("<#list " +:+ match a with
                            | Some e => Node_String textFormat (Node_Copy (NExpression e))
                            | None => nilAngleString end
              +:+ ">" +:+ match b with
                          | Some c => Node_String textFormat (Node_Copy (NContent c))
                          | None => nilAngleString end +:+ "</#list>");
      change (Node_String textFormat (NList nt p tr ?a ?b ?d))
        with ("<#list " +:+ match a with
                            | Some e => Node_String textFormat (NExpression e)
                            | None => nilAngleString end
              +:+ ">" +:+ match b with
                          | Some c => Node_String textFormat (NContent c)
                          | None => nilAngleString end +:+ "</#list>");
      congruence.
Qed.

End Copy_properties.

Section ErrorContext_properties.

Context {L : GoLib}.
Variable textFormat : TextFormat.
Variable heap : gmap nat (Tree L).

(** ErrorContext reads the name and the text of its receiver only, and
    the copy of a tree has both. *)
Lemma ErrorContext_receiver (t : Tree L) (n : Node L) :
  ErrorContext textFormat heap (Tree_Copy t) n = ErrorContext textFormat heap t n.
Proof. unfold ErrorContext. destruct (Node_tree n); reflexivity. Qed.

Lemma ErrorContext_Copy (t : Tree L) (n : Node L) :
  ErrorContext textFormat heap (Tree_Copy t) (Node_Copy n)
  = ErrorContext textFormat heap t n.
Proof.
  rewrite ErrorContext_receiver. unfold ErrorContext.
  now rewrite Node_Position_Copy, Node_tree_Copy, Node_String_Copy.
Qed.

(** Copy copies the children of every node but a chain, which keeps its
    term. *)
Lemma Node_children_Copy (n : Node L) :
  Node_children (Node_Copy n)
  = if is_chain n then Node_children n else map Node_Copy (Node_children n).
Proof.
  destruct n as [c| | e| | | | nt p tr node fields | | | | | |
                 nt p tr e c el | nt p tr e c el]; try reflexivity;
    destruct e, c, el; reflexivity.
Qed.

Lemma Node_at_Copy (t : Tree L) (path : list nat) :
  forall n : Node L,
    (ErrorContext textFormat heap (Tree_Copy t) <$> Node_at path (Node_Copy n))
    = (ErrorContext textFormat heap t <$> Node_at path n)
    /\ (Node_String textFormat <$> Node_at path (Node_Copy n))
       = (Node_String textFormat <$> Node_at path n).
Proof.
  induction path as [|i path IH]; intros n.
  - simpl. now rewrite ErrorContext_Copy, Node_String_Copy.
  - simpl. rewrite Node_children_Copy. destruct (is_chain n).
    + destruct (Node_children n !! i) as [child|]; [|split; reflexivity].
      split; [|reflexivity].
      destruct (Node_at path child); simpl; [|reflexivity].
      now rewrite ErrorContext_receiver.
    + rewrite list_lookup_fmap.
      destruct (Node_children n !! i) as [child|]; simpl; [apply IH | split; reflexivity].
Qed.

End ErrorContext_properties.

(** C7: the root of the copy of a tree prints as the root of the tree,
    with either text format; and wherever a path from the root leads to a
    node in the tree, it leads to a node in the copy, the two nodes print
    alike, and ErrorContext gives for the node of the copy, called on the
    copy, what it gives for the node of the tree, called on the tree: the
    same location and the same context, or the same panic. *)
Theorem Copy_preserves_String_and_ErrorContext :
  forall (L : GoLib) (textFormat : TextFormat) (heap : gmap nat (Tree L)) (t : Tree L),
    (ContentNode_String textFormat <$> Root (Tree_Copy t))
    = (ContentNode_String textFormat <$> Root t)
    /\ forall path : list nat,
         (ErrorContext textFormat heap (Tree_Copy t) <$> Tree_node_at path (Tree_Copy t))
         = (ErrorContext textFormat heap t <$> Tree_node_at path t)
         /\ (Node_String textFormat <$> Tree_node_at path (Tree_Copy t))
            = (Node_String textFormat <$> Tree_node_at path t).
Proof.
  intros L textFormat heap t. split.
  - destruct t as [nm pn [root|] tx lx tk pc ts]; [|reflexivity].
    simpl. unfold ContentNode_String. f_equal.
    apply (Node_String_Copy textFormat (NContent root)).
  - intros path. unfold Tree_node_at.
    destruct t as [nm pn [root|] tx lx tk pc ts]; [|split; reflexivity].
    apply (Node_at_Copy textFormat heap _ path (NContent root)).
Qed.

(** ** The map of trees *)



(** ** IsEmptyTree *)

Section IsEmptyTree_properties.

Context {L : GoLib}.
Variable textFormat : TextFormat.

Lemma IsEmptyTree_Content (c : ContentNode L) :
  IsEmptyTree textFormat (Some (NContent c)) = Done true
  <-> Forall (fun n => IsEmptyTree textFormat (Some n) = Done true) (c_Nodes c).
Proof.
  destruct c as [nt p tr nodes]. cbn [IsEmptyTree IsEmptyTree_node c_Nodes].
  induction nodes as [|n rest IH].
  - split; [constructor | reflexivity].
  - destruct (IsEmptyTree_node textFormat n) as [[|]|pv] eqn:E.
    + rewrite IH. split.
      * intros H. constructor; assumption.
      * intros H. inversion H; assumption.
    + split; [discriminate|]. intros H. inversion H; subst. simpl in *. congruence.
    + split; [discriminate|]. intros H. inversion H; subst. simpl in *. congruence.
Qed.

End IsEmptyTree_properties.

(** C9 as the code has it: IsEmptyTree says true of nil; of a Content
    node it says true exactly when it says true of every child; of an If
    node and of a List node it says false, whatever they hold; of a Text
    node it says whether the text trimmed of space has length zero; and on
    every other node it panics with the string [unknown node: ] and the
    node, which is no error that Parse could return. *)
Theorem IsEmptyTree_cases :
  forall (L : GoLib) (textFormat : TextFormat),
    IsEmptyTree textFormat (@None (Node L)) = Done true
    /\ (forall c : ContentNode L,
          IsEmptyTree textFormat (Some (NContent c)) = Done true
          <-> Forall (fun n => IsEmptyTree textFormat (Some n) = Done true) (c_Nodes c))
    /\ (forall nt p tr (e : option (ExpressionNode L)) c el,
          IsEmptyTree textFormat (Some (NIf nt p tr e c el)) = Done false
          /\ IsEmptyTree textFormat (Some (NList nt p tr e c el)) = Done false)
    /\ (forall nt p tr txt,
          IsEmptyTree textFormat (Some (@NText L nt p tr txt))
          = Done (len (bytes_TrimSpace txt) =? 0))
    /\ (forall n : Node L,
          match n with
          | NContent _ | NText _ _ _ _ | NIf _ _ _ _ _ _ | NList _ _ _ _ _ _ => True
          | _ => IsEmptyTree textFormat (Some n)
                 = Panic (panic_string ("unknown node: " +:+ Node_String textFormat n))
          end).
Proof.
  intros L textFormat. split; [reflexivity|]. split; [apply IsEmptyTree_Content|].
  split; [intros; split; reflexivity|]. split; [reflexivity|].
  intros n; destruct n; first [exact I | reflexivity].
Qed.

(** On [<#if a> </#if>], with any library: the content of the If node
    is a space and is empty, and IsEmptyTree says false of the If node and
    of the root that holds it. *)
Lemma IsEmptyTree_If_of_space_any (L : GoLib) :
  match Parse L FmtS "t" "<#if a> </#if>" with
  | Returns _ None t _ =>
      Root t = Some (mk_content NodeContent 0 (Some 0%nat) [if_with_space L])
      /\ IsEmptyTree_Root FmtS (Root t) = Done false
  | _ => False
  end
  /\ IsEmptyTree FmtS (Some (if_with_space L)) = Done false
  /\ IsEmptyTree FmtS
       (Some (NContent (mk_content NodeContent 7 (Some 0%nat)
                                   [@NText L NodeText 7 (Some 0%nat) " "])))
     = Done true.
Proof. vm_compute. repeat split. Qed.

(** C9 as it is written fails on [<#if a> </#if>]: an If node whose
    content is only a space does not count as empty. *)
Lemma IsEmptyTree_If_of_space :
  match Parse go_ascii FmtS "t" "<#if a> </#if>" with
  | Returns _ None t _ =>
      Root t = Some (mk_content NodeContent 0 (Some 0%nat) [if_with_space go_ascii])
      /\ IsEmptyTree_Root FmtS (Root t) = Done false
  | _ => False
  end
  /\ IsEmptyTree FmtS (Some (if_with_space go_ascii)) = Done false
  /\ IsEmptyTree FmtS
       (Some (NContent (mk_content NodeContent 7 (Some 0%nat)
                                   [@NText go_ascii NodeText 7 (Some 0%nat) " "])))
     = Done true.
Proof. exact (IsEmptyTree_If_of_space_any go_ascii). Qed.

(** ** Two operators in an expression *)

Section Expression_properties.

Context {L : GoLib}.
Variable self : nat.

Lemma filter_nonspace_cons (its : list item) (tok : item) (more : list item) :
  filter (fun i => nonspace i = true) its = tok :: more ->
  exists sp rest : list item,
    its = (sp ++ tok :: rest)%list
    /\ Forall (fun i => nonspace i = false) sp
    /\ nonspace tok = true
    /\ filter (fun i => nonspace i = true) rest = more.
Proof.
  induction its as [|i its IH]; [discriminate|].
  rewrite filter_cons. destruct (decide (nonspace i = true)) as [Hi|Hi].
  - intros [= -> <-]. exists [], its. repeat split; [constructor | assumption].
  - intros H. destruct (IH H) as (sp & rest & -> & Hsp & Htok & Hrest).
    exists (i :: sp), rest. repeat split; try assumption.
    constructor; [|assumption]. now destruct (nonspace i).
Qed.

Lemma nextNonSpace_loop_feeds (tok : item) (rest sp : list item) :
  Forall (fun i => nonspace i = false) sp ->
  nonspace tok = true ->
  forall (fuel : nat) (t : Tree L) (l : lexer),
    (length sp < fuel)%nat ->
    peekCount t = 0 -> t_lex t = Some l -> lx_items l = (sp ++ tok :: rest)%list ->
    exists t' l',
      nextNonSpace_loop L fuel t = Ok tok t'
      /\ peekCount t' = 0 /\ t_lex t' = Some l' /\ lx_items l' = rest
      /\ ParseName t' = ParseName t /\ fst (fst (token t')) = tok.
Proof.
  intros Hsp Htok. induction Hsp as [|i sp Hi Hsp IH]; intros fuel t l Hf Hpc Hl Hits.
  - destruct fuel as [|fuel]; [simpl in Hf; lia|].
    destruct t as [nm pn rt tx lx [[t0 t1] t2] pc tsf], l as [a b c d e f its g h].
    simpl in *. subst. simpl.
    unfold nonspace in Htok. rewrite Htok.
    do 2 eexists. split; [reflexivity|]. repeat split.
  - destruct fuel as [|fuel]; [simpl in Hf; lia|].
    destruct t as [nm pn rt tx lx [[t0 t1] t2] pc tsf], l as [a b c d e f its g h].
    simpl in *. subst. simpl.
    unfold nonspace in Hi. apply negb_false_iff in Hi. rewrite Hi. simpl.
    edestruct (IH fuel) as (t' & l' & H1 & H2 & H3 & H4 & H5 & H6);
      [lia | | | | do 2 eexists; split; [exact H1|]; repeat split; eassumption];
      reflexivity.
Qed.

(** nextNonSpace gives the first of the tokens that feed the parser. *)
Lemma nextNonSpace_feeds (t : Tree L) (tok : item) (more : list item) :
  feeds t (tok :: more) ->
  exists t',
    nextNonSpace L t = Ok tok t'
    /\ feeds t' more /\ ParseName t' = ParseName t /\ fst (fst (token t')) = tok.
Proof.
  intros (Hpc & l & Hl & Hf).
  destruct (filter_nonspace_cons _ _ _ Hf) as (sp & rest & Hits & Hsp & Htok & Hrest).
  destruct (nextNonSpace_loop_feeds tok rest sp Hsp Htok (S (pending L t)) t l)
    as (t' & l' & H1 & H2 & H3 & H4 & H5 & H6); try assumption.
  - unfold pending. rewrite Hl, Hits, length_app. simpl. lia.
  - exists t'. split; [exact H1|]. split; [|split; assumption].
    split; [assumption|]. exists l'. split; [assumption|]. now rewrite H4.
Qed.

(** One round of the loop of expression on an operand. *)
Lemma expression_loop_operand (t : Tree L) (tok : item) (more : list item) (n : Node L) :
  feeds t (tok :: more) ->
  operand_of L self tok = Some n ->
  exists t',
    feeds t' more /\ ParseName t' = ParseName t
    /\ forall fuel context operatorStack operandStack,
         expression_loop L self (S fuel) context operatorStack operandStack t
         = expression_loop L self fuel context operatorStack (push n operandStack) t'.
Proof.
  intros Hf Hop.
  destruct (nextNonSpace_feeds t tok more Hf) as (t' & Hn & Hf' & Hpn & _).
  exists t'. split; [assumption|]. split; [assumption|].
  intros fuel context operatorStack operandStack.
  cbn [expression_loop]. rewrite Hn. cbn [bind].
  unfold operand_of in Hop.
  destruct (typ tok) eqn:Ety; try discriminate Hop.
  - now injection Hop as <-.
  - now injection Hop as <-.
  - destruct (newNumber L (Some self) (pos tok) (val tok) itemNumber);
      try discriminate Hop. now injection Hop as <-.
  - destruct (newNumber L (Some self) (pos tok) (val tok) itemCharConstant);
      try discriminate Hop. now injection Hop as <-.
  - now injection Hop as <-.
Qed.

(** One round on an operator that does not bind less than the operator
    on top of the stack: it is pushed. *)
Lemma expression_loop_operator_push (t : Tree L) (tok : item) (more : list item)
    (operatorStack : stack item_ptr) (top : item_ptr) :
  feeds t (tok :: more) ->
  is_binary_operator (typ tok) = true ->
  stack_peek operatorStack = Some top ->
  precedence (item_deref top) <= precedence tok ->
  exists t',
    feeds t' more /\ ParseName t' = ParseName t
    /\ forall fuel context operandStack,
         expression_loop L self (S fuel) context operatorStack operandStack t
         = expression_loop L self fuel context (push (ptr_token tok) operatorStack)
                           operandStack t'.
Proof.
  intros Hf Hop Htop Hprec.
  destruct (nextNonSpace_feeds t tok more Hf) as (t' & Hn & Hf' & Hpn & _).
  exists t'. split; [assumption|]. split; [assumption|].
  intros fuel context operandStack.
  cbn [expression_loop]. rewrite Hn. cbn [bind].
  apply Z.leb_le in Hprec.
  destruct (typ tok) eqn:Ety; try discriminate Hop;
    unfold item_eq_interface; rewrite Htop, Hprec; reflexivity.
Qed.

(** The round on the closing token with two operators of tokens on top of
    the stack: the second pop does not give the sentinel, and the engine
    raises the error of [unexpected]. *)
Lemma expression_loop_close_two (t : Tree L) (tok : item) (more : list item)
    (operatorStack s1 s2 : stack item_ptr) (a b : item) :
  feeds t (tok :: more) ->
  is_closer (typ tok) = true ->
  pop operatorStack = (Some (ptr_token a), s1) ->
  pop s1 = (Some (ptr_token b), s2) ->
  exists t',
    Root t' = None
    /\ forall fuel context operandStack,
         expression_loop L self (S fuel) context operatorStack operandStack t
         = Raised (unexpected_error t tok context) t'.
Proof.
  intros Hf Hcl Hp1 Hp2.
  destruct (nextNonSpace_feeds t tok more Hf) as (t' & Hn & Hf' & Hpn & Htk).
  exists (set_Root None t'). split; [reflexivity|].
  intros fuel context operandStack.
  cbn [expression_loop]. rewrite Hn. cbn [bind].
  destruct (typ tok) eqn:Ety; try discriminate Hcl;
    rewrite Hp1; cbn [is_lowestPrecOperator]; rewrite Hp2; cbn [is_lowestPrecOperator negb];
    unfold unexpected, Tree_errorf, unexpected_error, token_get;
    destruct t' as [nm pn rt tx lx [[t0 t1] t2] pc tsf]; simpl in *; subst; reflexivity.
Qed.

Lemma precedence_binary_operator (tok : item) :
  is_binary_operator (typ tok) = true -> 0 <= precedence tok.
Proof. unfold precedence. destruct (typ tok); simpl; intros; try discriminate; lia. Qed.

End Expression_properties.



(** With any library: an expression with two operators of the same
    precedence whose first operand is the character constant ['ab'].  The
    engine makes the operand before it reads an operator, and Parse
    returns the error of the constant. *)
Lemma Parse_malformed_operand_any (L : GoLib) :
  lx_items <$> lex L "t" "${'ab' == 1 == 2}"
  = Some [mk_item itemLeftInterpolation 0 "${" 1;
          mk_item itemCharConstant 2 "'ab'" 1; mk_item itemSpace 6 " " 1;
          mk_item itemEq 7 "==" 1; mk_item itemSpace 9 " " 1;
          mk_item itemNumber 10 "1" 1; mk_item itemSpace 11 " " 1;
          mk_item itemEq 12 "==" 1; mk_item itemSpace 14 " " 1;
          mk_item itemNumber 15 "2" 1;
          mk_item itemRightInterpolation 16 "}" 1;
          mk_item itemEOF 17 EmptyString 1]
  /\ returned_error (Parse L FmtS "t" "${'ab' == 1 == 2}")
     = Some "template: t:1: malformed character constant: 'ab'".
Proof. split; vm_compute; reflexivity. Qed.


(** Parse on expressions with two operators, with any library: the
    error [unexpected] of the closing token for two comparisons and for a
    comparison followed by a field access; and for the two inputs with +
    and *, for which the scanner has no rule, the error [unexpected] of
    the error item of the scanner. *)
Example Parse_two_operators (L : GoLib) :
  returned_error (Parse L FmtS "t" "${a == b == c}")
  = Some ("template: t:1: unexpected " +:+ dq +:+ "}" +:+ dq +:+ " in interpolation")
  /\ returned_error (Parse L FmtS "t" "<#if a == b.c>x</#if>")
     = Some ("template: t:1: unexpected " +:+ dq +:+ ">" +:+ dq +:+ " in if")
  /\ returned_error (Parse L FmtS "t" "${1+2+3}")
     = Some ("template: t:1: unexpected bad number syntax: " +:+ dq +:+ "1+2" +:+ dq
             +:+ " in interpolation")
  /\ returned_error (Parse L FmtS "t" "${a+b*c}")
     = Some "template: t:1: unexpected bad character U+002B '+' in interpolation".
Proof. repeat split; vm_compute; reflexivity. Qed.

(** An operator that binds less than the one before it: the engine
    combines twice with the same operator on top of the stack, and the
    second time the operand stack gives nil. *)
Example Parse_lower_operator_panics (L : GoLib) :
  Parse L FmtS "t" "${a.b == c}"
  = Panics (runtime_Error "interface conversion: interface is nil, not parse.Node").
Proof. vm_compute; reflexivity. Qed.

(** ErrorContext on the If node of the test [simple if] and on the node
    of the copy: the location and the context cut to 20 characters. *)
Example ErrorContext_simple_if (L : GoLib) :
  match test_Parse L FmtQ "simple if"
                   "<#if a == b>true content</#if>following content" with
  | Returns _ _ t _ =>
      let heap : gmap nat (Tree L) := {[ 0%nat := t ]} in
      (ErrorContext FmtQ heap t <$> Tree_node_at [0%nat] t)
      = Some (Done ("simple if:1:11", "<#if b==a>" +:+ dq +:+ "true cont..."))
      /\ (ErrorContext FmtQ heap (Tree_Copy t) <$> Tree_node_at [0%nat] (Tree_Copy t))
         = Some (Done ("simple if:1:11", "<#if b==a>" +:+ dq +:+ "true cont..."))
  | _ => False
  end.
Proof. vm_compute. split; reflexivity. Qed.

(** ** The stack of the expression engine *)

Section Stack_properties.

Context {A : Type}.

Lemma stack_list_push (e : A) (s : stack A) :
  stack_wf s ->
  stack_wf (push e s) /\ stack_list (push e s) = (stack_list s ++ [e])%list.
Proof.
  unfold stack_wf, stack_list, push. destruct s as [its c]. cbn [items count].
  intros [H0 H1].
  assert (Hlen : length (take (Z.to_nat c) its) = Z.to_nat c)
    by (rewrite length_take; lia).
  split.
  - rewrite length_app, Hlen. simpl. lia.
  - replace (Z.to_nat (c + 1)) with (length (take (Z.to_nat c) its ++ [e]))
      by (rewrite length_app, Hlen; simpl; lia).
    apply firstn_all.
Qed.

Lemma pop_stack_list (s : stack A) (l : list A) (e : A) :
  stack_wf s ->
  stack_list s = (l ++ [e])%list ->
  fst (pop s) = Some e /\ stack_wf (snd (pop s)) /\ stack_list (snd (pop s)) = l.
Proof.
  unfold stack_wf, stack_list, pop. destruct s as [its c]. cbn [items count].
  intros [H0 H1] Hl.
  assert (Hc : Z.to_nat c = S (length l)).
  { apply (f_equal (@length A)) in Hl. rewrite length_take, length_app in Hl.
    simpl in Hl. lia. }
  destruct (c =? 0) eqn:E; [apply Z.eqb_eq in E; lia|].
  cbn [fst snd items count].
  replace (Z.to_nat (c - 1)) with (length l) by lia.
  split; [|split].
  - assert (H : take (Z.to_nat c) its !! length l = Some e)
      by (rewrite Hl; apply list_lookup_middle; reflexivity).
    rewrite lookup_take_lt in H by lia. exact H.
  - lia.
  - apply (f_equal (take (length l))) in Hl.
    rewrite take_take, Hc in Hl.
    replace (length l `min` S (length l))%nat with (length l) in Hl by lia.
    rewrite Hl. rewrite take_app_length. reflexivity.
Qed.

Lemma pop_empty (s : stack A) :
  stack_wf s -> stack_list s = [] -> pop s = (None, s) /\ stack_peek s = None.
Proof.
  unfold stack_wf, stack_list, pop, stack_peek. destruct s as [its c].
  cbn [items count]. intros [H0 H1] Hl.
  assert (c = 0).
  { apply (f_equal (@length A)) in Hl. rewrite length_take in Hl. simpl in Hl. lia. }
  subst. split; reflexivity.
Qed.

Lemma stack_peek_list (s : stack A) (l : list A) (e : A) :
  stack_wf s -> stack_list s = (l ++ [e])%list -> stack_peek s = Some e.
Proof.
  intros Hwf Hl. destruct (pop_stack_list s l e Hwf Hl) as [Hp _].
  unfold pop in Hp. unfold stack_peek. destruct (count s =? 0); [discriminate|].
  exact Hp.
Qed.

Lemma stack_wf_empty : stack_wf (@stack_empty A) /\ stack_list (@stack_empty A) = [].
Proof. split; [unfold stack_wf; simpl; lia | reflexivity]. Qed.

Lemma push_all_list (l : list A) :
  forall s : stack A,
    stack_wf s ->
    stack_wf (push_all l s) /\ stack_list (push_all l s) = (stack_list s ++ l)%list.
Proof.
  induction l as [|e l IH]; intros s Hwf.
  - split; [assumption|]. simpl. now rewrite app_nil_r.
  - destruct (stack_list_push e s Hwf) as [Hwf' Hl'].
    destruct (IH (push e s) Hwf') as [Hwf'' Hl''].
    split; [assumption|]. cbn [push_all fold_left]. unfold push_all in Hl''.
    rewrite Hl'', Hl'. now rewrite <- app_assoc.
Qed.

Lemma pop_n_list (l : list A) :
  forall (s : stack A) (base : list A),
    stack_wf s ->
    stack_list s = (base ++ l)%list ->
    fst (pop_n (length l) s) = map Some (rev l)
    /\ stack_wf (snd (pop_n (length l) s))
    /\ stack_list (snd (pop_n (length l) s)) = base.
Proof.
  induction l as [|e l IH] using rev_ind; intros s base Hwf Hl.
  - simpl. rewrite app_nil_r in Hl. split; [reflexivity|]. split; assumption.
  - rewrite length_app, Nat.add_comm. cbn [length Nat.add pop_n].
    rewrite app_assoc in Hl.
    destruct (pop_stack_list s (base ++ l) e Hwf Hl) as (Hp & Hwf' & Hl').
    destruct (pop s) as [x s'] eqn:E. cbn [fst snd] in *. subst x.
    destruct (IH s' base Hwf' Hl') as (H1 & H2 & H3).
    destruct (pop_n (length l) s') as [xs s''] eqn:E'. cbn [fst snd] in *.
    rewrite rev_app_distr. simpl. rewrite H1. split; [reflexivity|]. split; assumption.
Qed.

End Stack_properties.

(** X1: on a stack whose count is a length within its slice, push and
    then pop gives back the element pushed and leaves what the stack held
    before; peek after push gives the element without taking it; and pop
    and peek on a stack that holds nothing give nil and leave it as it
    is. *)
Theorem stack_push_pop :
  forall (A : Type) (e : A) (s : stack A),
    stack_wf s ->
    fst (pop (push e s)) = Some e
    /\ stack_peek (push e s) = Some e
    /\ stack_wf (snd (pop (push e s)))
    /\ stack_list (snd (pop (push e s))) = stack_list s
    /\ (stack_list s = [] -> pop s = (None, s) /\ stack_peek s = None).
Proof.
  intros A e s Hwf.
  destruct (stack_list_push e s Hwf) as [Hwf' Hl].
  destruct (pop_stack_list (push e s) (stack_list s) e Hwf' Hl) as (H1 & H2 & H3).
  split; [exact H1|]. split; [exact (stack_peek_list _ _ _ Hwf' Hl)|].
  split; [exact H2|]. split; [exact H3|]. apply pop_empty, Hwf.
Qed.

Lemma stack_push_pop_witness :
  let s : stack Z := mk_stack [1; 2; 3] 2 in
  fst (pop (push 7 s)) = Some 7
  /\ stack_peek (push 7 s) = Some 7
  /\ stack_wf (snd (pop (push 7 s)))
  /\ stack_list (snd (pop (push 7 s))) = stack_list s
  /\ (stack_list s = [] -> pop s = (None, s) /\ stack_peek s = None).
Proof.
  intros s. apply (stack_push_pop Z 7 s). unfold stack_wf, s; simpl; lia.
Defined.

(** X2: the elements pushed one after the other on a stack come back
    from as many calls of pop in the opposite order, and the stack then
    holds what it held before. *)
Theorem stack_pops_reverse_pushes :
  forall (A : Type) (l : list A) (s : stack A),
    stack_wf s ->
    fst (pop_n (length l) (push_all l s)) = map Some (rev l)
    /\ stack_list (snd (pop_n (length l) (push_all l s))) = stack_list s.
Proof.
  intros A l s Hwf.
  destruct (push_all_list l s Hwf) as [Hwf' Hl].
  destruct (pop_n_list l (push_all l s) (stack_list s) Hwf' Hl) as (H1 & _ & H3).
  split; assumption.
Qed.

Lemma stack_pops_reverse_pushes_witness :
  let s : stack Z := mk_stack [] 0 in
  fst (pop_n 3 (push_all [1; 2; 3] s)) = [Some 3; Some 2; Some 1]
  /\ stack_list (snd (pop_n 3 (push_all [1; 2; 3] s))) = stack_list s.
Proof.
  intros s. apply (stack_pops_reverse_pushes Z [1; 2; 3] s).
  unfold stack_wf, s; simpl; lia.
Defined.

(** ** The lookahead of the parser *)

Section Lookahead_properties.

Context {L : GoLib}.

Lemma token_get_set_0 (t : Tree L) (i : item) : token_get L (token_set L 0 i t) 0 = Some i.
Proof. destruct t as [nm pn rt tx lx [[t0 t1] t2] pc tsf]. reflexivity. Qed.

Lemma Tree_next_backup (t t1 : Tree L) (i : item) :
  Tree_next L t = Ok i t1 ->
  Tree_next L (Tree_backup L t1) = Ok i t1
  /\ Tree_peek L (Tree_backup L t1) = Ok i (Tree_backup L t1).
Proof.
  destruct t as [nm pn rt tx lx [[t0 t1'] t2] pc tsf].
  unfold Tree_next, Tree_peek, Tree_backup. cbn [peekCount set_peekCount t_lex].
  destruct (0 <? pc) eqn:E.
  - apply Z.ltb_lt in E.
    destruct (token_get L _ (pc - 1)) as [j|] eqn:G; [|discriminate].
    intros [= <- <-]. cbn [peekCount set_peekCount].
    replace (pc - 1 + 1) with pc by lia.
    replace (0 <? pc) with true by (symmetry; apply Z.ltb_lt; lia).
    unfold token_get in *. cbn [token set_peekCount peekCount] in *.
    rewrite G. split; reflexivity.
  - apply Z.ltb_ge in E.
    destruct lx as [l|]; [|discriminate].
    destruct (nextItem l) as [j l'].
    unfold token_set, set_lex, set_token, token_get.
    cbn [token peekCount Name ParseName Root text t_lex treeSet].
    replace (0 =? 0) with true by reflexivity.
    cbn [token peekCount].
    destruct (pc =? 0) eqn:E0.
    + apply Z.eqb_eq in E0. subst pc. intros [= <- <-].
      cbn [peekCount set_peekCount token]. split; reflexivity.
    + destruct (pc =? 1) eqn:E1; [apply Z.eqb_eq in E1; lia|].
      destruct (pc =? 2) eqn:E2; [apply Z.eqb_eq in E2; lia|]. discriminate.
Qed.

Lemma Tree_peek_next (t : Tree L) (l : lexer) :
  t_lex t = Some l ->
  peekCount t = 0 ->
  exists t1,
    Tree_peek L t = Ok (fst (nextItem l)) t1
    /\ Tree_peek L t1 = Ok (fst (nextItem l)) t1
    /\ Tree_next L t1 = Tree_next L t.
Proof.
  destruct t as [nm pn rt tx lx [[t0 t1'] t2] pc tsf]. cbn [t_lex peekCount].
  intros -> ->. unfold Tree_peek, Tree_next. cbn [peekCount set_peekCount t_lex].
  destruct (nextItem l) as [j l']. cbn [fst].
  eexists. split; [reflexivity|]. split; reflexivity.
Qed.

Lemma token_get_in_range (t : Tree L) (k : Z) :
  0 <= k <= 2 -> exists j, token_get L t k = Some j.
Proof.
  intros Hk. unfold token_get. destruct (token t) as [[t0 t1] t2].
  destruct (k =? 0) eqn:E0; [eauto|]. destruct (k =? 1) eqn:E1; [eauto|].
  destruct (k =? 2) eqn:E2; [eauto|].
  apply Z.eqb_neq in E0, E1, E2. lia.
Qed.

(** The rounds that nextNonSpace_loop is given are enough. *)
Lemma nextNonSpace_loop_total (n : nat) :
  forall (fuel : nat) (t : Tree L) (l : lexer),
    t_lex t = Some l -> 0 <= peekCount t <= 3 ->
    pending L t = n -> (n < fuel)%nat ->
    exists tok t' l',
      nextNonSpace_loop L fuel t = Ok tok t'
      /\ nonspace tok = true /\ t_lex t' = Some l' /\ 0 <= peekCount t' <= 3.
Proof.
  induction n as [n IH] using lt_wf_ind. intros fuel t l Hl Hpc Hn Hf.
  destruct fuel as [|fuel]; [lia|].
  cbn [nextNonSpace_loop]. unfold Tree_next.
  destruct (0 <? peekCount t) eqn:E.
  - apply Z.ltb_lt in E.
    destruct (token_get_in_range (set_peekCount (peekCount t - 1) t) (peekCount t - 1))
      as [j Hj]; [lia|].
    cbn [peekCount set_peekCount]. rewrite Hj. cbn [bind].
    destruct (negb (itemType_eqb (typ j) itemSpace)) eqn:Ej.
    + exists j, (set_peekCount (peekCount t - 1) t), l.
      split; [reflexivity|]. split; [exact Ej|].
      destruct t; cbn in *. split; [assumption | lia].
    + apply (IH (pending L (set_peekCount (peekCount t - 1) t))) with (l := l).
      * subst n. unfold pending. destruct t; cbn in *. subst. lia.
      * destruct t; cbn in *; assumption.
      * destruct t; cbn in *; lia.
      * reflexivity.
      * subst n. unfold pending in *. destruct t; cbn in *. subst. lia.
  - apply Z.ltb_ge in E. assert (Hz : peekCount t = 0) by lia.
    rewrite Hl. destruct (nextItem l) as [j l1] eqn:Hni.
    assert (Hpend : (pending L (token_set L 0 j (set_lex (Some l1) t))
                     = length (lx_items l1))%nat).
    { unfold pending. destruct t as [nm pn rt tx lx [[t0 t1'] t2] pc tsf].
      cbn in *. subst. reflexivity. }
    assert (Hst : t_lex (token_set L 0 j (set_lex (Some l1) t)) = Some l1
                  /\ peekCount (token_set L 0 j (set_lex (Some l1) t)) = 0).
    { destruct t as [nm pn rt tx lx [[t0 t1'] t2] pc tsf]. cbn in *. subst.
      split; reflexivity. }
    destruct Hst as [Hst1 Hst2].
    rewrite Hst2, token_get_set_0. cbn [bind].
    destruct (negb (itemType_eqb (typ j) itemSpace)) eqn:Ej.
    + exists j, (token_set L 0 j (set_lex (Some l1) t)), l1.
      split; [reflexivity|]. split; [exact Ej|]. split; [assumption|]. lia.
    + unfold nextItem in Hni. destruct (lx_items l) as [|i rest] eqn:Hits.
      * injection Hni as <- <-. discriminate Ej.
      * injection Hni as <- <-.
        apply (IH (length rest)) with (l := set_lastPos (pos i) (set_items rest l)).
        -- subst n. unfold pending. rewrite Hl, Hits, Hz. simpl. lia.
        -- assumption.
        -- lia.
        -- rewrite Hpend. reflexivity.
        -- subst n. unfold pending in Hf. rewrite Hl, Hits, Hz in Hf. simpl in Hf. lia.
Qed.

End Lookahead_properties.

(** X3: a token that next has returned and backup has put back is the
    token that the following next, and the following peek, return, and
    after that next the parser is as it was after the first: no further
    item is taken from the scanner. *)
Theorem next_backup_next :
  forall (L : GoLib) (t t1 : Tree L) (i : item),
    Tree_next L t = Ok i t1 ->
    Tree_next L (Tree_backup L t1) = Ok i t1
    /\ Tree_peek L (Tree_backup L t1) = Ok i (Tree_backup L t1).
Proof. intros L t t1 i. apply Tree_next_backup. Qed.

Lemma next_backup_next_witness :
  let t := parser_after go_ascii 0 "${a}" in
  let i := mk_item itemLeftInterpolation 0 "${" 1 in
  let t1 := parser_after go_ascii 1 "${a}" in
  Tree_next go_ascii (Tree_backup go_ascii t1) = Ok i t1
  /\ Tree_peek go_ascii (Tree_backup go_ascii t1) = Ok i (Tree_backup go_ascii t1).
Proof.
  intros t i t1. apply (next_backup_next go_ascii t t1 i). vm_compute. reflexivity.
Defined.

(** X4: with no token pending, peek returns the first item of the
    scanner (the zero item once the channel is closed); a second peek
    returns it again and changes nothing; and next after peek is next
    without it. *)
Theorem peek_then_next :
  forall (L : GoLib) (t : Tree L) (l : lexer),
    t_lex t = Some l ->
    peekCount t = 0 ->
    exists t1 : Tree L,
      Tree_peek L t = Ok (fst (nextItem l)) t1
      /\ Tree_peek L t1 = Ok (fst (nextItem l)) t1
      /\ Tree_next L t1 = Tree_next L t.
Proof. intros L t l. apply Tree_peek_next. Qed.

Lemma peek_then_next_witness :
  let t := parser_after go_ascii 0 "${a}" in
  exists t1 : Tree go_ascii,
    Tree_peek go_ascii t = Ok (mk_item itemLeftInterpolation 0 "${" 1) t1
    /\ Tree_peek go_ascii t1 = Ok (mk_item itemLeftInterpolation 0 "${" 1) t1
    /\ Tree_next go_ascii t1 = Tree_next go_ascii t.
Proof.
  intros t.
  destruct (peek_then_next go_ascii t (lexer_of t))
    as [t1 H]; [vm_compute; reflexivity | reflexivity |].
  exists t1. exact H.
Defined.

(** X5: on a parser that holds its scanner, with a count of pending
    tokens that the lookahead allows, nextNonSpace returns a token, and
    the token is no space: the rounds it is given are enough, since every
    round takes a pending token or an item, and the closed channel gives
    the zero item, which is no space. *)
Theorem nextNonSpace_returns_nonspace :
  forall (L : GoLib) (t : Tree L) (l : lexer),
    t_lex t = Some l ->
    0 <= peekCount t <= 3 ->
    exists (tok : item) (t' : Tree L),
      nextNonSpace L t = Ok tok t' /\ typ tok <> itemSpace.
Proof.
  intros L t l Hl Hpc.
  destruct (nextNonSpace_loop_total (pending L t) (S (pending L t)) t l Hl Hpc eq_refl)
    as (tok & t' & l' & H1 & H2 & _); [lia|].
  exists tok, t'. split; [exact H1|].
  intros Heq. unfold nonspace in H2. rewrite Heq in H2. discriminate.
Qed.

Lemma nextNonSpace_returns_nonspace_witness :
  exists (tok : item) (t' : Tree go_ascii),
    nextNonSpace go_ascii (parser_after go_ascii 3 "<#if  a>") = Ok tok t'
    /\ typ tok <> itemSpace.
Proof.
  apply (nextNonSpace_returns_nonspace go_ascii (parser_after go_ascii 3 "<#if  a>")
           (lexer_of (parser_after go_ascii 3 "<#if  a>"))).
  - vm_compute. reflexivity.
  - vm_compute. split; discriminate.
Defined.

(** ** The expression engine, by the shape of the expression *)

Section Expression_rounds.

Context {L : GoLib}.
Variable self : nat.

Lemma nextNonSpace_feeds_nonspace (t : Tree L) (tok : item) (more : list item) :
  feeds t (tok :: more) ->
  exists t',
    nextNonSpace L t = Ok tok t'
    /\ feeds t' more /\ ParseName t' = ParseName t /\ fst (fst (token t')) = tok
    /\ nonspace tok = true.
Proof.
  intros Hf. destruct (nextNonSpace_feeds t tok more Hf) as (t' & H1 & H2 & H3 & H4).
  exists t'. repeat (split; [assumption|]).
  destruct Hf as (_ & l & _ & Hfl).
  destruct (filter_nonspace_cons _ _ _ Hfl) as (sp & rest & _ & _ & Htok & _).
  exact Htok.
Qed.

(** The token that was read last is read again after backup. *)
Lemma nextNonSpace_backup (t' : Tree L) (tok : item) (more : list item) :
  feeds t' more -> fst (fst (token t')) = tok -> nonspace tok = true ->
  nextNonSpace L (Tree_backup L t') = Ok tok t'.
Proof.
  intros (Hpc & l & Hl & _) Htok Hns.
  destruct t' as [nm pn rt tx lx [[t0 t1] t2] pc tsf]. cbn in Hpc, Hl, Htok. subst.
  unfold nextNonSpace, pending, Tree_backup. cbn [peekCount set_peekCount].
  cbn [Pos.to_nat Z.to_nat Z.add Pos.iter_op Nat.add nextNonSpace_loop].
  unfold Tree_next. cbn [peekCount set_peekCount].
  change (0 <? 0 + 1) with true. change (0 + 1 - 1) with 0.
  unfold token_get. cbn [token set_peekCount Z.eqb bind].
  unfold nonspace in Hns. rewrite Hns. reflexivity.
Qed.

Ltac by_token_type H :=
  match type of H with
  | _ (typ ?tok) = _ => destruct (typ tok) eqn:?; try discriminate H
  end.

Lemma round_operand (t t' : Tree L) (tok : item) (n : Node L) :
  nextNonSpace L t = Ok tok t' ->
  operand_of L self tok = Some n ->
  forall fuel context operatorStack operandStack,
    expression_loop L self (S fuel) context operatorStack operandStack t
    = expression_loop L self fuel context operatorStack (push n operandStack) t'.
Proof.
  intros Hn Hop fuel context operatorStack operandStack.
  cbn [expression_loop]. rewrite Hn. cbn [bind].
  unfold operand_of in Hop.
  destruct (typ tok) eqn:Ety; try discriminate Hop.
  - now injection Hop as <-.
  - now injection Hop as <-.
  - destruct (newNumber L (Some self) (pos tok) (val tok) itemNumber);
      try discriminate Hop. now injection Hop as <-.
  - destruct (newNumber L (Some self) (pos tok) (val tok) itemCharConstant);
      try discriminate Hop. now injection Hop as <-.
  - now injection Hop as <-.
Qed.

Lemma round_operator_push (t t' : Tree L) (tok : item)
    (operatorStack : stack item_ptr) (top : item_ptr) :
  nextNonSpace L t = Ok tok t' ->
  is_binary_operator (typ tok) = true ->
  stack_peek operatorStack = Some top ->
  precedence (item_deref top) <= precedence tok ->
  forall fuel context operandStack,
    expression_loop L self (S fuel) context operatorStack operandStack t
    = expression_loop L self fuel context (push (ptr_token tok) operatorStack)
                      operandStack t'.
Proof.
  intros Hn Hop Htop Hprec fuel context operandStack.
  cbn [expression_loop]. rewrite Hn. cbn [bind].
  apply Z.leb_le in Hprec.
  destruct (typ tok) eqn:Ety; try discriminate Hop;
    unfold item_eq_interface; rewrite Htop, Hprec; reflexivity.
Qed.

(** The round on an operator that binds less than the one on top of the
    stack: the two operands on top are combined under the operator on
    top, which stays where it is, and the token is put back. *)
Lemma round_operator_combine (t t' : Tree L) (tok : item)
    (operatorStack : stack item_ptr) (top : item_ptr)
    (operandStack s1 s2 : stack (Node L)) (a b : Node L) :
  nextNonSpace L t = Ok tok t' ->
  is_binary_operator (typ tok) = true ->
  stack_peek operatorStack = Some top ->
  precedence tok < precedence (item_deref top) ->
  pop operandStack = (Some a, s1) ->
  pop s1 = (Some b, s2) ->
  forall fuel context,
    expression_loop L self (S fuel) context operatorStack operandStack t
    = expression_loop L self fuel context operatorStack
        (push (NExpression
                 (mk_expression NodeExpression (pos tok) (Some self)
                                (typ (item_deref top)) [a; b])) s2)
        (Tree_backup L t').
Proof.
  intros Hn Hop Htop Hprec Hp1 Hp2 fuel context.
  cbn [expression_loop]. rewrite Hn. cbn [bind].
  assert (Hlt : (precedence (item_deref top) <=? precedence tok) = false)
    by (apply Z.leb_gt; exact Hprec).
  destruct (typ tok) eqn:Ety; try discriminate Hop;
    unfold item_eq_interface; rewrite Htop, Hlt, Hp1, Hp2; reflexivity.
Qed.

(** The same round with a single operand on the stack: the second pop
    gives nil, and the type assertion on it is a run-time error. *)
Lemma round_operator_combine_one (t t' : Tree L) (tok : item)
    (operatorStack : stack item_ptr) (top : item_ptr)
    (operandStack s1 s2 : stack (Node L)) (a : Node L) :
  nextNonSpace L t = Ok tok t' ->
  is_binary_operator (typ tok) = true ->
  stack_peek operatorStack = Some top ->
  precedence tok < precedence (item_deref top) ->
  pop operandStack = (Some a, s1) ->
  pop s1 = (None, s2) ->
  forall fuel context,
    expression_loop L self (S fuel) context operatorStack operandStack t
    = nil_not_Node L.
Proof.
  intros Hn Hop Htop Hprec Hp1 Hp2 fuel context.
  cbn [expression_loop]. rewrite Hn. cbn [bind].
  assert (Hlt : (precedence (item_deref top) <=? precedence tok) = false)
    by (apply Z.leb_gt; exact Hprec).
  destruct (typ tok) eqn:Ety; try discriminate Hop;
    unfold item_eq_interface; rewrite Htop, Hlt, Hp1, Hp2; reflexivity.
Qed.

Lemma round_close_single (t t' : Tree L) (tok : item)
    (operatorStack s1 : stack item_ptr) (operandStack s2 : stack (Node L))
    (a : option (Node L)) :
  nextNonSpace L t = Ok tok t' ->
  is_closer (typ tok) = true ->
  pop operatorStack = (Some ptr_lowestPrecOperator, s1) ->
  pop operandStack = (a, s2) ->
  forall fuel context,
    expression_loop L self (S fuel) context operatorStack operandStack t
    = match a with
      | Some a => Ok (single_expression self tok a) t'
      | None => nil_not_Node L
      end.
Proof.
  intros Hn Hcl Hp1 Hp2 fuel context.
  cbn [expression_loop]. rewrite Hn. cbn [bind].
  destruct (typ tok) eqn:Ety; try discriminate Hcl;
    rewrite Hp1; cbn [is_lowestPrecOperator]; rewrite Hp2; destruct a; reflexivity.
Qed.

Lemma round_close_binary (t t' : Tree L) (tok op : item)
    (operatorStack s1 s2 : stack item_ptr) (operandStack s3 s4 : stack (Node L))
    (a b : Node L) :
  nextNonSpace L t = Ok tok t' ->
  is_closer (typ tok) = true ->
  pop operatorStack = (Some (ptr_token op), s1) ->
  pop s1 = (Some ptr_lowestPrecOperator, s2) ->
  pop operandStack = (Some a, s3) ->
  pop s3 = (Some b, s4) ->
  forall fuel context,
    expression_loop L self (S fuel) context operatorStack operandStack t
    = Ok (binary_expression self tok op a b) t'.
Proof.
  intros Hn Hcl Hp1 Hp2 Hp3 Hp4 fuel context.
  cbn [expression_loop]. rewrite Hn. cbn [bind].
  destruct (typ tok) eqn:Ety; try discriminate Hcl;
    rewrite Hp1; cbn [is_lowestPrecOperator]; rewrite Hp2;
    cbn [is_lowestPrecOperator negb]; rewrite Hp3, Hp4; reflexivity.
Qed.

Lemma round_unexpected (t t' : Tree L) (tok : item) :
  nextNonSpace L t = Ok tok t' ->
  ParseName t' = ParseName t -> fst (fst (token t')) = tok ->
  is_expression_token (typ tok) = false ->
  forall fuel context operatorStack operandStack,
    expression_loop L self (S fuel) context operatorStack operandStack t
    = Raised (unexpected_error t tok context) (set_Root None t').
Proof.
  intros Hn Hpn Htk Hty fuel context operatorStack operandStack.
  cbn [expression_loop]. rewrite Hn. cbn [bind].
  destruct (typ tok) eqn:Ety; try discriminate Hty;
    unfold unexpected, Tree_errorf, unexpected_error, token_get;
    destruct t' as [nm pn rt tx lx [[t0 t1] t2] pc tsf]; simpl in *; subst; reflexivity.
Qed.

Lemma round_bad_number (t t' : Tree L) (tok : item) (err : string) :
  nextNonSpace L t = Ok tok t' ->
  ParseName t' = ParseName t -> fst (fst (token t')) = tok ->
  typ tok = itemNumber \/ typ tok = itemCharConstant ->
  newNumber L (Some self) (pos tok) (val tok) (typ tok) = number_err L err ->
  forall fuel context operatorStack operandStack,
    expression_loop L self (S fuel) context operatorStack operandStack t
    = Raised (mk_error (ParseName t) (line tok) err) (set_Root None t').
Proof.
  intros Hn Hpn Htk Hty Herr fuel context operatorStack operandStack.
  cbn [expression_loop]. rewrite Hn. cbn [bind].
  destruct Hty as [Hty|Hty]; rewrite Hty in *; rewrite Herr;
    unfold Tree_errorf, token_get;
    destruct t' as [nm pn rt tx lx [[t0 t1] t2] pc tsf]; simpl in *; subst; reflexivity.
Qed.

Lemma operand_of_not_expression (tok : item) (n : Node L) :
  operand_of L self tok = Some n -> is_expression L n = false.
Proof.
  unfold operand_of. destruct (typ tok); try discriminate.
  - now intros [= <-].
  - now intros [= <-].
  - destruct (newNumber L _ _ _ _); try discriminate. now intros [= <-].
  - destruct (newNumber L _ _ _ _); try discriminate. now intros [= <-].
  - now intros [= <-].
Qed.

End Expression_rounds.

(** X6: an expression of one operand before the closing token.  The
    engine returns the expression node of the sentinel operator with the
    operand as its only element, at the position of the closing token,
    which it has consumed: the parser goes on with the tokens after
    it. *)
Theorem expression_single_operand :
  forall (L : GoLib) (self : nat) (context : string) (t : Tree L)
         (x closer : item) (more : list item) (nx : Node L) (fuel : nat),
    feeds t (x :: closer :: more) ->
    operand_of L self x = Some nx ->
    is_closer (typ closer) = true ->
    (2 <= fuel)%nat ->
    exists t' : Tree L,
      expression self fuel context t = Ok (single_expression self closer nx) t'
      /\ feeds t' more.
Proof.
  intros L self context t x closer more nx fuel Hf Hx Hcl Hfuel.
  do 2 (destruct fuel as [|fuel]; [lia|]).
  destruct (nextNonSpace_feeds t x _ Hf) as (t1 & Hn1 & Hf1 & _).
  destruct (nextNonSpace_feeds t1 closer _ Hf1) as (t2 & Hn2 & Hf2 & _).
  exists t2. split; [|assumption]. unfold expression.
  rewrite (round_operand self t t1 x nx Hn1 Hx).
  erewrite (round_close_single self t1 t2 closer) by (eassumption || reflexivity).
  reflexivity.
Qed.

Lemma expression_single_operand_witness :
  exists t' : Tree go_ascii,
    expression 0%nat 2 "interpolation" (parser_after go_ascii 1 "${ abc }")
    = Ok (single_expression 0%nat (mk_item itemRightInterpolation 7 "}" 1)
                            (NIdentifier NodeIdentifier 3 (Some 0%nat) "abc")) t'
      /\ feeds t' [mk_item itemEOF 8 EmptyString 1].
Proof.
  apply (expression_single_operand go_ascii 0%nat "interpolation"
           (parser_after go_ascii 1 "${ abc }")
           (mk_item itemIdentifier 3 "abc" 1) (mk_item itemRightInterpolation 7 "}" 1)
           [mk_item itemEOF 8 EmptyString 1]
           (NIdentifier NodeIdentifier 3 (Some 0%nat) "abc") 2%nat).
  - split; [reflexivity|]. eexists. split; vm_compute; reflexivity.
  - reflexivity.
  - reflexivity.
  - apply le_n.
Defined.

(** X7: an expression of two operands and one operator.  The engine
    returns the expression node of the operator, at the position of the
    closing token, with the right operand first and the left one second,
    as pop gives them; the node prints as the right operand, the
    operator and the left operand. *)
Theorem expression_one_operator :
  forall (L : GoLib) (textFormat : TextFormat) (self : nat) (context : string)
         (t : Tree L) (x op y closer : item) (more : list item)
         (nx ny : Node L) (fuel : nat),
    feeds t (x :: op :: y :: closer :: more) ->
    operand_of L self x = Some nx ->
    operand_of L self y = Some ny ->
    is_binary_operator (typ op) = true ->
    is_closer (typ closer) = true ->
    (4 <= fuel)%nat ->
    exists t' : Tree L,
      expression self fuel context t = Ok (binary_expression self closer op ny nx) t'
      /\ feeds t' more
      /\ Node_String textFormat (NExpression (binary_expression self closer op ny nx))
         = Node_String textFormat ny +:+ itemType_String (typ op)
           +:+ Node_String textFormat nx.
Proof.
  intros L textFormat self context t x op y closer more nx ny fuel
         Hf Hx Hy Hop Hcl Hfuel.
  do 4 (destruct fuel as [|fuel]; [lia|]).
  destruct (nextNonSpace_feeds t x _ Hf) as (t1 & Hn1 & Hf1 & _).
  destruct (nextNonSpace_feeds t1 op _ Hf1) as (t2 & Hn2 & Hf2 & _).
  destruct (nextNonSpace_feeds t2 y _ Hf2) as (t3 & Hn3 & Hf3 & _).
  destruct (nextNonSpace_feeds t3 closer _ Hf3) as (t4 & Hn4 & Hf4 & _).
  exists t4. split; [|split; [assumption|]].
  - unfold expression.
    rewrite (round_operand self t t1 x nx Hn1 Hx).
    erewrite (round_operator_push self t1 t2 op)
      by (eassumption || reflexivity || exact (precedence_binary_operator op Hop)).
    rewrite (round_operand self t2 t3 y ny Hn3 Hy).
    erewrite (round_close_binary self t3 t4 closer op) by (eassumption || reflexivity).
    reflexivity.
  - unfold binary_expression. cbn [Node_String e_Nodes e_operator map].
    rewrite (operand_of_not_expression self x nx Hx),
            (operand_of_not_expression self y ny Hy).
    reflexivity.
Qed.

Lemma expression_one_operator_witness :
  exists t' : Tree go_ascii,
    expression 0%nat 4 "if" (parser_after go_ascii 2 "<#if a == b>")
    = Ok (binary_expression 0%nat (mk_item itemCloseDirective 11 ">" 1)
            (mk_item itemEq 7 "==" 1)
            (NIdentifier NodeIdentifier 10 (Some 0%nat) "b")
            (NIdentifier NodeIdentifier 5 (Some 0%nat) "a")) t'
    /\ feeds t' [mk_item itemEOF 12 EmptyString 1]
    /\ Node_String FmtS
         (NExpression
            (binary_expression 0%nat (mk_item itemCloseDirective 11 ">" 1)
               (mk_item itemEq 7 "==" 1)
               (NIdentifier NodeIdentifier 10 (Some 0%nat) "b")
               (@NIdentifier go_ascii NodeIdentifier 5 (Some 0%nat) "a")))
       = Node_String FmtS (@NIdentifier go_ascii NodeIdentifier 10 (Some 0%nat) "b")
         +:+ itemType_String itemEq
         +:+ Node_String FmtS (@NIdentifier go_ascii NodeIdentifier 5 (Some 0%nat) "a").
Proof.
  apply (expression_one_operator go_ascii FmtS 0%nat "if"
           (parser_after go_ascii 2 "<#if a == b>")
           (mk_item itemIdentifier 5 "a" 1) (mk_item itemEq 7 "==" 1)
           (mk_item itemIdentifier 10 "b" 1) (mk_item itemCloseDirective 11 ">" 1)
           [mk_item itemEOF 12 EmptyString 1]
           (NIdentifier NodeIdentifier 5 (Some 0%nat) "a")
           (NIdentifier NodeIdentifier 10 (Some 0%nat) "b") 4%nat).
  - split; [reflexivity|]. eexists. split; vm_compute; reflexivity.
  - reflexivity.
  - reflexivity.
  - reflexivity.
  - reflexivity.
  - apply le_n.
Defined.

(** X8: an operator that binds less than the operator before it.  The
    engine combines the two operands under the operator on top of the
    stack without popping it and reads the token again; it then combines
    once more, with a single operand on the stack, and the type assertion
    on the nil that the second pop gives is a run-time panic: no tree and
    no error comes back, whatever follows. *)
Theorem expression_lower_operator_panics :
  forall (L : GoLib) (self : nat) (context : string) (t : Tree L)
         (x op1 y op2 : item) (more : list item) (nx ny : Node L) (fuel : nat),
    feeds t (x :: op1 :: y :: op2 :: more) ->
    operand_of L self x = Some nx ->
    operand_of L self y = Some ny ->
    is_binary_operator (typ op1) = true ->
    is_binary_operator (typ op2) = true ->
    precedence op2 < precedence op1 ->
    (5 <= fuel)%nat ->
    expression self fuel context t
    = Panicked (runtime_Error "interface conversion: interface is nil, not parse.Node").
Proof.
  intros L self context t x op1 y op2 more nx ny fuel Hf Hx Hy Ho1 Ho2 Hprec Hfuel.
  do 5 (destruct fuel as [|fuel]; [lia|]).
  destruct (nextNonSpace_feeds t x _ Hf) as (t1 & Hn1 & Hf1 & _).
  destruct (nextNonSpace_feeds t1 op1 _ Hf1) as (t2 & Hn2 & Hf2 & _).
  destruct (nextNonSpace_feeds t2 y _ Hf2) as (t3 & Hn3 & Hf3 & _).
  destruct (nextNonSpace_feeds_nonspace t3 op2 _ Hf3) as (t4 & Hn4 & Hf4 & _ & Htk & Hns).
  unfold expression.
  rewrite (round_operand self t t1 x nx Hn1 Hx).
  erewrite (round_operator_push self t1 t2 op1)
    by (eassumption || reflexivity || exact (precedence_binary_operator op1 Ho1)).
  rewrite (round_operand self t2 t3 y ny Hn3 Hy).
  erewrite (round_operator_combine self t3 t4 op2 _ (ptr_token op1))
    by (eassumption || reflexivity).
  erewrite (round_operator_combine_one self (Tree_backup L t4) t4 op2 _ (ptr_token op1))
    by (eassumption || reflexivity
        || exact (nextNonSpace_backup t4 op2 more Hf4 Htk Hns)).
  reflexivity.
Qed.

Lemma expression_lower_operator_panics_witness :
  expression 0%nat 5 "interpolation" (parser_after go_ascii 1 "${a.b == c}")
  = Panicked (runtime_Error "interface conversion: interface is nil, not parse.Node").
Proof.
  apply (expression_lower_operator_panics go_ascii 0%nat "interpolation"
           (parser_after go_ascii 1 "${a.b == c}")
           (mk_item itemIdentifier 2 "a" 1) (mk_item itemDot 3 "." 1)
           (mk_item itemIdentifier 4 "b" 1) (mk_item itemEq 6 "==" 1)
           [mk_item itemIdentifier 9 "c" 1; mk_item itemRightInterpolation 10 "}" 1;
            mk_item itemEOF 11 EmptyString 1]
           (NIdentifier NodeIdentifier 2 (Some 0%nat) "a")
           (NIdentifier NodeIdentifier 4 (Some 0%nat) "b") 5%nat).
  - split; [reflexivity|]. eexists. split; vm_compute; reflexivity.
  - reflexivity.
  - reflexivity.
  - reflexivity.
  - reflexivity.
  - reflexivity.
  - apply le_n.
Defined.





(** ** What a call of the parser leaves of the tree *)

Section Frame.

Context {L : GoLib}.
Variable textFormat : TextFormat.
Variable self : nat.

Lemma same_frame_refl (t : Tree L) : same_frame t t.
Proof. repeat split. Qed.

Lemma same_frame_trans (t t1 t2 : Tree L) :
  same_frame t t1 -> same_frame t1 t2 -> same_frame t t2.
Proof.
  intros (A1 & A2 & A3 & A4) (B1 & B2 & B3 & B4).
  repeat split; congruence.
Qed.

Lemma keeps_from {A : Type} (t t0 : Tree L) (r : res L A) :
  same_frame t t0 -> Root t0 = Root t -> keeps t0 r -> keeps t r.
Proof.
  intros Hf Hr. destruct r as [a t'|e t'| |]; simpl; trivial.
  - intros [Hf' Hr']. split; [eapply same_frame_trans; eassumption | congruence].
  - intros (Hf' & Hr' & He).
    split; [eapply same_frame_trans; eassumption|]. split; [assumption|].
    destruct Hf as (_ & Hpn & _). congruence.
Qed.

Lemma keeps_bind {A B : Type} (t : Tree L) (m : res L A) (k : A -> Tree L -> res L B) :
  keeps t m ->
  (forall a t1, keeps t1 (k a t1)) ->
  keeps t (bind m k).
Proof.
  intros Hm Hk. destruct m as [a t1|e t1| |]; simpl in *; trivial.
  destruct Hm as [Hf Hr]. exact (keeps_from t t1 (k a t1) Hf Hr (Hk a t1)).
Qed.

Lemma keeps_Ok {A : Type} (t : Tree L) (a : A) : keeps t (Ok a t).
Proof. split; [apply same_frame_refl | reflexivity]. Qed.

Lemma keeps_errorf {A : Type} (msg : string) (t : Tree L) :
  keeps t (@Tree_errorf L A msg t).
Proof.
  unfold Tree_errorf, token_get.
  destruct t as [nm pn rt tx lx [[t0 t1] t2] pc tsf]. simpl. repeat split.
Qed.

Lemma keeps_unexpected {A : Type} (tok : item) (context : string) (t : Tree L) :
  keeps t (@unexpected L A tok context t).
Proof. apply keeps_errorf. Qed.

Lemma keeps_next (t : Tree L) : keeps t (Tree_next L t).
Proof.
  unfold Tree_next. destruct t as [nm pn rt tx lx [[t0 t1] t2] pc tsf].
  cbn [peekCount set_peekCount t_lex].
  destruct (0 <? pc).
  - unfold token_get. cbn [token set_peekCount].
    destruct (pc - 1 =? 0); [repeat split|]. destruct (pc - 1 =? 1); [repeat split|].
    destruct (pc - 1 =? 2); [repeat split | exact I].
  - destruct lx as [l|]; [|exact I]. destruct (nextItem l) as [j l'].
    unfold token_get, token_set, set_lex, set_token. cbn.
    destruct (pc =? 0); [repeat split|]. destruct (pc =? 1); [repeat split|].
    destruct (pc =? 2); [repeat split | exact I].
Qed.

Lemma keeps_peek (t : Tree L) : keeps t (Tree_peek L t).
Proof.
  unfold Tree_peek. destruct t as [nm pn rt tx lx [[t0 t1] t2] pc tsf].
  cbn [peekCount set_peekCount t_lex].
  destruct (0 <? pc).
  - unfold token_get. cbn [token].
    destruct (pc - 1 =? 0); [repeat split|]. destruct (pc - 1 =? 1); [repeat split|].
    destruct (pc - 1 =? 2); [repeat split | exact I].
  - destruct lx as [l|]; [|exact I]. destruct (nextItem l) as [j l'].
    repeat split.
Qed.

Lemma keeps_backup {A : Type} (t : Tree L) (r : res L A) :
  keeps (Tree_backup L t) r -> keeps t r.
Proof.
  apply keeps_from; destruct t; [repeat split | reflexivity].
Qed.

Lemma keeps_nextNonSpace_loop (fuel : nat) :
  forall t : Tree L, keeps t (nextNonSpace_loop L fuel t).
Proof.
  induction fuel as [|fuel IH]; intros t; [exact I|].
  cbn [nextNonSpace_loop]. apply keeps_bind; [apply keeps_next|].
  intros tok t1. destruct (negb _); [apply keeps_Ok | apply IH].
Qed.

Lemma keeps_nextNonSpace (t : Tree L) : keeps t (nextNonSpace L t).
Proof. apply keeps_nextNonSpace_loop. Qed.

Lemma keeps_peekNonSpace (t : Tree L) : keeps t (peekNonSpace L t).
Proof.
  unfold peekNonSpace. apply keeps_bind; [apply keeps_nextNonSpace|].
  intros tok t1. apply keeps_backup, keeps_Ok.
Qed.

Lemma keeps_expect (ty : itemType) (context : string) (t : Tree L) :
  keeps t (expect L ty context t).
Proof.
  unfold expect. apply keeps_bind; [apply keeps_nextNonSpace|].
  intros tok t1. destruct (negb _); [apply keeps_unexpected | apply keeps_Ok].
Qed.

Lemma keeps_expression_loop (fuel : nat) :
  forall context operatorStack operandStack (t : Tree L),
    keeps t (expression_loop L self fuel context operatorStack operandStack t).
Proof.
  induction fuel as [|fuel IH]; intros context operatorStack operandStack t; [exact I|].
  cbn [expression_loop]. apply keeps_bind; [apply keeps_nextNonSpace|].
  intros tok t1.
  destruct (typ tok);
    repeat first
      [ apply IH
      | apply keeps_unexpected
      | apply keeps_errorf
      | apply keeps_Ok
      | exact I
      | apply keeps_backup; apply IH
      | match goal with
        | |- keeps _ (let '(_, _) := ?p in _) => destruct p
        | |- keeps _ (match ?x with _ => _ end) => destruct x
        end ].
Qed.

Lemma keeps_expression (fuel : nat) (context : string) (t : Tree L) :
  keeps t (expression self fuel context t).
Proof. apply keeps_expression_loop. Qed.

Lemma keeps_elseControl (t : Tree L) : keeps t (elseControl L self t).
Proof.
  unfold elseControl. apply keeps_bind; [apply keeps_peekNonSpace|].
  intros pk t1. destruct (itemType_eqb _ _); [apply keeps_Ok|].
  apply keeps_bind; [apply keeps_expect|]. intros tok t2. apply keeps_Ok.
Qed.

Lemma keeps_parser (fuel : nat) :
  (forall t : Tree L, keeps t (textOrInterpolationOrDirective textFormat self fuel t))
  /\ (forall t : Tree L, keeps t (directive L textFormat self fuel t))
  /\ (forall t : Tree L, keeps t (ifControl L textFormat self fuel t))
  /\ (forall allowElseIf context (t : Tree L),
        keeps t (parseControl L textFormat self fuel allowElseIf context t))
  /\ (forall t : Tree L, keeps t (itemContent L textFormat self fuel t))
  /\ (forall content (t : Tree L),
        keeps t (itemContent_loop L textFormat self fuel content t)).
Proof.
  induction fuel as [|fuel (IH1 & IH2 & IH3 & IH4 & IH5 & IH6)];
    [repeat split; intros; exact I|].
  split; [|split; [|split; [|split; [|split]]]].
  - intros t. cbn [textOrInterpolationOrDirective].
    apply keeps_bind; [apply keeps_nextNonSpace|]. intros tok t1.
    destruct (typ tok); try apply keeps_unexpected.
    + apply keeps_Ok.
    + unfold interpolation. apply keeps_bind; [apply keeps_expression|].
      intros; apply keeps_Ok.
    + apply IH2.
    + apply keeps_bind; [apply keeps_next|]. intros tok1 t2.
      apply keeps_bind; [apply keeps_next|]. intros tok2 t3. apply keeps_Ok.
  - intros t. cbn [directive].
    apply keeps_bind; [apply keeps_nextNonSpace|]. intros tok t1.
    destruct (typ tok);
      first [ apply keeps_bind; [apply IH3 | intros; apply keeps_Ok]
            | apply keeps_elseControl
            | apply keeps_backup; apply keeps_bind; [apply keeps_peek|];
              intros; apply keeps_Ok ].
  - intros t. cbn [ifControl].
    apply keeps_bind; [apply IH4|]. intros [[[p e] c] el] t1. apply keeps_Ok.
  - intros allowElseIf context t. cbn [parseControl].
    apply keeps_bind; [apply keeps_expression|]. intros expr t1.
    apply keeps_bind; [apply IH5|]. intros [list next] t2.
    destruct (NodeType_eqb (Node_Type next) nodeEnd); [apply keeps_Ok|].
    destruct (NodeType_eqb (Node_Type next) nodeElse); [|apply keeps_Ok].
    assert (Hplain : forall t3 : Tree L,
               keeps t3
                 (bind (itemContent L textFormat self fuel t3)
                    (fun r t =>
                       let '(elseList, next0) := r in
                       if negb (NodeType_eqb (Node_Type next0) nodeEnd)
                       then Tree_errorf L
                              ("expected end; found " +:+ Node_String textFormat next0) t
                       else Ok (e_Pos expr, expr, list, Some elseList) t))).
    { intros t3. apply keeps_bind; [apply IH5|]. intros [el nx] t4.
      destruct (negb _); [apply keeps_errorf | apply keeps_Ok]. }
    destruct allowElseIf; [|apply Hplain].
    apply keeps_bind; [apply keeps_peek|]. intros pk t3.
    destruct (itemType_eqb (typ pk) itemDirectiveIf); [|apply Hplain].
    apply keeps_bind; [apply keeps_next|]. intros x t4.
    apply keeps_bind; [apply IH3|]. intros n t5. apply keeps_Ok.
  - intros t. cbn [itemContent].
    apply keeps_bind; [apply keeps_peekNonSpace|]. intros pk t1. apply IH6.
  - intros content t. cbn [itemContent_loop].
    apply keeps_bind; [apply keeps_peekNonSpace|]. intros pk t1.
    destruct (negb _); [|apply keeps_errorf].
    apply keeps_bind; [apply IH1|]. intros [n|] t2; [|exact I].
    destruct (is_end_or_else _); [apply keeps_Ok | apply IH6].
Qed.

End Frame.

Section Parse_results.

Context {L : GoLib}.
Variable textFormat : TextFormat.
Variable self : nat.

Lemma ends_from {A : Type} (t t0 : Tree L) (r : res L A) :
  same_frame t t0 -> ends t0 r -> ends t r.
Proof.
  intros Hf. destruct r as [a t'|e t'| |]; simpl; trivial.
  - intros [Hf' Hr']. split; [eapply same_frame_trans; eassumption | assumption].
  - intros (Hf' & Hr' & He).
    split; [eapply same_frame_trans; eassumption|]. split; [assumption|].
    destruct Hf as (_ & Hpn & _). congruence.
Qed.

Lemma ends_bind {A B : Type} (t : Tree L) (m : res L A) (k : A -> Tree L -> res L B) :
  keeps t m ->
  (forall a t1, Root t1 = Root t -> ends t1 (k a t1)) ->
  ends t (bind m k).
Proof.
  intros Hm Hk. destruct m as [a t1|e t1| |]; simpl in *; trivial.
  destruct Hm as [Hf Hr]. exact (ends_from t t1 (k a t1) Hf (Hk a t1 Hr)).
Qed.

Lemma ends_errorf {A : Type} (msg : string) (t : Tree L) :
  ends t (@Tree_errorf L A msg t).
Proof.
  unfold Tree_errorf, token_get.
  destruct t as [nm pn rt tx lx [[t0 t1] t2] pc tsf]. simpl. repeat split.
Qed.

Lemma ends_parse_loop (fuel : nat) :
  forall t : Tree L, is_Some (Root t) -> ends t (parse_loop L textFormat self fuel t).
Proof.
  induction fuel as [|fuel IH]; intros t Hroot; [exact I|].
  cbn [parse_loop]. apply ends_bind; [apply keeps_peek|]. intros pk t1 Hr1.
  destruct (negb _).
  - apply ends_bind; [apply (keeps_parser textFormat self fuel)|]. intros [n|] t2 Hr2;
      [|exact I].
    destruct (is_end_or_else _); [apply ends_errorf|].
    destruct (Root t2) as [root|] eqn:Hroot2; [|exact I].
    eapply ends_from; [|apply IH].
    + destruct t2; repeat split.
    + destruct t2; simpl; eauto.
  - simpl. split; [apply same_frame_refl|]. now rewrite Hr1.
Qed.

Lemma ends_parse (fuel : nat) (t : Tree L) : ends t (parse L textFormat self fuel t).
Proof.
  unfold parse. apply ends_bind; [apply keeps_peek|]. intros pk t1 _.
  eapply ends_from; [|apply ends_parse_loop].
  - destruct t1; repeat split.
  - destruct t1; simpl; eauto.
Qed.

End Parse_results.

(** What a returning call of Tree.Parse leaves behind, from the frame
    that parse keeps and the cases of add. *)
Lemma Tree_Parse_leaves :
  forall (L : GoLib) (textFormat : TextFormat) (self : nat) (heap : gmap nat (Tree L))
         (t : Tree L) (input : string) (ts : gmap string treePtr)
         (tree : option nat) (err : option parse_error) (t' : Tree L)
         (ts' : gmap string treePtr),
    Tree_Parse textFormat self heap t input ts = Returns tree err t' ts' ->
    Parse_leaves self t input ts tree err t' ts'.
Proof.
  intros L textFormat self heap t input ts tree err t' ts'. unfold Tree_Parse.
  destruct (lex L (Name (set_ParseName (Name t) t)) input) as [l|]; [|discriminate].
  set (t0 := set_text input (startParse (Some l) ts (set_ParseName (Name t) t))).
  assert (H0 : Name t0 = Name t /\ ParseName t0 = Name t /\ text t0 = input
               /\ treeSet t0 = Some ts) by (destruct t; repeat split).
  destruct H0 as (N0 & P0 & X0 & S0).
  pose proof (ends_parse textFormat self (parse_fuel input) t0) as Hp.
  destruct (parse L textFormat self (parse_fuel input) t0) as [[] t1|e t1|p|];
    cbn [bind].
  - destruct Hp as [(N1 & P1 & X1 & S1) R1].
    unfold add. rewrite S1, S0.
    assert (Hinstall :
              Returns (Some self) None
                (stopParse L (set_treeSet (Some (<[Name t1 := Some self]> ts)) t1))
                (treeSet_of L (set_treeSet (Some (<[Name t1 := Some self]> ts)) t1) ts)
              = Returns tree err t' ts' ->
              Parse_leaves self t input ts tree err t' ts').
    { intros [= <- <- <- <-]. unfold Parse_leaves. destruct t1. simpl in *. subst.
      repeat split; auto. }
    destruct (ts !! Name t1) as [[p|]|] eqn:Els; [|exact Hinstall|exact Hinstall].
    destruct (deref_tree L self heap p t1) as [bound|]; [|discriminate].
    destruct (IsEmptyTree_Root textFormat (Root bound)) as [[|]|pv];
      [exact Hinstall | | destruct pv; discriminate].
    destruct (IsEmptyTree_Root textFormat (Root t1)) as [[|]|pv];
      [ | | destruct pv; discriminate].
    + intros [= <- <- <- <-]. unfold treeSet_of, Parse_leaves. rewrite S1, S0.
      rewrite N1, N0 in Els.
      destruct t1. simpl in *. subst. repeat split; auto.
      intros Hnone. rewrite Hnone in Els. discriminate.
    + unfold Tree_errorf, token_get. destruct (token (set_Root None t1)) as [[a b] c].
      cbn [Z.eqb]. intros [= <- <- <- <-]. unfold treeSet_of, Parse_leaves.
      destruct t1. simpl in *. subst. repeat split; auto.
  - destruct Hp as ((N1 & P1 & X1 & S1) & R1 & E1).
    intros [= <- <- <- <-]. unfold treeSet_of, Parse_leaves. rewrite S1, S0.
    destruct t1. simpl in *. subst. repeat split; auto.
  - destruct p; discriminate.
  - discriminate.
Qed.





(** ** Empty trees *)

Section Empty_properties.

Context {L : GoLib}.
Variable textFormat : TextFormat.

Lemma IsEmptyTree_plain_Root (self : nat) (input : string) :
  IsEmptyTree_Root textFormat (Some (plain_Root L self input))
  = Done (len (bytes_TrimSpace input) =? 0).
Proof.
  destruct input as [|a s]; [reflexivity|].
  unfold plain_Root. replace (0 <? len (String a s)) with true by reflexivity.
  cbn [IsEmptyTree_Root IsEmptyTree IsEmptyTree_node c_Nodes].
  destruct (len (bytes_TrimSpace (String a s)) =? 0); reflexivity.
Qed.

Lemma IsEmptyTree_node_Copy (n : Node L) :
  IsEmptyTree_node textFormat (Node_Copy n) = IsEmptyTree_node textFormat n.
Proof.
  induction n as [n IH] using Node_children_ind.
  destruct n as [c| | e| | | | nt p tr node fields | | | | | |
                 nt p tr e c el | nt p tr e c el];
    try reflexivity;
    try (cbn [Node_Copy IsEmptyTree_node newNil newBool newString newEnd newElse];
         f_equal; f_equal; f_equal;
         match goal with
         | |- Node_String _ ?a = Node_String _ ?b =>
             exact (Node_String_Copy textFormat b)
         end).
  - destruct c as [nt p tr nodes]. cbn [Node_children c_Nodes] in IH.
    cbn [Node_Copy IsEmptyTree_node c_Nodes c_Pos c_tr].
    induction IH as [|x rest Hx _ IHrest]; [reflexivity|].
    cbn [map]. rewrite Hx. destruct (IsEmptyTree_node textFormat x) as [[|]|]; auto.
Qed.

End Empty_properties.

(** X13: a text without markers parses to a tree that IsEmptyTree calls
    empty exactly when the text, trimmed of space, has length zero; the
    call does not panic. *)
Theorem IsEmptyTree_of_text :
  forall (L : GoLib) (textFormat : TextFormat) (name input : string),
    strings_Index input leftInterpolation = -1 ->
    strings_Index input leftComment = -1 ->
    strings_Index input startDirective = -1 ->
    strings_Index input endDirective = -1 ->
    exists t : Tree L,
      Parse L textFormat name input = Returns (Some 0%nat) None t {[ name := Some 0%nat ]}
      /\ IsEmptyTree_Root textFormat (Root t) = Done (len (bytes_TrimSpace input) =? 0).
Proof.
  intros L textFormat name input H1 H2 H3 H4.
  assert (Hm : no_marker input) by (repeat split; assumption).
  exists (plain_Tree L 0 name input). split.
  - unfold Parse.
    rewrite (Tree_Parse_no_marker L textFormat 0 ∅ name input input ∅ Hm
               (lookup_empty name)).
    reflexivity.
  - apply IsEmptyTree_plain_Root.
Qed.

Lemma IsEmptyTree_of_text_witness :
  exists t : Tree go_ascii,
    Parse go_ascii FmtS "root" "  hello " = Returns (Some 0%nat) None t
                                                    {[ "root" := Some 0%nat ]}
    /\ IsEmptyTree_Root FmtS (Root t) = Done (len (bytes_TrimSpace "  hello ") =? 0).
Proof.
  apply (IsEmptyTree_of_text go_ascii FmtS "root" "  hello "); reflexivity.
Defined.

(** bytes.TrimSpace on the texts of the test TestIsEmpty. *)
Example TrimSpace_examples :
  bytes_TrimSpace "  hello " = "hello"
  /\ bytes_TrimSpace (String (ascii_of_N 32) (String (ascii_of_N 9)
                        (String (ascii_of_N 10) EmptyString))) = EmptyString.
Proof. split; reflexivity. Qed.

(** X14: IsEmptyTree says of the copy of a node, and of the root of the
    copy of a tree, what it says of the node, and of the root of the
    tree: the same answer or the same panic. *)
Theorem IsEmptyTree_Copy :
  forall (L : GoLib) (textFormat : TextFormat) (n : Node L) (t : Tree L),
    IsEmptyTree textFormat (Some (Node_Copy n)) = IsEmptyTree textFormat (Some n)
    /\ IsEmptyTree_Root textFormat (Root (Tree_Copy t))
       = IsEmptyTree_Root textFormat (Root t).
Proof.
  intros L textFormat n t. split.
  - apply IsEmptyTree_node_Copy.
  - destruct t as [nm pn [root|] tx lx tk pc ts]; [|reflexivity].
    exact (IsEmptyTree_node_Copy textFormat (NContent root)).
Qed.

(** ** The items the scanner sends *)

Section Scanner_items.

Context {L : GoLib}.

Lemma sends_on_same (l0 l l' : lexer) :
  sends_on l0 l -> lx_items l' = lx_items l -> sends_on l0 l'.
Proof. intros (new & H1 & H2) E. exists new. rewrite E. auto. Qed.

Lemma sends_on_here (l l' : lexer) : lx_items l' = lx_items l -> sends_on l l'.
Proof.
  intros E. exists []. rewrite E, app_nil_r. split; [reflexivity | constructor].
Qed.

Lemma sends_on_emit (l0 l : lexer) (ty : itemType) :
  sends_on l0 l -> ty <> itemEOF -> ty <> itemError -> sends_on l0 (emit ty l).
Proof.
  intros (new & H1 & H2) Hy1 Hy2. eexists (new ++ [_])%list. split.
  - cbn. rewrite H1, <- app_assoc. reflexivity.
  - apply Forall_app. split; [assumption|]. constructor; [|constructor].
    unfold is_last. cbn [typ]. destruct ty; congruence.
Qed.

Lemma sends_last_emit (l0 l : lexer) : sends_on l0 l -> sends_last l0 (emit itemEOF l).
Proof.
  intros (new & H1 & H2). eexists new, _. split; [|split; [assumption|]].
  - cbn. rewrite H1, <- app_assoc. reflexivity.
  - reflexivity.
Qed.

Lemma sends_last_errorf (l0 l : lexer) (msg : string) :
  sends_on l0 l -> call_sends l0 (errorf msg l).
Proof.
  intros (new & H1 & H2). eexists new, _. split; [|split; [assumption|]].
  - cbn. rewrite H1, <- app_assoc. reflexivity.
  - reflexivity.
Qed.

Lemma sends_on_trans (l0 l1 l2 : lexer) :
  sends_on l0 l1 -> sends_on l1 l2 -> sends_on l0 l2.
Proof.
  intros (n1 & H1 & F1) (n2 & H2 & F2). exists (n1 ++ n2)%list. split.
  - rewrite H2, H1, <- app_assoc. reflexivity.
  - apply Forall_app. auto.
Qed.

Lemma sends_last_trans (l0 l1 l2 : lexer) :
  sends_on l0 l1 -> sends_last l1 l2 -> sends_last l0 l2.
Proof.
  intros (n1 & H1 & F1) (n2 & x & H2 & F2 & Hx). exists (n1 ++ n2)%list, x.
  split; [|split; [|assumption]].
  - rewrite H2, H1, <- !app_assoc. reflexivity.
  - apply Forall_app. auto.
Qed.

(** The calls that send nothing. *)
Lemma next_items (l : lexer) : lx_items (snd (next l)) = lx_items l.
Proof.
  unfold next. destruct (len (lx_input l) <=? lx_pos l); [reflexivity|].
  destruct (utf8_DecodeRuneInString _) as [r w]. cbn.
  destruct (r =? 10); reflexivity.
Qed.

Lemma backup_items (l : lexer) : lx_items (backup l) = lx_items l.
Proof. unfold backup. destruct (_ && _); reflexivity. Qed.

Lemma peek_items (l : lexer) : lx_items (snd (peek l)) = lx_items l.
Proof.
  unfold peek. pose proof (next_items l) as H. destruct (next l) as [r l1].
  cbn [snd] in *. rewrite backup_items. exact H.
Qed.

Lemma accept_items (valid : string) (l : lexer) :
  lx_items (snd (accept valid l)) = lx_items l.
Proof.
  unfold accept. pose proof (next_items l) as H. destruct (next l) as [r l1].
  cbn [snd] in H. destruct (strings_ContainsRune valid r); cbn [snd];
    rewrite ?backup_items; exact H.
Qed.

Lemma atTerminator_items (l : lexer) : lx_items (snd (atTerminator l)) = lx_items l.
Proof.
  unfold atTerminator. pose proof (peek_items l) as H. destruct (peek l) as [r l1].
  cbn [snd] in H. destruct (_ || _); [exact H|]. destruct (_ || _); exact H.
Qed.

Lemma acceptRun_loop_items (valid : string) (fuel : nat) :
  forall l l', acceptRun_loop fuel valid l = Some l' -> lx_items l' = lx_items l.
Proof.
  induction fuel as [|fuel IH]; intros l l'; [discriminate|]. cbn [acceptRun_loop].
  pose proof (next_items l) as H. destruct (next l) as [r l1]. cbn [snd] in H.
  destruct (strings_ContainsRune valid r).
  - intros E. rewrite (IH _ _ E). exact H.
  - intros [= <-]. rewrite backup_items. exact H.
Qed.

Lemma acceptRun_items (valid : string) (l l' : lexer) :
  acceptRun valid l = Some l' -> lx_items l' = lx_items l.
Proof. apply acceptRun_loop_items. Qed.

Lemma lexSpace_loop_items (fuel : nat) :
  forall l l', lexSpace_loop fuel l = Some l' -> lx_items l' = lx_items l.
Proof.
  induction fuel as [|fuel IH]; intros l l'; [discriminate|]. cbn [lexSpace_loop].
  pose proof (peek_items l) as H. destruct (peek l) as [r l1]. cbn [snd] in H.
  destruct (isSpace r).
  - intros E. rewrite (IH _ _ E), next_items. exact H.
  - intros [= <-]. exact H.
Qed.

Lemma lexQuoted_loop_items (q : Z) (fuel : nat) :
  forall l b l', lexQuoted_loop fuel q l = Some (b, l') -> lx_items l' = lx_items l.
Proof.
  induction fuel as [|fuel IH]; intros l b l'; [discriminate|]. cbn [lexQuoted_loop].
  pose proof (next_items l) as H. destruct (next l) as [r l1]. cbn [snd] in H.
  destruct (r =? 92).
  - pose proof (next_items l1) as H1. destruct (next l1) as [r2 l2]. cbn [snd] in H1.
    destruct (negb (r2 =? eof) && negb (r2 =? 10)).
    + intros E. rewrite (IH _ _ _ E). congruence.
    + intros [= <- <-]. congruence.
  - destruct ((r =? eof) || (r =? 10)); [intros [= <- <-]; exact H|].
    destruct (r =? q); [intros [= <- <-]; exact H|].
    intros E. rewrite (IH _ _ _ E). exact H.
Qed.

Lemma scanNumber_items (l : lexer) (b : bool) (l' : lexer) :
  scanNumber L l = Some (b, l') -> lx_items l' = lx_items l.
Proof.
  unfold scanNumber.
  pose proof (accept_items "+-" l) as H1. destruct (accept "+-" l) as [x1 l1].
  pose proof (accept_items "0" l1) as H2. destruct (accept "0" l1) as [z l2].
  cbn [snd] in *.
  assert (H3 : forall hex l3, (if z then accept "xX" l2 else (false, l2)) = (hex, l3) ->
                              lx_items l3 = lx_items l).
  { intros hex l3. destruct z.
    - intros E. pose proof (accept_items "xX" l2) as H. rewrite E in H. cbn [snd] in H.
      congruence.
    - intros [= <- <-]. congruence. }
  destruct (if z then accept "xX" l2 else (false, l2)) as [hex l3].
  specialize (H3 hex l3 eq_refl).
  set (digits := if hex then "0123456789abcdefABCDEF" else "0123456789").
  destruct (acceptRun digits l3) as [l4|] eqn:E4; [|discriminate].
  apply acceptRun_items in E4. cbn [mbind option_bind].
  pose proof (accept_items "." l4) as H5. destruct (accept "." l4) as [dot l5].
  cbn [snd] in H5.
  destruct (if dot then acceptRun digits l5 else Some l5) as [l6|] eqn:E6; [|discriminate].
  assert (H6 : lx_items l6 = lx_items l5).
  { destruct dot; [apply acceptRun_items in E6; exact E6 | congruence]. }
  cbn [mbind option_bind].
  pose proof (accept_items "eE" l6) as H7. destruct (accept "eE" l6) as [e l7].
  cbn [snd] in H7.
  destruct (if e then acceptRun "0123456789" (snd (accept "+-" l7)) else Some l7)
    as [l8|] eqn:E8; [|discriminate].
  assert (H8 : lx_items l8 = lx_items l7).
  { destruct e; [|congruence]. apply acceptRun_items in E8. rewrite E8.
    apply accept_items. }
  cbn [mbind option_bind].
  pose proof (accept_items "i" l8) as H9. destruct (accept "i" l8) as [x9 l9].
  cbn [snd] in H9.
  pose proof (peek_items l9) as H10. destruct (peek l9) as [r l10]. cbn [snd] in H10.
  destruct (isAlphaNumeric L r); intros [= <- <-]; rewrite ?next_items; congruence.
Qed.

Ltac keep_items :=
  cbn [lx_items set_pos set_start set_width set_lastPos set_parenDepth set_line
       ignore fst snd];
  rewrite ?backup_items, ?next_items, ?peek_items; try reflexivity; try congruence.

Ltac on_here := apply sends_on_here; keep_items.

Ltac on_emit :=
  apply sends_on_emit; [on_here | discriminate | discriminate].

(** The state functions. *)
Lemma lexText_sends (l : lexer) : call_sends l (lexText l).
Proof.
  unfold lexText, call_sends.
  repeat match goal with
         | |- context [if ?b then _ else _] =>
             match type of b with bool => destruct b end
         end; cbn [fst snd];
    first [ on_emit | on_here | apply sends_last_emit; first [on_emit | on_here] ].
Qed.

Lemma lexInterpolation_sends (l : lexer) : call_sends l (lexInterpolation l).
Proof. unfold lexInterpolation, call_sends. cbn [fst snd]. on_emit. Qed.

Lemma lexComment_sends (l : lexer) : call_sends l (lexComment l).
Proof.
  unfold lexComment. destruct (_ <? 0).
  - apply sends_last_errorf. on_here.
  - unfold call_sends. cbn [fst snd]. on_here.
Qed.

Lemma lexDirective_sends (l : lexer) : call_sends l (lexDirective l).
Proof.
  unfold lexDirective, call_sends. cbn [fst snd].
  set (l1 := if strings_HasPrefix (slice_from (lx_input l) (lx_pos l)) startDirective
             then emit itemStartDirective (set_pos (lx_pos l + len startDirective) l)
             else l).
  assert (H1 : sends_on l l1).
  { subst l1. destruct (strings_HasPrefix _ startDirective); [on_emit | on_here]. }
  clearbody l1. apply (sends_on_trans l l1); [exact H1|].
  destruct (strings_HasPrefix _ endDirective); [on_emit | on_here].
Qed.

Lemma sends_on_set_parenDepth (l0 l : lexer) (v : Z) :
  sends_on l0 l -> sends_on l0 (set_parenDepth v l).
Proof. intros H. eapply sends_on_same; [exact H | reflexivity]. Qed.

Lemma sends_on_backup (l0 l : lexer) : sends_on l0 l -> sends_on l0 (backup l).
Proof. intros H. eapply sends_on_same; [exact H | apply backup_items]. Qed.

Ltac on_from H :=
  first [ exact H
        | apply sends_on_backup; exact H
        | apply sends_on_emit; [exact H | discriminate | discriminate]
        | apply sends_on_set_parenDepth;
          apply sends_on_emit; [exact H | discriminate | discriminate] ].

Lemma lexExpression_sends (l : lexer) : call_sends l (lexExpression L l).
Proof.
  unfold lexExpression. pose proof (next_items l) as H. destruct (next l) as [r l1].
  cbn [snd] in H.
  assert (H1 : sends_on l l1) by (apply sends_on_here; exact H).
  repeat match goal with
         | |- context [if ?b then _ else _] =>
             match type of b with bool => destruct b end
         end;
    first [ apply sends_last_errorf; on_from H1
          | unfold call_sends; cbn [fst snd]; on_from H1 ].
Qed.

Lemma lexSpace_sends (l : lexer) (r : lexer * option stateFn) :
  lexSpace l = Some r -> call_sends l r.
Proof.
  unfold lexSpace. destruct (lexSpace_loop _ l) as [l1|] eqn:E; [|discriminate].
  apply lexSpace_loop_items in E. intros [= <-]. unfold call_sends. cbn [fst snd].
  apply sends_on_emit; [apply sends_on_here; exact E | discriminate | discriminate].
Qed.

Lemma directives_not_last (word : string) :
  itemType_gt (directives word) _itemDirectiveBeg
  && itemType_lt (directives word) _itemDirectiveEnd = true ->
  directives word <> itemEOF /\ directives word <> itemError.
Proof. destruct (directives word); cbn; intros H; try discriminate H; split; discriminate. Qed.

Lemma comparators_not_last (word : string) :
  itemType_gt (comparators word) _itemOperatorBeg
  && itemType_lt (comparators word) _itemOperatorEnd = true ->
  comparators word <> itemEOF /\ comparators word <> itemError.
Proof. destruct (comparators word); cbn; intros H; try discriminate H; split; discriminate. Qed.

Lemma lexIdentifier_loop_sends (fuel : nat) :
  forall (l0 l : lexer) (r : lexer * option stateFn),
    lx_items l = lx_items l0 ->
    lexIdentifier_loop L fuel l = Some r -> call_sends l0 r.
Proof.
  induction fuel as [|fuel IH]; intros l0 l r E0; [discriminate|].
  cbn [lexIdentifier_loop].
  pose proof (next_items l) as H. destruct (next l) as [c l1]. cbn [snd] in H.
  destruct (isAlphaNumeric L c); [apply IH; congruence|].
  pose proof (atTerminator_items (backup l1)) as H2.
  destruct (atTerminator (backup l1)) as [ok l2]. cbn [snd] in H2.
  rewrite backup_items in H2.
  assert (H3 : sends_on l0 l2) by (apply sends_on_here; congruence).
  destruct ok; cbn [negb].
  - intros [= <-]. unfold call_sends. cbn [fst snd].
    destruct (itemType_gt (directives _) _ && _) eqn:Ed.
    { apply directives_not_last in Ed. apply sends_on_emit; tauto. }
    destruct (itemType_gt (comparators _) _ && _) eqn:Ec.
    { apply comparators_not_last in Ec. apply sends_on_emit; tauto. }
    destruct (_ || _); apply sends_on_emit; first [exact H3 | discriminate].
  - intros [= <-]. apply sends_last_errorf. exact H3.
Qed.

Lemma lexIdentifier_sends (l : lexer) (r : lexer * option stateFn) :
  lexIdentifier L l = Some r -> call_sends l r.
Proof. apply lexIdentifier_loop_sends. reflexivity. Qed.

Lemma lexComparator_sends (l : lexer) : call_sends l (lexComparator L l).
Proof.
  unfold lexComparator.
  pose proof (next_items l) as H. destruct (next l) as [c l1]. cbn [snd] in H.
  pose proof (peek_items l1) as H1. destruct (peek l1) as [r l2]. cbn [snd] in H1.
  assert (H2 : sends_on l l2) by (apply sends_on_here; congruence).
  destruct (negb (r =? 61) && negb (r =? 32)); [apply sends_last_errorf; exact H2|].
  assert (H3 : sends_on l (snd (next l2))).
  { apply sends_on_here. rewrite next_items. congruence. }
  unfold call_sends.
  destruct (r =? 61); cbn [fst snd];
    repeat match goal with
           | |- context [if ?b then _ else _] =>
             match type of b with bool => destruct b end
           end;
    first [ exact H2 | exact H3
          | apply sends_on_emit; first [exact H2 | exact H3 | discriminate] ].
Qed.

Lemma lexChar_sends (l : lexer) (r : lexer * option stateFn) :
  lexChar l = Some r -> call_sends l r.
Proof.
  unfold lexChar. destruct (lexQuoted_loop _ 39 l) as [[b l1]|] eqn:E; [|discriminate].
  apply lexQuoted_loop_items in E.
  assert (H : sends_on l l1) by (apply sends_on_here; exact E).
  destruct b; intros [= <-].
  - unfold call_sends. cbn [fst snd]. apply sends_on_emit; first [exact H | discriminate].
  - apply sends_last_errorf. exact H.
Qed.

Lemma lexString_sends (l : lexer) (r : lexer * option stateFn) :
  lexString l = Some r -> call_sends l r.
Proof.
  unfold lexString. destruct (lexQuoted_loop _ 34 l) as [[b l1]|] eqn:E; [|discriminate].
  apply lexQuoted_loop_items in E.
  assert (H : sends_on l l1) by (apply sends_on_here; exact E).
  destruct b; intros [= <-].
  - unfold call_sends. cbn [fst snd]. apply sends_on_emit; first [exact H | discriminate].
  - apply sends_last_errorf. exact H.
Qed.

Lemma lexNumber_sends (l : lexer) (r : lexer * option stateFn) :
  lexNumber L l = Some r -> call_sends l r.
Proof.
  unfold lexNumber. destruct (scanNumber L l) as [[b l1]|] eqn:E; [|discriminate].
  apply scanNumber_items in E.
  assert (H : sends_on l l1) by (apply sends_on_here; exact E).
  destruct b; [|intros [= <-]; apply sends_last_errorf; exact H].
  pose proof (peek_items l1) as H1. destruct (peek l1) as [sign l2]. cbn [snd] in H1.
  assert (H2 : sends_on l l2) by (apply sends_on_here; congruence).
  destruct ((sign =? 43) || (sign =? 45)).
  - destruct (scanNumber L l2) as [[ok l3]|] eqn:E3; [|discriminate].
    apply scanNumber_items in E3.
    assert (H3 : sends_on l l3) by (apply sends_on_here; congruence).
    destruct (negb ok || _); intros [= <-];
      [apply sends_last_errorf; exact H3 | exact H3].
  - intros [= <-]. unfold call_sends. cbn [fst snd].
    apply sends_on_emit; first [exact H2 | discriminate].
Qed.

Lemma state_call_sends (f : stateFn) (l : lexer) (r : lexer * option stateFn) :
  state_call L f l = Some r -> call_sends l r.
Proof.
  destruct f; cbn [state_call];
    first [ intros [= <-];
            first [ apply lexText_sends | apply lexInterpolation_sends
                  | apply lexComment_sends | apply lexExpression_sends
                  | apply lexDirective_sends | apply lexComparator_sends ]
          | apply lexSpace_sends | apply lexIdentifier_sends | apply lexChar_sends
          | apply lexString_sends | apply lexNumber_sends ].
Qed.

Lemma run_from_sends (fuel : nat) :
  forall (state : stateFn) (l l' : lexer),
    run_from L fuel state l = Some l' -> sends_last l l'.
Proof.
  induction fuel as [|fuel IH]; intros state l l'; [discriminate|]. cbn [run_from].
  destruct (state_call L state l) as [[l1 [state'|]]|] eqn:E; [| |discriminate];
    apply state_call_sends in E; unfold call_sends in E; cbn [fst snd] in E.
  - intros R. apply IH in R. eapply sends_last_trans; eassumption.
  - intros [= <-]. exact E.
Qed.

End Scanner_items.

(** X15: the items of a scan that ends.  The last item, and no other,
    is the end of the input or an error: every state function sends its
    items before it returns the next state, none of them of these two
    types, and the two calls that end the scan send one as their last. *)
Theorem lex_items_end :
  forall (L : GoLib) (name input : string) (l : lexer),
    lex L name input = Some l ->
    exists (body : list item) (x : item),
      lx_items l = (body ++ [x])%list
      /\ Forall (fun i => typ i <> itemEOF /\ typ i <> itemError) body
      /\ (typ x = itemEOF \/ typ x = itemError).
Proof.
  intros L name input l H. unfold lex, run in H. apply run_from_sends in H.
  destruct H as (body & x & H1 & H2 & H3). exists body, x. split; [exact H1|]. split.
  - eapply Forall_impl; [exact H2|]. intros i Hi. unfold is_last in Hi.
    split; intros E; rewrite E in Hi; discriminate.
  - unfold is_last in H3. destruct (typ x); try discriminate; auto.
Qed.

Lemma lex_items_end_witness :
  exists (body : list item) (x : item),
    lx_items (lexer_of (parser_after go_ascii 0 "<#if a>${")) = (body ++ [x])%list
    /\ Forall (fun i => typ i <> itemEOF /\ typ i <> itemError) body
    /\ (typ x = itemEOF \/ typ x = itemError).
Proof.
  apply (lex_items_end go_ascii "t" "<#if a>${"). vm_compute. reflexivity.
Defined.
(** ** The offsets of the scanner *)

Section Scanner_offsets.

Lemma byte_val_range (c : ascii) : 0 <= byte_val c < 256.
Proof.
  unfold byte_val. pose proof (N_ascii_bounded c) as H. lia.
Qed.

Lemma byte_at_range (s : string) (i : Z) : 0 <= byte_at s i < 256.
Proof.
  unfold byte_at. destruct (String.get _ s); [apply byte_val_range | lia].
Qed.

Lemma str_drop_length (n : nat) :
  forall s, String.length (str_drop n s) = (String.length s - n)%nat.
Proof.
  induction n as [|n IH]; intros s; [cbn; lia|].
  destruct s as [|c s]; [reflexivity|]. cbn. apply IH.
Qed.

Lemma len_slice_from (s : string) (lo : Z) :
  0 <= lo <= len s -> len (slice_from s lo) = len s - lo.
Proof. intros H. unfold len, slice_from in *. rewrite str_drop_length. lia. Qed.

Lemma str_drop_get (n : nat) :
  forall s k, String.get k (str_drop n s) = String.get (n + k) s.
Proof.
  induction n as [|n IH]; intros s k; [reflexivity|].
  destruct s as [|c s]; [destruct k; reflexivity|]. cbn. apply IH.
Qed.

Lemma byte_at_slice_from (s : string) (lo k : Z) :
  0 <= lo -> 0 <= k -> byte_at (slice_from s lo) k = byte_at s (lo + k).
Proof.
  intros H1 H2. unfold byte_at, slice_from. rewrite str_drop_get.
  replace (Z.to_nat lo + Z.to_nat k)%nat with (Z.to_nat (lo + k)) by lia. reflexivity.
Qed.

Lemma str_drop_drop (n m : nat) :
  forall s, str_drop m (str_drop n s) = str_drop (n + m) s.
Proof.
  induction n as [|n IH]; intros s; [reflexivity|].
  destruct s as [|c s]; [destruct m; reflexivity|]. cbn. apply IH.
Qed.

Lemma prefix_length (p : string) :
  forall s, String.prefix p s = true -> (String.length p <= String.length s)%nat.
Proof.
  induction p as [|a p IH]; intros s; [cbn; lia|].
  destruct s as [|b s]; [discriminate|]. cbn.
  destruct (ascii_dec a b); [|discriminate]. intros H. apply IH in H. lia.
Qed.

Lemma HasPrefix_len (s p : string) : strings_HasPrefix s p = true -> len p <= len s.
Proof. intros H. apply prefix_length in H. unfold len. lia. Qed.

(** A substring that strings.Index finds lies within the string. *)
Lemma strings_Index_range (sub : string) :
  forall s, 0 <= strings_Index s sub -> strings_Index s sub + len sub <= len s.
Proof.
  induction s as [|c s IH]; cbn [strings_Index].
  - destruct (strings_HasPrefix EmptyString sub) eqn:E; [|lia].
    intros _. apply HasPrefix_len in E. lia.
  - destruct (strings_HasPrefix (String c s) sub) eqn:E.
    + intros _. apply HasPrefix_len in E. lia.
    + destruct (strings_Index s sub <? 0) eqn:E1; [lia|].
      apply Z.ltb_ge in E1. intros _. specialize (IH E1).
      unfold len in *. cbn [String.length]. lia.
Qed.

Lemma strings_Index_lower (sub : string) : forall s, -1 <= strings_Index s sub.
Proof.
  induction s as [|c s IH]; cbn [strings_Index].
  - destruct (strings_HasPrefix _ _); lia.
  - destruct (strings_HasPrefix _ _); [lia|].
    destruct (strings_Index s sub <? 0) eqn:E; [lia|]. apply Z.ltb_ge in E. lia.
Qed.

Lemma utf8_first_size (b sz lo hi : Z) :
  utf8_first b = Some (sz, lo, hi) -> 2 <= sz <= 4.
Proof.
  unfold utf8_first.
  repeat match goal with
         | |- context [if ?c then _ else _] => destruct c
         end; intros [= <- <- <-] || discriminate; lia.
Qed.

Ltac rune_nonneg :=
  repeat first [ apply Z.lor_nonneg; split | apply Z.shiftl_nonneg
               | apply Z.land_nonneg; right; lia ].

(** The width of a rune is within what is left of the string, and no
    rune is negative. *)
Lemma utf8_DecodeRuneInString_width (s : string) :
  1 <= len s ->
  0 <= fst (utf8_DecodeRuneInString s)
  /\ 1 <= snd (utf8_DecodeRuneInString s) <= len s.
Proof.
  intros Hn. unfold utf8_DecodeRuneInString.
  destruct (len s <? 1) eqn:E0; [apply Z.ltb_lt in E0; lia|].
  pose proof (byte_at_range s 0) as B0.
  destruct (byte_at s 0 <? RuneSelf); [cbn; lia|].
  destruct (utf8_first (byte_at s 0)) as [[[sz lo] hi]|] eqn:F;
    [|cbn; unfold RuneError; lia].
  apply utf8_first_size in F.
  destruct (len s <? sz) eqn:E1; [cbn; unfold RuneError; lia|]. apply Z.ltb_ge in E1.
  destruct ((byte_at s 1 <? lo) || (hi <? byte_at s 1)); [cbn; unfold RuneError; lia|].
  destruct (sz <=? 2) eqn:E2.
  { cbn [fst snd]. split; [rune_nonneg | lia]. }
  apply Z.leb_gt in E2.
  destruct (negb (is_cont (byte_at s 2))); [cbn; unfold RuneError; lia|].
  destruct (sz <=? 3) eqn:E3.
  { cbn [fst snd]. split; [rune_nonneg | lia]. }
  apply Z.leb_gt in E3.
  destruct (negb (is_cont (byte_at s 3))); [cbn; unfold RuneError; lia|].
  cbn [fst snd]. split; [rune_nonneg | lia].
Qed.

Lemma rune_at_cases (input : string) (p : Z) :
  0 <= p <= len input ->
  (p = len input /\ rune_at input p = (eof, 0))
  \/ (p < len input /\ 0 <= fst (rune_at input p)
      /\ 1 <= snd (rune_at input p) /\ p + snd (rune_at input p) <= len input).
Proof.
  intros Hp. unfold rune_at. destruct (len input <=? p) eqn:E.
  - apply Z.leb_le in E. left. split; [lia | reflexivity].
  - apply Z.leb_gt in E. right. split; [exact E|].
    pose proof (utf8_DecodeRuneInString_width (slice_from input p)) as H.
    rewrite len_slice_from in H by lia. specialize (H ltac:(lia)). lia.
Qed.

Lemma next_rune_at (l : lexer) :
  fst (next l) = fst (rune_at (lx_input l) (lx_pos l))
  /\ lx_input (snd (next l)) = lx_input l
  /\ lx_start (snd (next l)) = lx_start l
  /\ lx_width (snd (next l)) = snd (rune_at (lx_input l) (lx_pos l))
  /\ lx_pos (snd (next l)) = lx_pos l + snd (rune_at (lx_input l) (lx_pos l)).
Proof.
  unfold next, rune_at. destruct (len (lx_input l) <=? lx_pos l).
  - cbn. repeat split; lia.
  - destruct (utf8_DecodeRuneInString _) as [r w]. cbn [fst snd].
    destruct (r =? 10); cbn; repeat split; reflexivity.
Qed.

Lemma backup_offsets (l : lexer) :
  lx_input (backup l) = lx_input l /\ lx_start (backup l) = lx_start l
  /\ lx_pos (backup l) = lx_pos l - lx_width l.
Proof. unfold backup. destruct (_ && _); cbn; repeat split; reflexivity. Qed.

(** What next gives, by the place of the scanner. *)
Lemma next_reads (l : lexer) (r : Z) (l1 : lexer) :
  0 <= lx_pos l <= len (lx_input l) ->
  next l = (r, l1) ->
  r = fst (rune_at (lx_input l) (lx_pos l))
  /\ reads l l1 /\ at_same l (backup l1)
  /\ (r = eof /\ lx_pos l1 = lx_pos l \/ 0 <= r /\ lx_pos l < lx_pos l1).
Proof.
  intros Hp E. destruct (next_rune_at l) as (H1 & H2 & H3 & H4 & H5).
  rewrite E in *. cbn [fst snd] in *.
  destruct (backup_offsets l1) as (B1 & B2 & B3).
  destruct (rune_at_cases _ _ Hp) as [[Ha Hb]|(Ha & Hb & Hc & Hd)].
  - rewrite Hb in *. cbn [fst snd] in *. unfold reads, at_same.
    repeat split; try congruence; lia.
  - unfold reads, at_same. repeat split; try congruence; lia.
Qed.

Lemma peek_same (l : lexer) (r : Z) (l1 : lexer) :
  0 <= lx_pos l <= len (lx_input l) ->
  peek l = (r, l1) ->
  r = fst (rune_at (lx_input l) (lx_pos l)) /\ at_same l l1.
Proof.
  intros Hp. unfold peek. destruct (next l) as [r0 l0] eqn:E. intros [= <- <-].
  destruct (next_reads l r0 l0 Hp E) as (H1 & _ & H3 & _). auto.
Qed.

End Scanner_offsets.
(** ** The line count of the scanner *)

Section Scanner_lines.

Lemma utf8_first_cases (b sz lo hi : Z) :
  utf8_first b = Some (sz, lo, hi) ->
  hi <= 0xBF
  /\ (sz = 2 /\ 0xC2 <= b <= 0xDF
      \/ sz = 3 /\ (b = 0xE0 /\ lo = 0xA0 \/ 0xE1 <= b <= 0xEF /\ lo = 0x80)
      \/ sz = 4 /\ (b = 0xF0 /\ lo = 0x90 \/ 0xF1 <= b <= 0xF4 /\ lo = 0x80)).
Proof.
  unfold utf8_first.
  repeat match goal with
         | |- context [if ?c then _ else _] => destruct c eqn:?
         end; intros [= <- <- <-] || discriminate; lia.
Qed.

(** A rune of more than one byte is not one of the first 64. *)
Lemma shiftr_lor_shiftl (a b : Z) :
  Z.shiftr (Z.lor (Z.shiftl a 6) b) 6 = Z.lor a (Z.shiftr b 6).
Proof.
  rewrite Z.shiftr_lor, Z.shiftr_shiftl_l by lia. replace (6 - 6) with 0 by lia.
  rewrite Z.shiftl_0_r. reflexivity.
Qed.

Lemma shiftr_shiftl_more (a n : Z) :
  6 <= n -> Z.shiftr (Z.shiftl a n) 6 = Z.shiftl a (n - 6).
Proof. intros H. apply Z.shiftr_shiftl_l. lia. Qed.

Lemma utf8_DecodeRuneInString_newline (s : string) :
  fst (utf8_DecodeRuneInString s) = 10
  <-> snd (utf8_DecodeRuneInString s) = 1 /\ byte_at s 0 = 10.
Proof.
  unfold utf8_DecodeRuneInString.
  destruct (len s <? 1); [cbn; unfold RuneError; lia|].
  pose proof (byte_at_range s 0) as B0. pose proof (byte_at_range s 1) as B1.
  destruct (byte_at s 0 <? RuneSelf) eqn:E0; [cbn; lia|].
  apply Z.ltb_ge in E0. unfold RuneSelf in E0.
  destruct (utf8_first (byte_at s 0)) as [[[sz lo] hi]|] eqn:F;
    [|cbn; unfold RuneError; lia].
  apply utf8_first_cases in F. destruct F as [Hhi F].
  destruct (len s <? sz); [cbn; unfold RuneError; lia|].
  destruct ((byte_at s 1 <? lo) || (hi <? byte_at s 1)) eqn:E1;
    [cbn; unfold RuneError; lia|].
  apply orb_false_iff in E1. destruct E1 as [E1 E1']. apply Z.ltb_ge in E1, E1'.
  assert (M0 : forall n, 0 <= n -> Z.land (byte_at s 0) (Z.ones n) = byte_at s 0 mod 2 ^ n)
    by (intros; apply Z.land_ones; assumption).
  assert (M1 : Z.land (byte_at s 1) 0x3F = byte_at s 1 mod 64)
    by (apply (Z.land_ones _ 6); lia).
  assert (Hno : forall r w : Z, 1 < w -> Z.shiftr r 6 <> 0 -> r = 10 <-> w = 1 /\ byte_at s 0 = 10).
  { intros r w Hw Hr. split; [intros ->; contradiction Hr; reflexivity | lia]. }
  destruct (sz <=? 2) eqn:E2.
  { cbn [fst snd]. apply Hno; [lia|]. apply Z.leb_le in E2.
    rewrite shiftr_lor_shiftl. intros Hz. apply Z.lor_eq_0_iff in Hz.
    destruct Hz as [Hz _]. change 0x1F with (Z.ones 5) in Hz. rewrite M0 in Hz by lia.
    change (2 ^ 5) with 32 in Hz. clear M0 M1. Z.div_mod_to_equations. lia. }
  apply Z.leb_gt in E2.
  destruct (negb (is_cont (byte_at s 2))); [cbn; unfold RuneError; lia|].
  destruct (sz <=? 3) eqn:E3.
  { cbn [fst snd]. apply Hno; [lia|]. apply Z.leb_le in E3.
    rewrite Z.shiftr_lor, Z.shiftr_lor, shiftr_shiftl_more by lia.
    rewrite (Z.shiftr_shiftl_l _ 6 6) by lia. replace (6 - 6) with 0 by lia.
    rewrite Z.shiftl_0_r. intros Hz. apply Z.lor_eq_0_iff in Hz. destruct Hz as [Hz _].
    apply Z.lor_eq_0_iff in Hz. destruct Hz as [Ha Hb].
    apply Z.shiftl_eq_0_iff in Ha; [|lia].
    change 0x0F with (Z.ones 4) in Ha. rewrite M0 in Ha by lia.
    change (2 ^ 4) with 16 in Ha. rewrite M1 in Hb. clear M0 M1.
    Z.div_mod_to_equations. lia. }
  apply Z.leb_gt in E3.
  destruct (negb (is_cont (byte_at s 3))); [cbn; unfold RuneError; lia|].
  cbn [fst snd]. apply Hno; [lia|].
  rewrite !Z.shiftr_lor, !shiftr_shiftl_more by lia. replace (6 - 6) with 0 by lia.
  rewrite Z.shiftl_0_r. intros Hz. apply Z.lor_eq_0_iff in Hz. destruct Hz as [Hz _].
  apply Z.lor_eq_0_iff in Hz. destruct Hz as [Hz _].
  apply Z.lor_eq_0_iff in Hz. destruct Hz as [Ha Hb].
  apply Z.shiftl_eq_0_iff in Ha; [|lia]. apply Z.shiftl_eq_0_iff in Hb; [|lia].
  change 0x07 with (Z.ones 3) in Ha. rewrite M0 in Ha by lia.
  change (2 ^ 3) with 8 in Ha. rewrite M1 in Hb. clear M0 M1.
  Z.div_mod_to_equations. lia.
Qed.

Lemma byte_at_slice_from_0 (s : string) (lo : Z) :
  byte_at (slice_from s lo) 0 = byte_at s lo.
Proof.
  unfold byte_at, slice_from. rewrite str_drop_get.
  replace (Z.to_nat lo + Z.to_nat 0)%nat with (Z.to_nat lo) by lia. reflexivity.
Qed.

Lemma backup_next (l : lexer) :
  backup (snd (next l))
  = set_width (snd (rune_at (lx_input l) (lx_pos l))) l.
Proof.
  unfold next, rune_at. destruct (len (lx_input l) <=? lx_pos l).
  - destruct l. unfold backup. cbn. rewrite Z.sub_0_r. reflexivity.
  - pose proof (utf8_DecodeRuneInString_newline (slice_from (lx_input l) (lx_pos l))) as N.
    rewrite byte_at_slice_from_0 in N.
    destruct (utf8_DecodeRuneInString _) as [r w]. cbn [fst snd] in *.
    destruct l as [nm inp p st wd lp its pd ln]. cbn [lx_input lx_pos] in *.
    destruct (r =? 10) eqn:E; unfold backup; cbn.
    + apply Z.eqb_eq in E. apply N in E. destruct E as [-> E].
      replace (p + 1 - 1) with p by lia. rewrite E. cbn.
      unfold set_line, set_pos, set_width. cbn. f_equal. lia.
    + replace (p + w - w) with p by lia.
      destruct ((w =? 1) && (byte_at inp p =? 10)) eqn:E';
        [|unfold set_line, set_pos, set_width; cbn; reflexivity].
      apply andb_true_iff in E'. destruct E' as [E1 E2].
      apply Z.eqb_eq in E1, E2. apply Z.eqb_neq in E. tauto.
Qed.

End Scanner_lines.

(** X16: peek does not move the scanner.  It returns the rune that next
    returns, and after it the scanner is as before but for the width of
    the last rune, which is that of the rune returned: backup takes from
    the position what next has added, and from the line count as well,
    since a rune is a newline only if it is the single byte 10. *)
Theorem peek_restores :
  forall l : lexer,
    fst (peek l) = fst (next l)
    /\ snd (peek l) = set_width (lx_width (snd (next l))) l.
Proof.
  intros l. unfold peek. pose proof (backup_next l) as H.
  destruct (next_rune_at l) as (_ & _ & _ & W & _).
  destruct (next l) as [r l1]. cbn [fst snd] in *. rewrite H, W.
  split; reflexivity.
Qed.
(** ** The scanner ends *)

Section Scanner_ends.

Context {L : GoLib}.

Lemma ContainsRune_negative (valid : string) (r : Z) :
  r < 0 -> strings_ContainsRune valid r = false.
Proof.
  intros Hr. induction valid as [|c v IH]; [reflexivity|]. cbn.
  rewrite IH, orb_false_r. apply Z.eqb_neq. pose proof (byte_val_range c). lia.
Qed.

Ltac offsets :=
  unfold reads, at_same, in_range in *;
  repeat match goal with H : _ /\ _ |- _ => destruct H end;
  repeat match goal with
         | H : lx_input ?a = lx_input ?b |- _ => rewrite H in *; clear H
         end.

Lemma accept_offsets (valid : string) (l : lexer) (b : bool) (l1 : lexer) :
  0 <= lx_pos l <= len (lx_input l) ->
  accept valid l = (b, l1) ->
  reads l l1
  /\ (if b then lx_pos l < lx_pos l1
      else lx_pos l1 = lx_pos l)
  /\ strings_ContainsRune valid (fst (rune_at (lx_input l) (lx_pos l))) = b.
Proof.
  intros Hp. unfold accept. destruct (next l) as [r l0] eqn:E.
  destruct (next_reads l r l0 Hp E) as (H1 & H2 & H3 & H4). subst r.
  destruct (strings_ContainsRune valid _) eqn:C; intros [= <- <-].
  - split; [exact H2|]. split; [|reflexivity].
    destruct H4 as [[H4 _]|[_ H4]]; [|exact H4].
    rewrite H4, ContainsRune_negative in C by (unfold eof; lia). discriminate.
  - split; [|split; [|reflexivity]]; offsets; repeat split; lia.
Qed.

Lemma acceptRun_loop_offsets (valid : string) (fuel : nat) :
  forall l : lexer,
    0 <= lx_pos l <= len (lx_input l) ->
    len (lx_input l) - lx_pos l < Z.of_nat fuel ->
    exists l1 : lexer,
      acceptRun_loop fuel valid l = Some l1 /\ reads l l1
      /\ (strings_ContainsRune valid (fst (rune_at (lx_input l) (lx_pos l))) = true ->
          lx_pos l < lx_pos l1).
Proof.
  induction fuel as [|fuel IH]; intros l Hp Hf; [lia|]. cbn [acceptRun_loop].
  destruct (next l) as [r l0] eqn:E.
  destruct (next_reads l r l0 Hp E) as (H1 & H2 & H3 & H4). subst r.
  destruct (strings_ContainsRune valid _) eqn:C.
  - destruct H4 as [[H4 _]|[_ H4]].
    { rewrite H4, ContainsRune_negative in C by (unfold eof; lia). discriminate. }
    destruct (IH l0) as (l1 & R1 & R2 & _).
    + offsets. lia.
    + offsets. lia.
    + exists l1. split; [exact R1|]. offsets. repeat split; lia.
  - exists (backup l0). split; [reflexivity|]. split; [|discriminate].
    offsets. repeat split; lia.
Qed.

Lemma acceptRun_offsets (valid : string) (l : lexer) :
  0 <= lx_pos l <= len (lx_input l) ->
  exists l1 : lexer,
    acceptRun valid l = Some l1 /\ reads l l1
    /\ (strings_ContainsRune valid (fst (rune_at (lx_input l) (lx_pos l))) = true ->
        lx_pos l < lx_pos l1).
Proof.
  intros Hp. apply acceptRun_loop_offsets; [exact Hp|].
  unfold loop_fuel, len in *. lia.
Qed.

Lemma isSpace_rune (r : Z) : isSpace r = true -> 0 <= r.
Proof. unfold isSpace. lia. Qed.

Lemma lexSpace_loop_offsets (fuel : nat) :
  forall l : lexer,
    0 <= lx_pos l <= len (lx_input l) ->
    len (lx_input l) - lx_pos l < Z.of_nat fuel ->
    exists l1 : lexer, lexSpace_loop fuel l = Some l1 /\ reads l l1.
Proof.
  induction fuel as [|fuel IH]; intros l Hp Hf; [lia|]. cbn [lexSpace_loop].
  destruct (peek l) as [r l0] eqn:E.
  destruct (peek_same l r l0 Hp E) as (H1 & H2).
  destruct (isSpace r) eqn:S.
  - apply isSpace_rune in S.
    assert (Hp0 : 0 <= lx_pos l0 <= len (lx_input l0)) by (offsets; lia).
    destruct (next l0) as [r1 l1] eqn:E1. cbn [snd].
    destruct (next_reads l0 r1 l1 Hp0 E1) as (N1 & N2 & N3 & N4).
    assert (Hr : r1 = r).
    { subst r1 r. destruct H2 as (-> & _ & ->). reflexivity. }
    destruct N4 as [[N4 _]|[_ N4]]; [unfold eof in N4; lia|].
    destruct (IH l1) as (l2 & R1 & R2).
    + offsets. lia.
    + offsets. lia.
    + exists l2. split; [exact R1|]. offsets. repeat split; lia.
  - exists l0. split; [reflexivity|]. offsets. repeat split; lia.
Qed.

Lemma lexQuoted_loop_offsets (q : Z) (fuel : nat) :
  forall l : lexer,
    0 <= lx_pos l <= len (lx_input l) ->
    len (lx_input l) - lx_pos l < Z.of_nat fuel ->
    exists (b : bool) (l1 : lexer), lexQuoted_loop fuel q l = Some (b, l1) /\ reads l l1.
Proof.
  induction fuel as [|fuel IH]; intros l Hp Hf; [lia|]. cbn [lexQuoted_loop].
  destruct (next l) as [r l0] eqn:E.
  destruct (next_reads l r l0 Hp E) as (H1 & H2 & H3 & H4).
  assert (Hp0 : 0 <= lx_pos l0 <= len (lx_input l0)) by (offsets; lia).
  destruct (r =? 92) eqn:E92.
  - apply Z.eqb_eq in E92.
    destruct H4 as [[H4 _]|[_ H4]]; [unfold eof in H4; lia|].
    destruct (next l0) as [r2 l2] eqn:E2.
    destruct (next_reads l0 r2 l2 Hp0 E2) as (N1 & N2 & N3 & N4).
    destruct (negb (r2 =? eof) && negb (r2 =? 10)).
    + destruct (IH l2) as (b & l3 & R1 & R2).
      * clear N4. offsets. lia.
      * clear N4. offsets. lia.
      * exists b, l3. split; [exact R1|]. clear N4. offsets. repeat split; lia.
    + exists false, l2. split; [reflexivity|]. clear N4. offsets. repeat split; lia.
  - destruct ((r =? eof) || (r =? 10)) eqn:Ee.
    { exists false, l0. split; [reflexivity | exact H2]. }
    destruct (r =? q).
    { exists true, l0. split; [reflexivity | exact H2]. }
    apply orb_false_iff in Ee. destruct Ee as [Ee _]. apply Z.eqb_neq in Ee.
    destruct H4 as [[H4 _]|[_ H4]]; [contradiction|].
    destruct (IH l0) as (b & l3 & R1 & R2).
    + offsets. lia.
    + offsets. lia.
    + exists b, l3. split; [exact R1|]. offsets. repeat split; lia.
Qed.

Lemma isAlphaNumeric_eof : isAlphaNumeric L eof = false.
Proof. reflexivity. Qed.

Lemma in_range_emit (ty : itemType) (l : lexer) :
  0 <= lx_pos l <= len (lx_input l) -> in_range (emit ty l).
Proof. intros H. unfold in_range. cbn. lia. Qed.

Lemma lexIdentifier_loop_offsets (fuel : nat) :
  forall l : lexer,
    0 <= lx_pos l <= len (lx_input l) ->
    len (lx_input l) - lx_pos l < Z.of_nat fuel ->
    exists r : lexer * option stateFn,
      lexIdentifier_loop L fuel l = Some r
      /\ (snd r = None
          \/ snd r = Some lexDirective_ /\ lx_input (fst r) = lx_input l
             /\ in_range (fst r) /\ lx_pos l <= lx_pos (fst r)
             /\ (isAlphaNumeric L (fst (rune_at (lx_input l) (lx_pos l))) = true ->
                 lx_pos l < lx_pos (fst r))).
Proof.
  induction fuel as [|fuel IH]; intros l Hp Hf; [lia|]. cbn [lexIdentifier_loop].
  destruct (next l) as [r l0] eqn:E.
  destruct (next_reads l r l0 Hp E) as (H1 & H2 & H3 & H4). subst r.
  destruct (isAlphaNumeric L _) eqn:A.
  - destruct H4 as [[H4 _]|[_ H4]].
    { rewrite H4, isAlphaNumeric_eof in A. discriminate. }
    destruct (IH l0) as (r & R1 & R2).
    + offsets. lia.
    + offsets. lia.
    + exists r. split; [exact R1|].
      destruct R2 as [R2|(R2 & R3 & R4 & R5 & _)]; [left; exact R2|]. right.
      split; [exact R2|]. offsets. repeat split; lia || congruence.
  - assert (Hb : 0 <= lx_pos (backup l0) <= len (lx_input (backup l0))).
    { clear H4. offsets. lia. }
    unfold atTerminator. destruct (peek (backup l0)) as [r1 l1] eqn:P.
    destruct (peek_same _ _ _ Hb P) as (_ & P2).
    assert (Hl1 : lx_input l1 = lx_input l /\ lx_pos l1 = lx_pos l).
    { clear H4. offsets. split; congruence. }
    destruct Hl1 as [I1 Q1].
    assert (Hemit : forall ty,
               lx_input (emit ty l1) = lx_input l /\ in_range (emit ty l1)
               /\ lx_pos l <= lx_pos (emit ty l1)).
    { intros ty. split; [exact I1|]. split.
      - apply in_range_emit. rewrite I1, Q1. exact Hp.
      - cbn. lia. }
    match goal with
    | |- context [let '(ok, l) := ?c in _] =>
        assert (Hc : snd c = l1 /\ True) by
          (destruct (isSpace r1 || isEndOfLine r1); [split; reflexivity|];
           destruct (_ || _); split; reflexivity);
        destruct c as [ok l2]
    end.
    destruct Hc as [Hc _]. cbn [snd] in Hc. subst l2.
    destruct ok; cbn [negb].
    + eexists. split; [reflexivity|]. right. cbn [fst snd]. split; [reflexivity|].
      repeat match goal with
             | |- context [if ?c then _ else _] =>
                 match type of c with bool => destruct c end
             end;
        (destruct (Hemit itemIdentifier) as (E1 & E2 & E3);
         repeat split; try apply in_range_emit; cbn; try congruence; try lia;
         try (rewrite I1, Q1; lia)).
    + eexists. split; [reflexivity|]. left. reflexivity.
Qed.
Lemma reads_place (l l1 : lexer) :
  0 <= lx_pos l -> reads l l1 -> 0 <= lx_pos l1 <= len (lx_input l1).
Proof. intros H R. offsets. lia. Qed.

Lemma reads_trans (l l1 l2 : lexer) : reads l l1 -> reads l1 l2 -> reads l l2.
Proof. intros R1 R2. offsets. repeat split; lia. Qed.

Lemma reads_refl (l : lexer) : lx_pos l <= len (lx_input l) -> reads l l.
Proof. intros H. unfold reads. repeat split; lia. Qed.

Lemma reads_rune (l l1 : lexer) :
  reads l l1 -> lx_pos l1 = lx_pos l ->
  rune_at (lx_input l1) (lx_pos l1) = rune_at (lx_input l) (lx_pos l).
Proof. intros (-> & _) ->. reflexivity. Qed.

Lemma digits_ContainsRune (r : Z) :
  48 <= r <= 57 -> strings_ContainsRune "0123456789" r = true.
Proof.
  intros H.
  assert (C : r = 48 \/ r = 49 \/ r = 50 \/ r = 51 \/ r = 52 \/ r = 53 \/ r = 54
              \/ r = 55 \/ r = 56 \/ r = 57) by lia.
  repeat destruct C as [->|C]; try subst r; reflexivity.
Qed.

Lemma scanNumber_digits_offsets (digits : string) (l : lexer) :
  0 <= lx_pos l <= len (lx_input l) ->
  exists (b : bool) (l' : lexer),
    scanNumber_digits L digits l = Some (b, l') /\ reads l l'
    /\ (let r := fst (rune_at (lx_input l) (lx_pos l)) in
        strings_ContainsRune digits r = true \/ r = 46 -> lx_pos l < lx_pos l').
Proof.
  intros Hp. unfold scanNumber_digits.
  destruct (acceptRun_offsets digits l Hp) as (l4 & E4 & R4 & G4).
  rewrite E4. cbn [mbind option_bind].
  pose proof (reads_place l l4 (proj1 Hp) R4) as Hp4.
  destruct (accept "." l4) as [dot l5] eqn:A5.
  destruct (accept_offsets _ _ _ _ Hp4 A5) as (R5 & P5 & C5).
  pose proof (reads_place l4 l5 (proj1 Hp4) R5) as Hp5.
  assert (H6 : exists l6, (if dot then acceptRun digits l5 else Some l5) = Some l6
                          /\ reads l5 l6).
  { destruct dot.
    - destruct (acceptRun_offsets digits l5 Hp5) as (l6 & E6 & R6 & _). eauto.
    - exists l5. split; [reflexivity|]. apply reads_refl. lia. }
  destruct H6 as (l6 & E6 & R6). rewrite E6. cbn [mbind option_bind].
  pose proof (reads_place l5 l6 (proj1 Hp5) R6) as Hp6.
  destruct (accept "eE" l6) as [e l7] eqn:A7.
  destruct (accept_offsets _ _ _ _ Hp6 A7) as (R7 & _ & _).
  pose proof (reads_place l6 l7 (proj1 Hp6) R7) as Hp7.
  assert (H8 : exists l8,
             (if e then acceptRun "0123456789" (snd (accept "+-" l7)) else Some l7)
             = Some l8 /\ reads l7 l8).
  { destruct e.
    - destruct (accept "+-" l7) as [sg l7'] eqn:A7'.
      destruct (accept_offsets _ _ _ _ Hp7 A7') as (R7' & _ & _).
      pose proof (reads_place l7 l7' (proj1 Hp7) R7') as Hp7'.
      destruct (acceptRun_offsets "0123456789" l7' Hp7') as (l8 & E8 & R8 & _).
      exists l8. split; [exact E8|]. eapply reads_trans; eassumption.
    - exists l7. split; [reflexivity|]. apply reads_refl. lia. }
  destruct H8 as (l8 & E8 & R8). rewrite E8. cbn [mbind option_bind].
  pose proof (reads_place l7 l8 (proj1 Hp7) R8) as Hp8.
  destruct (accept "i" l8) as [x9 l9] eqn:A9.
  destruct (accept_offsets _ _ _ _ Hp8 A9) as (R9 & _ & _).
  pose proof (reads_place l8 l9 (proj1 Hp8) R9) as Hp9.
  destruct (peek l9) as [r l10] eqn:P10.
  destruct (peek_same _ _ _ Hp9 P10) as (_ & S10).
  assert (R10 : reads l9 l10) by (offsets; repeat split; lia).
  pose proof (reads_place l9 l10 (proj1 Hp9) R10) as Hp10.
  assert (H11 : exists b l', (if isAlphaNumeric L r then Some (false, snd (next l10))
                              else Some (true, l10)) = Some (b, l') /\ reads l10 l').
  { destruct (isAlphaNumeric L r).
    - destruct (next l10) as [r' l11] eqn:N11.
      destruct (next_reads _ _ _ Hp10 N11) as (_ & R11 & _). eauto.
    - exists true, l10. split; [reflexivity|]. apply reads_refl. lia. }
  destruct H11 as (b & l' & E11 & R11). exists b, l'. split; [exact E11|].
  assert (R5' : reads l5 l').
  { exact (reads_trans _ _ _ R6 (reads_trans _ _ _ R7 (reads_trans _ _ _ R8
             (reads_trans _ _ _ R9 (reads_trans _ _ _ R10 R11))))). }
  assert (R45 : reads l4 l') by exact (reads_trans _ _ _ R5 R5').
  split; [eapply reads_trans; eassumption|].
  cbn zeta. intros [Hd|Hdot].
  - specialize (G4 Hd). clear P5 C5. offsets. lia.
  - destruct (Z.eq_dec (lx_pos l4) (lx_pos l)) as [Q|Q].
    + rewrite (reads_rune l l4 R4 Q), Hdot in C5.
      change (strings_ContainsRune "." 46) with true in C5. subst dot.
      clear G4. offsets. lia.
    + clear P5 C5 G4. offsets. lia.
Qed.

Lemma scanNumber_offsets (l : lexer) :
  0 <= lx_pos l <= len (lx_input l) ->
  exists (b : bool) (l' : lexer),
    scanNumber L l = Some (b, l') /\ reads l l'
    /\ (let r := fst (rune_at (lx_input l) (lx_pos l)) in
        r = 46 \/ 48 <= r <= 57 -> lx_pos l < lx_pos l').
Proof.
  intros Hp. unfold scanNumber.
  destruct (accept "+-" l) as [x1 l1] eqn:A1.
  destruct (accept_offsets _ _ _ _ Hp A1) as (R1 & P1 & C1).
  pose proof (reads_place l l1 (proj1 Hp) R1) as Hp1.
  destruct (accept "0" l1) as [z l2] eqn:A2.
  destruct (accept_offsets _ _ _ _ Hp1 A2) as (R2 & P2 & C2).
  pose proof (reads_place l1 l2 (proj1 Hp1) R2) as Hp2.
  assert (H3 : exists hex l3,
             (if z then accept "xX" l2 else (false, l2)) = (hex, l3) /\ reads l2 l3
             /\ (z = false -> hex = false)).
  { destruct z.
    - destruct (accept "xX" l2) as [hex l3] eqn:A3.
      destruct (accept_offsets _ _ _ _ Hp2 A3) as (R3 & _ & _).
      exists hex, l3. split; [reflexivity|]. split; [exact R3 | discriminate].
    - exists false, l2. split; [reflexivity|]. split; [apply reads_refl; lia|].
      reflexivity. }
  destruct H3 as (hex & l3 & E3 & R3 & Z3). rewrite E3.
  pose proof (reads_place l2 l3 (proj1 Hp2) R3) as Hp3.
  destruct (scanNumber_digits_offsets
              (if hex then "0123456789abcdefABCDEF" else "0123456789") l3 Hp3)
    as (b & l' & E & R & G).
  exists b, l'. split; [exact E|].
  assert (R13 : reads l1 l3) by (eapply reads_trans; eassumption).
  split; [exact (reads_trans _ _ _ R1 (reads_trans _ _ _ R13 R))|].
  cbn zeta in *. intros Hr.
  destruct (Z.eq_dec (lx_pos l3) (lx_pos l)) as [Q|Q];
    [|clear P1 P2 C1 C2 G; offsets; lia].
  assert (Q1 : lx_pos l1 = lx_pos l) by (clear P1 P2 C1 C2 G; offsets; lia).
  assert (Q2 : lx_pos l2 = lx_pos l1) by (clear P1 P2 C1 C2 G; offsets; lia).
  destruct z; [lia|]. rewrite (Z3 eq_refl) in G.
  assert (R03 : reads l l3) by (eapply reads_trans; eassumption).
  rewrite (reads_rune l l3 R03 Q) in G.
  assert (G' : lx_pos l3 < lx_pos l').
  { apply G. destruct Hr as [Hr|Hr]; [right; exact Hr|left].
    apply digits_ContainsRune. exact Hr. }
  lia.
Qed.
Lemma next_progress (l : lexer) (r : Z) (l1 : lexer) :
  0 <= lx_pos l < len (lx_input l) -> next l = (r, l1) ->
  0 <= r /\ lx_pos l < lx_pos l1.
Proof.
  intros Hp E. destruct (next_reads l r l1 ltac:(lia) E) as (H1 & _ & _ & _).
  destruct (next_rune_at l) as (_ & _ & _ & _ & H5). rewrite E in H5. cbn [snd] in H5.
  destruct (rune_at_cases (lx_input l) (lx_pos l) ltac:(lia)) as [[Ha _]|(_ & Hb & Hc & _)];
    [lia|]. subst r. lia.
Qed.

Ltac marker_lengths :=
  change (len leftInterpolation) with 2 in *;
  change (len leftComment) with 4 in *;
  change (len rightComment) with 3 in *;
  change (len startDirective) with 2 in *;
  change (len endDirective) with 3 in *.

Ltac go_on :=
  unfold goes_on, entered, in_range in *;
  cbn [fst snd rank errorf emit ignore lx_pos lx_input lx_start
       set_pos set_width set_items set_start set_parenDepth set_line] in *;
  marker_lengths;
  repeat match goal with H : _ /\ _ |- _ => destruct H end;
  repeat split; try exact I; try assumption; try lia.

Lemma lexText_goes (l : lexer) :
  entered L lexText_ l -> goes_on L lexText_ l (lexText l).
Proof.
  intros [Hr _]. unfold lexText. cbn [lx_input lx_pos set_width].
  assert (X : forall marker,
             0 <= strings_Index (slice_from (lx_input l) (lx_pos l)) marker ->
             lx_pos l + strings_Index (slice_from (lx_input l) (lx_pos l)) marker
             + len marker <= len (lx_input l)).
  { intros marker H. apply strings_Index_range in H.
    rewrite len_slice_from in H by (unfold in_range in Hr; lia). lia. }
  pose proof (X leftInterpolation) as X1. pose proof (X leftComment) as X2.
  pose proof (X startDirective) as X3. pose proof (X endDirective) as X4. clear X.
  destruct (0 <=? strings_Index _ leftInterpolation) eqn:E1.
  { apply Z.leb_le in E1. specialize (X1 E1). destruct (_ <? _); go_on. }
  destruct (0 <=? strings_Index _ leftComment) eqn:E2.
  { apply Z.leb_le in E2. specialize (X2 E2). destruct (_ <? _); go_on. }
  destruct (0 <=? strings_Index _ startDirective) eqn:E3.
  { apply Z.leb_le in E3. specialize (X3 E3). destruct (_ <? _); go_on. }
  destruct (0 <=? strings_Index _ endDirective) eqn:E4.
  { apply Z.leb_le in E4. specialize (X4 E4). destruct (_ <? _); go_on. }
  exact I.
Qed.

Lemma lexInterpolation_goes (l : lexer) :
  entered L lexInterpolation_ l -> goes_on L lexInterpolation_ l (lexInterpolation l).
Proof. intros H. unfold lexInterpolation. go_on. Qed.

Lemma lexComment_goes (l : lexer) :
  entered L lexComment_ l -> goes_on L lexComment_ l (lexComment l).
Proof.
  intros [Hr Hc]. unfold lexComment. cbn [lx_input lx_pos set_pos].
  pose proof (strings_Index_range rightComment
                (slice_from (lx_input l) (lx_pos l + len leftComment))) as X.
  rewrite len_slice_from in X by (unfold in_range in Hr; unfold len in *; lia).
  destruct (_ <? 0) eqn:E; [exact I|]. apply Z.ltb_ge in E. specialize (X E). go_on.
Qed.

Lemma directive_marker (l : lexer) (marker : string) (ty : itemType) :
  in_range l ->
  let l1 := if strings_HasPrefix (slice_from (lx_input l) (lx_pos l)) marker
            then emit ty (set_pos (lx_pos l + len marker) l) else l in
  lx_input l1 = lx_input l /\ in_range l1 /\ lx_pos l <= lx_pos l1.
Proof.
  intros Hr. cbn zeta. destruct (strings_HasPrefix _ marker) eqn:E.
  - apply HasPrefix_len in E. rewrite len_slice_from in E by (unfold in_range in Hr; lia).
    unfold in_range in *. cbn. unfold len in *. repeat split; lia.
  - unfold in_range in *. repeat split; lia.
Qed.

Lemma lexDirective_goes (l : lexer) :
  entered L lexDirective_ l -> goes_on L lexDirective_ l (lexDirective l).
Proof.
  intros [Hr _]. unfold lexDirective.
  destruct (directive_marker l startDirective itemStartDirective Hr) as (A1 & A2 & A3).
  cbn zeta in *.
  set (l1 := if strings_HasPrefix (slice_from (lx_input l) (lx_pos l)) startDirective
             then _ else l) in *.
  clearbody l1.
  destruct (directive_marker l1 endDirective itemEndDirective A2) as (B1 & B2 & B3).
  cbn zeta in *.
  set (l2 := if strings_HasPrefix (slice_from (lx_input l1) (lx_pos l1)) endDirective
             then _ else l1) in *.
  clearbody l2. unfold goes_on, entered. cbn [fst snd rank].
  split; [congruence|]. split; [split; [exact B2 | exact I]|]. lia.
Qed.
Lemma lexExpression_goes (l : lexer) :
  entered L lexExpression_ l -> goes_on L lexExpression_ l (lexExpression L l).
Proof.
  intros [Hr _]. unfold lexExpression.
  assert (Hp : 0 <= lx_pos l <= len (lx_input l)) by (unfold in_range in Hr; lia).
  destruct (next l) as [r l1] eqn:E.
  destruct (next_reads l r l1 Hp E) as (H1 & H2 & H3 & H4).
  destruct H2 as (I1 & S1 & P1 & Q1). destruct H3 as (Ib & Sb & Pb).
  set (lb := backup l1) in *. clearbody lb.
  assert (Hrune : fst (rune_at (lx_input lb) (lx_pos lb)) = r) by (rewrite Ib, Pb; auto).
  clear H1 E.
  destruct ((r =? eof) || isEndOfLine r) eqn:E0; [exact I|].
  assert (Hprog : lx_pos l < lx_pos l1).
  { destruct H4 as [[H4 _]|[_ H4]]; [|exact H4]. subst r. discriminate E0. }
  clear H4.
  repeat match goal with
         | |- context [if ?c then _ else _] =>
             match type of c with bool => destruct c eqn:? end
         end;
    unfold goes_on, entered, in_range in *;
    cbn [fst snd rank errorf emit lx_pos lx_input lx_start
         set_pos set_width set_items set_start set_parenDepth set_line] in *;
    rewrite ?Hrune, ?Ib, ?Sb, ?Pb, ?I1, ?S1;
    repeat split; try exact I; try assumption; try lia.
Qed.

Lemma lexSpace_goes (l : lexer) :
  entered L lexSpace_ l ->
  exists r, lexSpace l = Some r /\ goes_on L lexSpace_ l r.
Proof.
  intros [Hr _]. unfold lexSpace.
  destruct (lexSpace_loop_offsets (loop_fuel l) l) as (l1 & E & R).
  - unfold in_range in Hr. lia.
  - unfold in_range in Hr. unfold loop_fuel, len. lia.
  - rewrite E. cbn [mbind option_bind]. eexists. split; [reflexivity|].
    destruct R as (R1 & R2 & R3 & R4). go_on; rewrite ?R1; lia.
Qed.

Lemma lexIdentifier_goes (l : lexer) :
  entered L lexIdentifier_ l ->
  exists r, lexIdentifier L l = Some r /\ goes_on L lexIdentifier_ l r.
Proof.
  intros [Hr Ha]. unfold lexIdentifier.
  destruct (lexIdentifier_loop_offsets (loop_fuel l) l) as (r & E & R).
  - unfold in_range in Hr. lia.
  - unfold in_range in Hr. unfold loop_fuel, len. lia.
  - exists r. split; [exact E|]. unfold goes_on.
    destruct R as [R|(R1 & R2 & R3 & R4 & R5)]; [rewrite R; exact I|].
    rewrite R1. specialize (R5 Ha). unfold entered. cbn [rank]. go_on.
Qed.

Lemma lexComparator_goes (l : lexer) :
  entered L lexComparator_ l -> goes_on L lexComparator_ l (lexComparator L l).
Proof.
  intros [Hr Hc]. unfold lexComparator.
  assert (Hp : 0 <= lx_pos l < len (lx_input l)) by (unfold in_range in Hr; lia).
  destruct (next l) as [c l1] eqn:E.
  destruct (next_progress l c l1 Hp E) as (_ & Hprog).
  destruct (next_reads l c l1 ltac:(lia) E) as (_ & R1 & _ & _).
  pose proof (reads_place l l1 ltac:(lia) R1) as Hp1.
  destruct (peek l1) as [r l2] eqn:P.
  destruct (peek_same l1 r l2 Hp1 P) as (_ & (I2 & S2 & P2)).
  destruct (negb (r =? 61) && negb (r =? 32)); [exact I|].
  pose proof (reads_place l l2 ltac:(lia)) as Hp2.
  destruct R1 as (I1 & S1 & P1 & Q1).
  assert (Hp2' : 0 <= lx_pos l2 <= len (lx_input l2)) by (rewrite I2, P2; lia).
  destruct (next l2) as [r3 l3] eqn:N3.
  destruct (next_reads l2 r3 l3 Hp2' N3) as (_ & (I3 & S3 & P3 & Q3) & _ & _).
  cbn [snd].
  destruct (r =? 61);
    repeat match goal with
           | |- context [if ?c then _ else _] =>
               match type of c with bool => destruct c end
           end;
    unfold goes_on, entered, in_range in *;
    cbn [fst snd rank errorf emit lx_pos lx_input lx_start
         set_pos set_width set_items set_start set_parenDepth set_line] in *;
    rewrite ?I3, ?S3, ?I2, ?S2, ?I1, ?S1 in *;
    repeat split; try exact I; try lia.
Qed.

Lemma lexQuoted_goes (q : Z) (ty : itemType) (s : stateFn) (l : lexer) :
  in_range l -> rank s = 3 ->
  exists r,
    match lexQuoted_loop (loop_fuel l) q l with
    | None => None
    | Some (true, l) => Some (emit ty l, Some lexDirective_)
    | Some (false, l) => Some (errorf "unterminated character constant" l)
    end = Some r
    /\ goes_on L s l r.
Proof.
  intros Hr Hs.
  destruct (lexQuoted_loop_offsets q (loop_fuel l) l) as (b & l1 & E & R).
  - unfold in_range in Hr. lia.
  - unfold in_range in Hr. unfold loop_fuel, len. lia.
  - rewrite E. destruct R as (R1 & R2 & R3 & R4).
    destruct b; eexists; (split; [reflexivity|]); [|exact I].
    unfold goes_on, entered, in_range in *. cbn. rewrite ?R1, Hs.
    repeat split; try lia.
Qed.

Lemma lexChar_goes (l : lexer) :
  entered L lexChar_ l -> exists r, lexChar l = Some r /\ goes_on L lexChar_ l r.
Proof. intros [Hr _]. apply lexQuoted_goes; [exact Hr | reflexivity]. Qed.

Lemma lexString_goes (l : lexer) :
  entered L lexString_ l -> exists r, lexString l = Some r /\ goes_on L lexString_ l r.
Proof. intros [Hr _]. apply lexQuoted_goes; [exact Hr | reflexivity]. Qed.

Lemma lexNumber_goes (l : lexer) :
  entered L lexNumber_ l ->
  exists r, lexNumber L l = Some r /\ goes_on L lexNumber_ l r.
Proof.
  intros [Hr Hn]. unfold lexNumber.
  assert (Hp : 0 <= lx_pos l <= len (lx_input l)) by (unfold in_range in Hr; lia).
  destruct (scanNumber_offsets l Hp) as (b & l1 & E & R & G). rewrite E.
  specialize (G Hn).
  destruct b; [|eexists; split; [reflexivity | exact I]].
  pose proof (reads_place l l1 ltac:(lia) R) as Hp1.
  destruct (peek l1) as [sign l2] eqn:P.
  destruct (peek_same l1 sign l2 Hp1 P) as (_ & (I2 & S2 & P2)).
  destruct R as (I1 & S1 & P1 & Q1).
  assert (Hp2 : 0 <= lx_pos l2 <= len (lx_input l2)) by (rewrite I2, P2; lia).
  destruct ((sign =? 43) || (sign =? 45)).
  - destruct (scanNumber_offsets l2 Hp2) as (ok & l3 & E3 & (I3 & S3 & P3 & Q3) & _).
    rewrite E3.
    destruct (negb ok || _); eexists; (split; [reflexivity|]); [exact I|].
    unfold goes_on, entered, in_range in *. cbn [fst snd rank].
    rewrite ?I3, ?S3, ?I2, ?S2, ?I1, ?S1 in *. repeat split; try lia.
  - eexists. split; [reflexivity|].
    unfold goes_on, entered, in_range in *. cbn.
    rewrite ?I2, ?S2, ?I1, ?S1 in *. repeat split; try lia.
Qed.

(** Every state function returns when it is entered as it expects, and
    enters the next state as that expects. *)
Lemma state_call_goes (s : stateFn) (l : lexer) :
  entered L s l -> exists r, state_call L s l = Some r /\ goes_on L s l r.
Proof.
  intros H. destruct s; cbn [state_call].
  - eexists. split; [reflexivity|]. apply lexText_goes, H.
  - eexists. split; [reflexivity|]. apply lexInterpolation_goes, H.
  - eexists. split; [reflexivity|]. apply lexComment_goes, H.
  - eexists. split; [reflexivity|]. apply lexExpression_goes, H.
  - eexists. split; [reflexivity|]. apply lexDirective_goes, H.
  - apply lexSpace_goes, H.
  - apply lexIdentifier_goes, H.
  - eexists. split; [reflexivity|]. apply lexComparator_goes, H.
  - apply lexChar_goes, H.
  - apply lexString_goes, H.
  - apply lexNumber_goes, H.
Qed.

Lemma run_from_ends (fuel : nat) :
  forall (s : stateFn) (l : lexer),
    entered L s l ->
    4 * (len (lx_input l) - lx_pos l) + rank s < Z.of_nat fuel ->
    exists l', run_from L fuel s l = Some l'.
Proof.
  induction fuel as [|fuel IH]; intros s l He Hf.
  - destruct He as [Hr _]. unfold in_range in Hr. destruct s; cbn [rank] in Hf; lia.
  - cbn [run_from]. destruct (state_call_goes s l He) as ([l1 [s'|]] & E & G); rewrite E.
    + unfold goes_on in G. cbn [fst snd] in G. destruct G as (G1 & G2 & G3).
      apply IH; [exact G2|]. rewrite G1. lia.
    + eauto.
Qed.

Lemma calls_entered (name input : string) (s : stateFn) (l : lexer) :
  calls L name input s l -> lx_input l = input /\ entered L s l.
Proof.
  induction 1 as [|s l l' s' _ [IH1 IH2] E].
  - split; [reflexivity|]. unfold entered, in_range. cbn. unfold len. lia.
  - destruct (state_call_goes s l IH2) as (r & E' & G). rewrite E in E'.
    injection E' as <-. unfold goes_on in G. cbn [fst snd] in G.
    destruct G as (G1 & G2 & _). split; [congruence | exact G2].
Qed.

End Scanner_ends.

(** X17: the scanner ends on every input.  The state functions are
    called at most four times for every byte of the input and four times
    more, and the loops within them end before the input does: the
    bounds that [run] and the loops are given are never reached. *)
Theorem lex_ends :
  forall (L : GoLib) (name input : string), is_Some (lex L name input).
Proof.
  intros L name input. unfold lex, run.
  destruct (@run_from_ends L (run_fuel input) lexText_
              (mk_lexer name input 0 0 0 0 [] 0 1))
    as (l & E).
  - unfold entered, in_range. cbn. unfold len. lia.
  - cbn. unfold run_fuel, len. lia.
  - cbn [lx_input]. rewrite E. eauto.
Qed.

(** X18: every call of a state function in a scan is made with the
    offsets in range, the start of the pending item not after the
    position and the position not after the end of the input, so that the
    slices [input[start:pos]] of emit and [input[pos:]] of the state
    functions are slices of the input; and the call returns. *)
Theorem calls_in_range :
  forall (L : GoLib) (name input : string) (s : stateFn) (l : lexer),
    calls L name input s l ->
    lx_input l = input
    /\ 0 <= lx_start l /\ lx_start l <= lx_pos l /\ lx_pos l <= len input
    /\ is_Some (state_call L s l).
Proof.
  intros L name input s l H. destruct (calls_entered name input s l H) as [H1 H2].
  destruct (state_call_goes s l H2) as (r & E & _).
  destruct H2 as [(A & B & C) _]. rewrite H1 in C.
  repeat split; try assumption. rewrite E. eauto.
Qed.

Lemma calls_in_range_witness :
  let l := fst (lexText (lexer_init "t" "ab${c}")) in
  lx_input l = "ab${c}"
  /\ 0 <= lx_start l /\ lx_start l <= lx_pos l /\ lx_pos l <= len "ab${c}"
  /\ is_Some (state_call go_ascii lexInterpolation_ l).
Proof.
  intros l. apply (calls_in_range go_ascii "t" "ab${c}" lexInterpolation_ l).
  eapply calls_next; [apply calls_first | vm_compute; reflexivity].
Defined.

(** ** A directive that is neither if nor else *)

Section Directive_without_case.

Context {L : GoLib}.
Variable textFormat : TextFormat.
Variable self : nat.

Lemma directive_nil (t t1 : Tree L) (tok : item) (more : list item) (fuel : nat) :
  nextNonSpace L t = Ok tok t1 ->
  feeds t1 more -> fst (fst (token t1)) = tok ->
  typ tok <> itemDirectiveIf -> typ tok <> itemDirectiveElse ->
  directive L textFormat self (S fuel) t = Ok None (Tree_backup L t1).
Proof.
  intros Hn (Hpc & _) Htok H1 H2. cbn [directive]. rewrite Hn. cbn [bind].
  assert (Hp : Tree_peek L (Tree_backup L t1) = Ok tok (Tree_backup L t1)).
  { destruct t1 as [nm pn rt tx lx [[t0 t1'] t2] pc tsf]. cbn in Hpc, Htok. subst.
    reflexivity. }
  destruct (typ tok); try contradiction; rewrite Hp; reflexivity.
Qed.

Lemma textOrInterpolationOrDirective_nil
    (t t1 t2 : Tree L) (start tok : item) (more : list item) (fuel : nat) :
  nextNonSpace L t = Ok start t1 -> typ start = itemStartDirective ->
  nextNonSpace L t1 = Ok tok t2 ->
  feeds t2 more -> fst (fst (token t2)) = tok ->
  typ tok <> itemDirectiveIf -> typ tok <> itemDirectiveElse ->
  textOrInterpolationOrDirective textFormat self (S (S fuel)) t
  = Ok None (Tree_backup L t2).
Proof.
  intros Hn Hs Hn1 Hf Htok H1 H2. cbn [textOrInterpolationOrDirective].
  rewrite Hn. cbn [bind]. rewrite Hs.
  apply (directive_nil t1 t2 tok more fuel); assumption.
Qed.

Lemma itemContent_loop_round (fuel : nat) (content : ContentNode L) (t : Tree L) :
  itemContent_loop L textFormat self (S fuel) content t
  = bind (peekNonSpace L t)
      (fun pk t =>
         if negb (itemType_eqb (typ pk) itemEOF) then
           bind (textOrInterpolationOrDirective textFormat self fuel t)
             (fun n t =>
                match n with
                | None => nil_deref L
                | Some n =>
                    if is_end_or_else (Node_Type n) then Ok (content, n) t
                    else itemContent_loop L textFormat self fuel (content_append L content n) t
                end)
         else Tree_errorf L "unexpected EOF" t).
Proof. reflexivity. Qed.

End Directive_without_case.

(** X19: a directive whose first token is neither the keyword if nor
    the keyword else.  directive has no case for it: it puts the token
    back and returns the nil node, so textOrInterpolationOrDirective
    returns nil, with the token as the next one; and the loop of
    itemContent, which reads the content of an if, asks the nil node for
    its type: a run-time error. *)
Theorem directive_without_case :
  forall (L : GoLib) (textFormat : TextFormat) (self fuel : nat) (t : Tree L)
         (start tok : item) (more : list item),
    feeds t (start :: tok :: more) ->
    typ start = itemStartDirective ->
    typ tok <> itemDirectiveIf ->
    typ tok <> itemDirectiveElse ->
    (exists t1 t' : Tree L,
       textOrInterpolationOrDirective textFormat self (S (S fuel)) t = Ok None t1
       /\ nextNonSpace L t1 = Ok tok t' /\ feeds t' more)
    /\ forall content : ContentNode L,
         itemContent_loop L textFormat self (S (S (S fuel))) content t = nil_deref L.
Proof.
  intros L textFormat self fuel t start tok more Hf Hs H1 H2.
  destruct (nextNonSpace_feeds_nonspace t start _ Hf) as (t1 & Hn1 & Hf1 & _ & Hk1 & Hns1).
  destruct (nextNonSpace_feeds_nonspace t1 tok _ Hf1) as (t2 & Hn2 & Hf2 & _ & Hk2 & Hns2).
  split.
  - exists (Tree_backup L t2), t2. split; [|split; [|exact Hf2]].
    + apply (textOrInterpolationOrDirective_nil textFormat self t t1 t2 start tok more);
        assumption.
    + apply (nextNonSpace_backup t2 tok more); assumption.
  - intros content. rewrite itemContent_loop_round. unfold peekNonSpace. rewrite Hn1.
    cbn [bind]. rewrite Hs.
    change (negb (itemType_eqb itemStartDirective itemEOF)) with true. cbv iota.
    rewrite (textOrInterpolationOrDirective_nil textFormat self (Tree_backup L t1) t1 t2
               start tok more fuel); try assumption; [reflexivity|].
    apply (nextNonSpace_backup t1 start (tok :: more)); assumption.
Qed.

Lemma directive_without_case_witness :
  let t := parser_after go_ascii 0 "<#list xs as x>" in
  (exists t1 t' : Tree go_ascii,
     textOrInterpolationOrDirective FmtS 0%nat 2 t = Ok None t1
     /\ nextNonSpace go_ascii t1 = Ok (mk_item itemDirectiveList 2 "list" 1) t'
     /\ feeds t' (skipn 2 (filter (fun i => nonspace i = true) (lx_items (lexer_of t)))))
  /\ forall content : ContentNode go_ascii,
       itemContent_loop go_ascii FmtS 0%nat 3 content t = nil_deref go_ascii.
Proof.
  intros t.
  apply (directive_without_case go_ascii FmtS 0%nat 0%nat t
           (mk_item itemStartDirective 0 "<#" 1) (mk_item itemDirectiveList 2 "list" 1)).
  - split; [reflexivity|]. eexists. split; vm_compute; reflexivity.
  - reflexivity.
  - discriminate.
  - discriminate.
Defined.

(** ** A name that is defined twice *)


